(** * ActionAgent: transcript-to-work-item pipeline

    A shallow embedding of the pipeline's pure core and of its effectful
    wrappers (retry and error handling, batched delivery and the creation of
    one work item, identity resolution with the directory search and its
    cache, extraction, the metrics store), followed by the properties
    established about them.

    Conventions.
    - A JavaScript string is a list of characters ([str]).  The model
      covers ASCII text: a character is a Rocq [ascii] value and stands for
      one UTF-16 code unit below 128, so that [length] is [.length]; the
      character classes of the regular expressions used by the code ([\s],
      [\d], [a-z], line terminators) and [toLowerCase] are those of the
      ASCII range, on which they are JavaScript's.
    - Untyped data coming out of [JSON.parse] is a [value].
    - A computation that may throw is a [completion].
    - Effectful collaborators (the extraction backend, the directory service,
      the ticketing backend, [Math.random], [JSON.parse]) are parameters:
      state-passing functions or oracles. *)

From Stdlib Require Import Ascii String ZArith QArith Qminmax Qround Qpower Lia Lqa Bool Arith DecimalString List.
From Equations Require Import Equations.
Import ListNotations.

Set Implicit Arguments.
Set Warnings "-register-all".
Open Scope nat_scope.

(* ===================================================================== *)
(** * Part I: the program *)
(* ===================================================================== *)

(** ** JavaScript strings and values *)

Module JS.

Definition str := list ascii.

Definition lit (s : string) : str := list_ascii_of_string s.
Arguments lit : simpl never.

Fixpoint str_eqb (a b : str) : bool :=
  match a, b with
  | [], [] => true
  | x :: a', y :: b' => Ascii.eqb x y && str_eqb a' b'
  | _, _ => false
  end.

(** [\s] and the characters removed by [trim()]: TAB, LF, VT, FF, CR, SPACE. *)
Definition isWhitespace (c : ascii) : bool :=
  let n := nat_of_ascii c in
  ((9 <=? n) && (n <=? 13)) || (n =? 32).

(** Characters the regular-expression dot does not match: LF and CR. *)
Definition isLineTerminator (c : ascii) : bool :=
  let n := nat_of_ascii c in (n =? 10) || (n =? 13).

(** [\d] *)
Definition isDigit (c : ascii) : bool :=
  let n := nat_of_ascii c in (48 <=? n) && (n <=? 57).

Definition isLower (c : ascii) : bool :=
  let n := nat_of_ascii c in (97 <=? n) && (n <=? 122).

Definition isUpper (c : ascii) : bool :=
  let n := nat_of_ascii c in (65 <=? n) && (n <=? 90).

Definition toLowerChar (c : ascii) : ascii :=
  if isUpper c then ascii_of_nat (nat_of_ascii c + 32) else c.

(** [s.length > 0], which is also the truth value of a string [s]. *)
Definition nonempty {A} (s : list A) : bool :=
  match s with [] => false | _ => true end.

(** [s.toLowerCase()] *)
Definition toLowerCase (s : str) : str := map toLowerChar s.

Fixpoint trimStart (s : str) : str :=
  match s with
  | [] => []
  | c :: r => if isWhitespace c then trimStart r else s
  end.

Definition trimEnd (s : str) : str := rev (trimStart (rev s)).

(** [s.trim()] *)
Definition trim (s : str) : str := trimEnd (trimStart s).

(** [s.substring(0, n)] *)
Definition substring0 (n : nat) (s : str) : str := firstn n s.

(** [s.startsWith(p)] *)
Fixpoint startsWith (s p : str) : bool :=
  match p, s with
  | [], _ => true
  | _ :: _, [] => false
  | a :: p', b :: s' => Ascii.eqb a b && startsWith s' p'
  end.

(** [s.endsWith(p)] *)
Definition endsWith (s p : str) : bool := startsWith (rev s) (rev p).

(** [s.includes(p)] *)
Fixpoint includes (s p : str) : bool :=
  startsWith s p ||
  match s with
  | [] => false
  | _ :: r => includes r p
  end.

(** Put one more character in front of the first piece of a split. *)
Definition cons_to_head (c : ascii) (pieces : list str) : list str :=
  match pieces with
  | w :: ws => (c :: w) :: ws
  | [] => [[c]]
  end.

(** [s.split(sep)] for a one-character separator. *)
Fixpoint split_char (sep : ascii) (s : str) : list str :=
  match s with
  | [] => [[]]
  | c :: r =>
      if Ascii.eqb c sep then [] :: split_char sep r
      else cons_to_head c (split_char sep r)
  end.

(** [parts.join(sep)] *)
Fixpoint join (sep : str) (parts : list str) : str :=
  match parts with
  | [] => []
  | [x] => x
  | x :: rest => x ++ sep ++ join sep rest
  end.

(** [s.replace(/[class]+/g, " ")]: every maximal run of characters of the
    class becomes one space.  [in_run] tells whether the previous character
    belonged to the class. *)
Fixpoint replace_runs (class : ascii -> bool) (in_run : bool) (s : str) : str :=
  match s with
  | [] => []
  | c :: r =>
      if class c then
        if in_run then replace_runs class true r
        else " "%char :: replace_runs class true r
      else c :: replace_runs class false r
  end.

(** [s.replace(/\s+/g, " ")] *)
Definition collapse_whitespace (s : str) : str := replace_runs isWhitespace false s.

(** [/^\d+$/.test(s)] *)
Definition all_digits (s : str) : bool :=
  match s with
  | [] => false
  | _ => forallb isDigit s
  end.

(** Values produced by [JSON.parse], plus [undefined], which property access
    yields for a missing property.  A JSON number never is NaN, so a number
    is falsy exactly when it is zero. *)
Inductive value : Type :=
| VUndefined
| VNull
| VBool (b : bool)
| VNum (q : Q)
| VStr (s : str)
| VArr (elems : list value)
| VObj (fields : list (str * value)).

(** ToBoolean *)
Definition truthy (v : value) : bool :=
  match v with
  | VUndefined | VNull => false
  | VBool b => b
  | VNum q => negb (Qeq_bool q 0)
  | VStr s => match s with [] => false | _ => true end
  | VArr _ | VObj _ => true
  end.

(** [Array.isArray(v)] *)
Definition isArray (v : value) : bool :=
  match v with VArr _ => true | _ => false end.

(** The own property [k] of an object; [fields] lists each property once. *)
Fixpoint lookup (k : str) (fields : list (str * value)) : value :=
  match fields with
  | [] => VUndefined
  | (k', v) :: rest => if str_eqb k k' then v else lookup k rest
  end.

(** Things that can be thrown.  [JsError] is any built-in [Error] instance
    (SyntaxError, TypeError, Error) with its name and message;
    [AgentError] is the repository's [ActionAgentError]; [ThrownValue] is a
    thrown value that is not an [Error], kept as its [String()] rendering. *)
Inductive exn : Type :=
| JsError (name message : str)
| AgentError (message correlationId operationName : str)
             (isRetryable : bool) (statusCode : option Z) (cause : option exn)
| ThrownValue (rendering : str).

Inductive completion (A : Type) : Type :=
| Return (a : A)
| Throw (e : exn).
Arguments Return {A} a.
Arguments Throw {A} e.

Definition bind {A B} (c : completion A) (k : A -> completion B) : completion B :=
  match c with
  | Return a => k a
  | Throw e => Throw e
  end.

(** [try { body } catch (error) { handler(error) }] *)
Definition try_catch {A} (body : completion A) (handler : exn -> completion A)
  : completion A :=
  match body with
  | Return a => Return a
  | Throw e => handler e
  end.

(** [v.k] for a property name [k] that no prototype defines (all the names
    the pipeline reads from a response are of that kind): a TypeError on
    [null] and [undefined], the own property of an object, [undefined]
    on every other value. *)
Definition get (v : value) (k : str) : completion value :=
  match v with
  | VUndefined =>
      Throw (JsError (lit "TypeError")
               (lit "Cannot read properties of undefined (reading '" ++ k ++ lit "')"))
  | VNull =>
      Throw (JsError (lit "TypeError")
               (lit "Cannot read properties of null (reading '" ++ k ++ lit "')"))
  | VObj fields => Return (lookup k fields)
  | _ => Return VUndefined
  end.

(** [list.map(f)] where [f] may throw: the first exception aborts the map. *)
Fixpoint mapM {A B} (f : A -> completion B) (l : list A) : completion (list B) :=
  match l with
  | [] => Return []
  | x :: r => bind (f x) (fun y => bind (mapM f r) (fun ys => Return (y :: ys)))
  end.

(** A JavaScript [Map] with string keys: entries in insertion order;
    [set] on a key already present replaces the value in place. *)
Definition Map (V : Type) : Type := list (str * V).

Fixpoint map_get {V} (k : str) (m : Map V) : option V :=
  match m with
  | [] => None
  | (k', v) :: rest => if str_eqb k k' then Some v else map_get k rest
  end.

Fixpoint map_set {V} (k : str) (v : V) (m : Map V) : Map V :=
  match m with
  | [] => [(k, v)]
  | (k', v') :: rest =>
      if str_eqb k k' then (k', v) :: rest else (k', v') :: map_set k v rest
  end.

Definition map_values {V} (m : Map V) : list V := map snd m.
Definition map_keys {V} (m : Map V) : list str := map fst m.

End JS.

(** ** utils/errorHandling.ts *)

Module ErrorHandling.
Import JS.

Record CorrelationContext : Type := {
  correlationId : str;
  operationName : str;
  startTime : Z
}.

(** [new ActionAgentError(message, context, options)] *)
Definition ActionAgentError (message : str) (context : CorrelationContext)
  (isRetryable : option bool) (statusCode : option Z) (cause : option exn) : exn :=
  AgentError message (correlationId context) (operationName context)
    (match isRetryable with Some b => b | None => false end)
    statusCode cause.

(** The correlation id an error carries, if it is an [ActionAgentError]. *)
Definition error_correlationId (e : exn) : option str :=
  match e with
  | AgentError _ cid _ _ _ _ => Some cid
  | _ => None
  end.

(** [error.message] of an [Error] instance. *)
Definition error_message (e : exn) : str :=
  match e with
  | JsError _ m => m
  | AgentError m _ _ _ _ _ => m
  | ThrownValue r => r
  end.

Record RetryConfig : Type := {
  maxAttempts : Z;
  baseDelayMs : Q;
  maxDelayMs : Q;
  jitterFactor : Q
}.

(** [Partial<RetryConfig>] *)
Record PartialRetryConfig : Type := {
  p_maxAttempts : option Z;
  p_baseDelayMs : option Q;
  p_maxDelayMs : option Q;
  p_jitterFactor : option Q
}.

Definition no_overrides : PartialRetryConfig :=
  {| p_maxAttempts := None; p_baseDelayMs := None;
     p_maxDelayMs := None; p_jitterFactor := None |}.

(** [config.features], the part the retry wrapper reads. *)
Record Features : Type := {
  enableRetries : bool;
  maxRetries : Z;
  retryDelayMs : Z
}.

Definition defaultRetryConfig (features : Features) : RetryConfig :=
  {| maxAttempts := maxRetries features;
     baseDelayMs := inject_Z (retryDelayMs features);
     maxDelayMs := 30000%Q;
     jitterFactor := (2 # 10)%Q |}.

Definition or_else {A} (o : option A) (d : A) : A :=
  match o with Some a => a | None => d end.

(** [{ ...defaultRetryConfig, ...retryConfig }] *)
Definition merge_config (d : RetryConfig) (o : PartialRetryConfig) : RetryConfig :=
  {| maxAttempts := or_else (p_maxAttempts o) (maxAttempts d);
     baseDelayMs := or_else (p_baseDelayMs o) (baseDelayMs d);
     maxDelayMs := or_else (p_maxDelayMs o) (maxDelayMs d);
     jitterFactor := or_else (p_jitterFactor o) (jitterFactor d) |}.

(** [Math.min(exponentialDelay, config.maxDelayMs)], the delay before
    jitter.  Doubles are idealised as exact rationals. *)
Definition cappedDelay (attempt : Z) (config : RetryConfig) : Q :=
  let exponentialDelay := (baseDelayMs config * Qpower 2 (attempt - 1))%Q in
  Qmin exponentialDelay (maxDelayMs config).

(** [calculateBackoffDelay]; [random] is the value [Math.random()] returns
    on this call, a number in [[0, 1)]. *)
Definition calculateBackoffDelay (attempt : Z) (config : RetryConfig) (random : Q) : Z :=
  let capped := cappedDelay attempt config in
  let jitter := (capped * jitterFactor config * (random - (1 # 2)))%Q in
  Qfloor (capped + jitter)%Q.

Definition retryableStatusCodes : list Z := [408; 429; 500; 502; 503; 504]%Z.

Definition digit_value (c : ascii) : Z := Z.of_nat (nat_of_ascii c - 48).

Fixpoint skip_colon_or_space (s : str) : str :=
  match s with
  | [] => []
  | c :: r => if Ascii.eqb c ":"%char || isWhitespace c then skip_colon_or_space r else s
  end.

(** The first match of [/status[:\s]+(\d{3})/i] in a lower-cased message,
    as [parseInt(statusMatch[1], 10)].  The separator run is greedy and no
    digit belongs to it, so at each start only the maximal run can be
    followed by the three digits. *)
Fixpoint status_match (message : str) : option Z :=
  let here :=
    if startsWith message (lit "status") then
      match skipn 6 message with
      | sep :: after_sep =>
          if Ascii.eqb sep ":"%char || isWhitespace sep then
            match skip_colon_or_space after_sep with
            | d1 :: d2 :: d3 :: _ =>
                if isDigit d1 && isDigit d2 && isDigit d3 then
                  Some (100 * digit_value d1 + 10 * digit_value d2 + digit_value d3)%Z
                else None
            | _ => None
            end
          else None
      | [] => None
      end
    else None in
  match here with
  | Some status => Some status
  | None =>
      match message with
      | [] => None
      | _ :: rest => status_match rest
      end
  end.

Definition transient_patterns : list str :=
  map lit ["timeout"; "econnreset"; "econnrefused"; "rate limit";
           "too many requests"; "service unavailable"; "gateway timeout"]%string.

Definition isRetryableError (error : exn) : bool :=
  match error with
  | AgentError _ _ _ isRetryable _ _ => isRetryable
  | JsError _ msg =>
      let message := toLowerCase msg in
      if existsb (includes message) transient_patterns then true
      else match status_match message with
           | Some status => existsb (Z.eqb status) retryableStatusCodes
           | None => false
           end
  | ThrownValue _ => false
  end.

(** [error instanceof Error ? error : new Error(String(error))] *)
Definition as_Error (error : exn) : exn :=
  match error with
  | ThrownValue rendering => JsError (lit "Error") rendering
  | _ => error
  end.

Section WithRetry.
(** [T] is the operation's result type, [S] the state of whatever the
    operation talks to. *)
Variables (T S : Type).

(** The world [withRetry] runs in: the collaborator's state, the number of
    times the operation was invoked, the delays slept so far (oldest
    first) and the number of [Math.random()] draws. *)
Record World : Type := {
  backend : S;
  invocations : nat;
  slept : list Z;
  draws : nat
}.

Variable features : Features.
(** One invocation of [operation()]. *)
Variable operation : S -> completion T * S.
(** [random n] is what the draw number [n] of [Math.random()] returns. *)
Variable random : nat -> Q.

Definition invoke (w : World) : completion T * World :=
  let (r, s') := operation (backend w) in
  (r, {| backend := s'; invocations := Datatypes.S (invocations w);
         slept := slept w; draws := draws w |}).

(** [const delay = calculateBackoffDelay(attempt, cfg); await sleep(delay)] *)
Definition backoff (attempt : Z) (cfg : RetryConfig) (w : World) : World :=
  let delay := calculateBackoffDelay attempt cfg (random (draws w)) in
  {| backend := backend w; invocations := invocations w;
     slept := slept w ++ [delay]; draws := Datatypes.S (draws w) |}.

(** The [for] loop of [withRetry].  [remaining] counts the iterations the
    loop condition [attempt <= cfg.maxAttempts] still admits; the loop is
    started with [attempt = 1] and [remaining = maxAttempts].  The result
    is [inl v] when the loop is left by [return result], and
    [inr lastError] when it is left by [break] or by its condition. *)
Fixpoint retry_loop (cfg : RetryConfig) (remaining : nat) (attempt : Z)
    (lastError : option exn) (w : World) : (T + option exn) * World :=
  match remaining with
  | O => (inr lastError, w)
  | Datatypes.S remaining' =>
      let (r, w1) := invoke w in
      match r with
      | Return result => (inl result, w1)
      | Throw error =>
          let lastError' := as_Error error in
          let shouldRetry :=
            (attempt <? maxAttempts cfg)%Z && isRetryableError error in
          if shouldRetry then
            retry_loop cfg remaining' (attempt + 1) (Some lastError')
              (backoff attempt cfg w1)
          else (inr (Some lastError'), w1)
      end
  end.

(** [lastError?.message || "Operation failed after retries"] *)
Definition terminal_message (lastError : option exn) : str :=
  match lastError with
  | Some e =>
      match error_message e with
      | [] => lit "Operation failed after retries"
      | m => m
      end
  | None => lit "Operation failed after retries"
  end.

Definition withRetry (context : CorrelationContext)
    (retryConfig : PartialRetryConfig) (w : World) : completion T * World :=
  let cfg := merge_config (defaultRetryConfig features) retryConfig in
  if negb (enableRetries features) then invoke w
  else
    match retry_loop cfg (Z.to_nat (maxAttempts cfg)) 1 None w with
    | (inl result, w') => (Return result, w')
    | (inr lastError, w') =>
        (Throw (ActionAgentError (terminal_message lastError) context
                  (Some false) None lastError), w')
    end.
End WithRetry.

End ErrorHandling.

(** ** models/actionItem.ts *)

Module Model.
Import JS.

Inductive WorkItemType : Type := Task | Bug | UserStory.
Inductive Priority : Type := High | Medium | Low.

(** [interface ActionItem] *)
Record ActionItem : Type := {
  title : str;
  assignedTo : str;
  type : WorkItemType;
  priority : Priority;
  description : option str;
  deadline : option str
}.

End Model.

(** ** The Azure OpenAI service: chunker, response validator, deduplicator *)

Module OpenAIService.
Import JS ErrorHandling Model.

(** *** Chunker *)

Definition isSentenceEnd (c : ascii) : bool :=
  Ascii.eqb c "."%char || Ascii.eqb c "!"%char || Ascii.eqb c "?"%char.

(** Scanner state of [text.split(/(?<=[.!?])\s+/)]: inside a sentence,
    remembering whether the previous character is one of [.!?]; or inside the
    whitespace run of a separator that has already matched. *)
Inductive scan : Type :=
| InSentence (after_end : bool)
| InSeparator.

(** A separator starts at a whitespace character preceded by [.], [!] or [?]
    and extends over the whole whitespace run that follows. *)
Fixpoint split_sentences_from (mode : scan) (s : str) : list str :=
  match s with
  | [] => [[]]
  | c :: r =>
      match mode with
      | InSentence after_end =>
          if after_end && isWhitespace c then [] :: split_sentences_from InSeparator r
          else cons_to_head c (split_sentences_from (InSentence (isSentenceEnd c)) r)
      | InSeparator =>
          if isWhitespace c then split_sentences_from InSeparator r
          else cons_to_head c (split_sentences_from (InSentence (isSentenceEnd c)) r)
      end
  end.

(** [text.split(/(?<=[.!?])\s+/)] *)
Definition split_sentences (text : str) : list str :=
  split_sentences_from (InSentence false) text.

Definition nonblank (s : str) : bool :=
  match trim s with [] => false | _ => true end.

(** Body of [for (const word of words)]; the state is [(chunks, wordChunk)]. *)
Definition pack_word (maxLength : nat) (st : list str * str) (word : str)
  : list str * str :=
  let '(chunks, wordChunk) := st in
  let '(chunks, wordChunk) :=
    if maxLength <? length wordChunk + length word
    then (chunks ++ [trim wordChunk], [])
    else (chunks, wordChunk) in
  (chunks, wordChunk ++ word ++ lit " ").

(** Body of [for (const sentence of sentences)]; the state is
    [(chunks, currentChunk)]. *)
Definition pack_sentence (maxLength : nat) (st : list str * str) (sentence : str)
  : list str * str :=
  let '(chunks, currentChunk) := st in
  if maxLength <? length currentChunk + length sentence then
    let '(chunks, currentChunk) :=
      if 0 <? length currentChunk
      then (chunks ++ [trim currentChunk], [])
      else (chunks, currentChunk) in
    if maxLength <? length sentence then
      let words := split_char " "%char sentence in
      let '(chunks, wordChunk) := fold_left (pack_word maxLength) words (chunks, []) in
      if nonblank wordChunk then (chunks, wordChunk) else (chunks, currentChunk)
    else (chunks, sentence ++ lit " ")
  else (chunks, currentChunk ++ sentence ++ lit " ").

Definition splitIntoChunks (text : str) (maxLength : nat) : list str :=
  let sentences := split_sentences text in
  let '(chunks, currentChunk) :=
    fold_left (pack_sentence maxLength) sentences ([], []) in
  if nonblank currentChunk then chunks ++ [trim currentChunk] else chunks.

(** *** Response validator *)

(** The object literal the validator builds for one entry.  TypeScript types
    it as [ActionItem]; at run time [assignedTo], [description] and
    [deadline] are copied from the response unchecked, so they hold whatever
    value the response had. *)
Record ParsedItem : Type := {
  p_title : str;
  p_assignedTo : value;
  p_type : WorkItemType;
  p_priority : Priority;
  p_description : value;
  p_deadline : value
}.

(** [ActionItemsResponse] as the validator returns it. *)
Record ParsedResponse : Type := {
  actionItems : list ParsedItem;
  summary : value
}.

Definition sanitizeTitle (title : str) : str :=
  collapse_whitespace
    (replace_runs isLineTerminator false
       (substring0 255 (trim title))).

(** [v?.toLowerCase()]: [undefined] on a nullish receiver, the lower-cased
    string on a string, and a TypeError on anything else, which has no
    [toLowerCase] method to call. *)
Definition optional_toLowerCase (v : value) : completion (option str) :=
  match v with
  | VUndefined | VNull => Return None
  | VStr s => Return (Some (toLowerCase s))
  | _ => Throw (JsError (lit "TypeError") (lit "toLowerCase is not a function"))
  end.

(** [normalized === "literal"] *)
Definition equals (normalized : option str) (literal : string) : bool :=
  match normalized with
  | Some s => str_eqb s (lit literal)
  | None => false
  end.

Definition validateWorkItemType (type : value) : completion WorkItemType :=
  bind (optional_toLowerCase type) (fun normalized =>
    if equals normalized "bug" || equals normalized "defect" || equals normalized "fix"
    then Return Bug
    else if equals normalized "user story" || equals normalized "story"
            || equals normalized "feature"
    then Return UserStory
    else Return Task).

Definition validatePriority (priority : value) : completion Priority :=
  bind (optional_toLowerCase priority) (fun normalized =>
    if equals normalized "high" || equals normalized "critical"
       || equals normalized "urgent" || equals normalized "1"
    then Return High
    else if equals normalized "low" || equals normalized "minor" || equals normalized "3"
    then Return Low
    else Return Medium).

(** [a || b] *)
Definition or_default (a b : value) : value := if truthy a then a else b.

(** The [.filter] predicate:
    [item && typeof item.title === "string" && item.title.trim().length > 0] *)
Definition has_title (item : value) : bool :=
  truthy item &&
  match get item (lit "title") with
  | Return (VStr t) => 0 <? length (trim t)
  | _ => false
  end.

(** The [.map] callback. *)
Definition sanitize_item (item : value) : completion ParsedItem :=
  bind (get item (lit "title")) (fun title =>
  bind (match title with
        | VStr t => Return (sanitizeTitle t)
        | _ => Throw (JsError (lit "TypeError") (lit "title.trim is not a function"))
        end) (fun title' =>
  bind (get item (lit "assignedTo")) (fun assignedTo =>
  bind (get item (lit "type")) (fun type =>
  bind (validateWorkItemType type) (fun type' =>
  bind (get item (lit "priority")) (fun priority =>
  bind (validatePriority priority) (fun priority' =>
  bind (get item (lit "description")) (fun description =>
  bind (get item (lit "deadline")) (fun deadline =>
  Return {| p_title := title';
            p_assignedTo := or_default assignedTo (VStr (lit "Unassigned"));
            p_type := type';
            p_priority := priority';
            p_description := or_default description (VStr []);
            p_deadline := or_default deadline VUndefined |}))))))))).

(** "Validate and sanitize each item", to the final [return]. *)
Definition validate_items (items : list value) (summary : value)
  : completion ParsedResponse :=
  bind (mapM sanitize_item (filter has_title items)) (fun validatedItems =>
  Return {| actionItems := validatedItems; summary := summary |}).

Definition array_elems (v : value) : list value :=
  match v with VArr l => l | _ => [] end.

Section Validator.
(** [JSON.parse]: the parsed value, or the SyntaxError it throws. *)
Variable JSON_parse : str -> completion value.

Definition parseAndValidateResponse (content : str) (context : CorrelationContext)
  : completion ParsedResponse :=
  try_catch
    (bind (JSON_parse content) (fun parsed =>
       if isArray parsed then validate_items (array_elems parsed) VUndefined
       else
         bind (get parsed (lit "actionItems")) (fun items =>
         if truthy items && isArray items then
           bind (get parsed (lit "summary")) (fun summary =>
           validate_items (array_elems items) summary)
         else
           bind (get parsed (lit "tasks")) (fun tasks =>
           if truthy tasks && isArray tasks then
             bind (get parsed (lit "summary")) (fun summary =>
             validate_items (array_elems tasks) summary)
           else Return {| actionItems := []; summary := VUndefined |}))))
    (fun error =>
       Throw (ActionAgentError (lit "Failed to parse AI response as JSON")
                context None None (Some error))).
End Validator.

(** *** Deduplicator *)

(** [item.title.toLowerCase().replace(/[^a-z0-9]/g, "")], for a title of
    ASCII characters: lower-casing then changes the letters [A-Z] and
    nothing else. *)
Definition dedup_key (item : ActionItem) : str :=
  filter (fun c => isLower c || isDigit c) (toLowerCase (title item)).

(** [item.description?.length || 0], for a description of ASCII characters:
    one code unit each. *)
Definition description_length (item : ActionItem) : nat :=
  match description item with
  | Some d => length d
  | None => 0
  end.

(** Body of [for (const item of items)]; the state is [seen]. *)
Definition dedup_step (seen : Map ActionItem) (item : ActionItem) : Map ActionItem :=
  let key := dedup_key item in
  match map_get key seen with
  | None => map_set key item seen
  | Some existing =>
      if description_length existing <? description_length item
      then map_set key item seen
      else seen
  end.

Definition deduplicateItems (items : list ActionItem) : list ActionItem :=
  map_values (fold_left dedup_step items []).

End OpenAIService.

(** ** The Graph service: caption normalizer *)

Module GraphService.
Import JS.

Definition newline : ascii := ascii_of_nat 10.

(** The characters before the first [>] and the characters after it. *)
Fixpoint split_at_gt (s : str) : option (str * str) :=
  match s with
  | [] => None
  | c :: r =>
      if Ascii.eqb c ">"%char then Some ([], r)
      else match split_at_gt r with
           | Some (before, after) => Some (c :: before, after)
           | None => None
           end
  end.

(** [/<v ([^>]+)>(.+?)(?:<\/v>)?$/] tried at the start of [s]; the result is
    (group 1, group 2).  Group 1 runs to the first [>].  What follows it has
    to reach the end of the input without a line terminator, and must not be
    empty; the lazy group 2 stops before a final [</v>] when that leaves it
    at least one character. *)
Definition speaker_match_here (s : str) : option (str * str) :=
  if startsWith s (lit "<v ") then
    match split_at_gt (skipn 3 s) with
    | Some (speaker, rest) =>
        if nonempty speaker && nonempty rest
           && forallb (fun c => negb (isLineTerminator c)) rest
        then Some (speaker,
                   if endsWith rest (lit "</v>") && (4 <? length rest)
                   then firstn (length rest - 4) rest
                   else rest)
        else None
    | None => None
    end
  else None.

(** [trimmed.match(/<v ([^>]+)>(.+?)(?:<\/v>)?$/)]: the leftmost match. *)
Fixpoint speaker_match (s : str) : option (str * str) :=
  match speaker_match_here s with
  | Some m => Some m
  | None =>
      match s with
      | [] => None
      | _ :: r => speaker_match r
      end
  end.

(** [text.replace(/<\/v>$/, "")] *)
Definition strip_closing_tag (text : str) : str :=
  if endsWith text (lit "</v>") then firstn (length text - 4) text else text.

(** Body of [for (const line of lines)]; the state is
    [(textLines, currentSpeaker)]. *)
Definition vtt_line (st : list str * str) (line : str) : list str * str :=
  let '(textLines, currentSpeaker) := st in
  let trimmed := trim line in
  if negb (nonempty trimmed) || str_eqb trimmed (lit "WEBVTT")
     || startsWith trimmed (lit "NOTE")
  then st
  else if includes trimmed (lit " --> ") then st
  else if all_digits trimmed then st
  else
    match speaker_match trimmed with
    | Some (speaker, group2) =>
        let text := strip_closing_tag group2 in
        let '(textLines, currentSpeaker) :=
          if negb (str_eqb speaker currentSpeaker)
          then (textLines ++ [newline :: speaker ++ lit ":"], speaker)
          else (textLines, currentSpeaker) in
        (textLines ++ [text], currentSpeaker)
    | None =>
        if 0 <? length trimmed
        then (textLines ++ [trimmed], currentSpeaker)
        else st
    end.

Definition parseVttToText (vttContent : str) : str :=
  if negb (nonempty vttContent) then []
  else
    let lines := split_char newline vttContent in
    let '(textLines, _) := fold_left vtt_line lines ([], []) in
    trim (collapse_whitespace (join (lit " ") textLines)).

End GraphService.

(** ** The identity service: batch resolution *)

Module IdentityService.
Import JS.

Inductive Confidence : Type := high | medium | low.

Record ResolvedUser : Type := {
  displayName : str;
  userPrincipalName : str;
  mail : option str;
  id : str;
  confidence : Confidence
}.

Record ResolutionResult : Type := {
  originalName : str;
  resolved : bool;
  user : option ResolvedUser;
  alternatives : option (list ResolvedUser);
  error : option str
}.

(** [[...new Set(names)]]: first occurrences, in order. *)
Fixpoint unique_from (seen : list str) (names : list str) : list str :=
  match names with
  | [] => []
  | n :: rest =>
      if existsb (str_eqb n) seen then unique_from seen rest
      else n :: unique_from (n :: seen) rest
  end.

Definition unique (names : list str) : list str := unique_from [] names.

Definition BATCH_SIZE : nat := 5.

Section Resolve.
(** [D] is the state behind the directory lookups: the directory service
    and the process-wide cache. *)
Variable D : Type.
(** [searchUsersByName]: cache and directory queries. *)
Variable searchUsersByName : str -> D -> completion (list ResolvedUser) * D.

Definition resolveUser (name : str) (d : D) : ResolutionResult * D :=
  if negb (nonempty name)
     || str_eqb (toLowerCase name) (lit "unassigned")
  then ({| originalName := name; resolved := false; user := None;
           alternatives := None; error := None |}, d)
  else
    let (r, d') := searchUsersByName name d in
    match r with
    | Return [] =>
        ({| originalName := name; resolved := false; user := None;
            alternatives := None;
            error := Some (lit "No matching users found") |}, d')
    | Return [u] =>
        ({| originalName := name; resolved := true; user := Some u;
            alternatives := None; error := None |}, d')
    | Return (u :: others) =>
        ({| originalName := name; resolved := true; user := Some u;
            alternatives := Some others; error := None |}, d')
    | Throw e =>
        ({| originalName := name; resolved := false; user := None;
            alternatives := None;
            error := Some (match e with
                           | ThrownValue _ => lit "Unknown error"
                           | _ => ErrorHandling.error_message e
                           end) |}, d')
    end.

(** [await Promise.all(batch.map(resolveUser))]: the lookups of one batch
    are started in list order; each is taken as one step on the shared
    state. *)
Fixpoint resolve_batch (batch : list str) (d : D) : list ResolutionResult * D :=
  match batch with
  | [] => ([], d)
  | name :: rest =>
      let (r, d1) := resolveUser name d in
      let (rs, d2) := resolve_batch rest d1 in
      (r :: rs, d2)
  end.

(** [for (let j = 0; j < batch.length; j++) results.set(batch[j], batchResults[j])] *)
Fixpoint store_batch (batch : list str) (batchResults : list ResolutionResult)
    (results : Map ResolutionResult) : Map ResolutionResult :=
  match batch, batchResults with
  | name :: batch', r :: batchResults' =>
      store_batch batch' batchResults' (map_set name r results)
  | _, _ => results
  end.

(** The loop [for (let i = 0; i < uniqueNames.length; i += BATCH_SIZE)];
    [pending] is [uniqueNames.slice(i)]. *)
Equations? resolve_loop (pending : list str) (results : Map ResolutionResult)
    (d : D) : Map ResolutionResult * D by wf (length pending) lt :=
  resolve_loop [] results d := (results, d);
  resolve_loop (n :: rest) results d :=
    let batch := firstn BATCH_SIZE (n :: rest) in
    let '(batchResults, d') := resolve_batch batch d in
    resolve_loop (skipn BATCH_SIZE (n :: rest))
      (store_batch batch batchResults results) d'.
Proof. destruct rest as [|? [|? [|? [|? ?]]]]; simpl; lia. Qed.

Definition resolveUsers (names : list str) (d : D) : Map ResolutionResult * D :=
  let uniqueNames :=
    unique (filter (fun n => nonempty n
                             && negb (str_eqb n (lit "Unassigned"))) names) in
  resolve_loop uniqueNames [] d.
End Resolve.

End IdentityService.

(** ** The Azure DevOps service: delivery *)

Module DevOpsService.
Import JS Model.

(** [config.azureDevOps], the part the delivery code reads. *)
Record AzureDevOpsConfig : Type := {
  orgUrl : str;
  project : str;
  defaultWorkItemType : str;
  defaultAreaPath : str;
  defaultIterationPath : str;
  triageUser : str
}.

(** [priorityMap] of the configuration module. *)
Definition priorityMap : list (str * Z) :=
  [(lit "Critical", 1); (lit "High", 1); (lit "Medium", 2);
   (lit "Normal", 2); (lit "Low", 3); (lit "Lowest", 4)]%Z.

Fixpoint priorityMap_at (table : list (str * Z)) (k : str) : option Z :=
  match table with
  | [] => None
  | (k', n) :: rest => if str_eqb k k' then Some n else priorityMap_at rest k
  end.

(** The string a [priority] value is at run time. *)
Definition priority_name (p : Priority) : str :=
  match p with
  | High => lit "High"
  | Medium => lit "Medium"
  | Low => lit "Low"
  end.

Inductive patch_value : Type :=
| PStr (s : str)
| PNum (n : Z).

(** [interface PatchOperation]; [from] is never set. *)
Record PatchOperation : Type := {
  op : str;
  path : str;
  value : patch_value
}.

Definition add (path : string) (value : patch_value) : PatchOperation :=
  {| op := lit "add"; path := lit path; value := value |}.

(** [text.replace(/c/g, replacement)] for a single character [c]. *)
Definition replace_char (c : ascii) (replacement : string) (text : str) : str :=
  flat_map (fun x => if Ascii.eqb x c then lit replacement else [x]) text.

Definition double_quote : ascii := ascii_of_nat 34.

Definition escapeHtml (text : str) : str :=
  replace_char "'"%char "&#039;"
    (replace_char double_quote "&quot;"
       (replace_char ">"%char "&gt;"
          (replace_char "<"%char "&lt;"
             (replace_char "&"%char "&amp;" text)))).

(** [if (s)] on an optional string: present and not empty. *)
Definition present (s : option str) : option str :=
  match s with
  | Some (c :: r) => Some (c :: r)
  | _ => None
  end.

Definition formatDescription (task : ActionItem) (correlationId : str) : str :=
  lit "<div><strong>🤖 Generated by ActionAgent AI</strong></div>"
  ++ lit "<hr/>"
  ++ match present (description task) with
     | Some d => lit "<p>" ++ escapeHtml d ++ lit "</p>"
     | None => []
     end
  ++ lit "<br/><table>"
  ++ lit "<tr><td><strong>Priority:</strong></td><td>"
     ++ priority_name (priority task) ++ lit "</td></tr>"
  ++ lit "<tr><td><strong>Original Assignee:</strong></td><td>"
     ++ escapeHtml (assignedTo task) ++ lit "</td></tr>"
  ++ match present (deadline task) with
     | Some d => lit "<tr><td><strong>Deadline:</strong></td><td>"
                 ++ escapeHtml d ++ lit "</td></tr>"
     | None => []
     end
  ++ lit "</table>"
  ++ lit "<br/><p><em>This work item was automatically created from a Teams meeting transcript.</em></p>"
  ++ lit "<p style=" ++ [double_quote] ++ lit "color: #888; font-size: 10px;"
     ++ [double_quote] ++ lit ">Correlation ID: " ++ correlationId ++ lit "</p>".

Section BuildPatchDocument.
Variable config : AzureDevOpsConfig.
(** [parseDeadline(deadline)?.toISOString()]: reads the clock, so it is
    taken as given. *)
Variable parseDeadline : str -> option str.

Definition buildPatchDocument (task : ActionItem) (assigneeIdentity : str)
    (correlationId : str) : list PatchOperation :=
  let patchDocument :=
    [ add "/fields/System.Title" (PStr (title task));
      add "/fields/System.Description"
        (PStr (formatDescription task correlationId));
      add "/fields/Microsoft.VSTS.Common.Priority"
        (PNum (match priorityMap_at priorityMap (priority_name (priority task)) with
               | Some 0%Z | None => 2%Z
               | Some n => n
               end));
      add "/fields/System.Tags" (PStr (lit "ActionAgent; AI-Generated")) ] in
  let patchDocument :=
    if nonempty assigneeIdentity
       && negb (str_eqb assigneeIdentity (lit "Unassigned"))
    then patchDocument ++ [add "/fields/System.AssignedTo" (PStr assigneeIdentity)]
    else if nonempty (triageUser config)
    then patchDocument ++ [add "/fields/System.AssignedTo" (PStr (triageUser config))]
    else patchDocument in
  let patchDocument :=
    if nonempty (defaultAreaPath config)
    then patchDocument ++ [add "/fields/System.AreaPath" (PStr (defaultAreaPath config))]
    else patchDocument in
  let patchDocument :=
    if nonempty (defaultIterationPath config)
    then patchDocument
         ++ [add "/fields/System.IterationPath" (PStr (defaultIterationPath config))]
    else patchDocument in
  match present (deadline task) with
  | Some d =>
      match parseDeadline d with
      | Some iso =>
          patchDocument
          ++ [add "/fields/Microsoft.VSTS.Scheduling.TargetDate" (PStr iso)]
      | None => patchDocument
      end
  | None => patchDocument
  end.
End BuildPatchDocument.

(** [ExtendedWorkItemResult] *)
Record ExtendedWorkItemResult : Type := {
  id : Z;
  url : str;
  r_title : str;
  r_type : str;
  assigneeResolution : option IdentityService.ResolutionResult;
  correlationId : str
}.

Definition MAX_CONCURRENT : nat := 5.
Definition DELAY_BETWEEN_BATCHES_MS : Z := 500.

Section CreateWorkItems.
(** [B] is the state of everything one creation talks to. *)
Variable B : Type.
(** [createWorkItem(task, resolveIdentities)] as a promise that settles:
    fulfilled with a record or rejected with an error. *)
Variable createWorkItem :
  ActionItem -> bool -> B -> completion ExtendedWorkItemResult * B.

(** The world of a batch creation: the collaborators' state, the tasks
    whose creation was started (oldest first), the pauses taken between
    batches, and the failures reported to telemetry. *)
Record World : Type := {
  backend : B;
  attempted : list ActionItem;
  pauses : list Z;
  reported : list (ActionItem * exn)
}.

(** [await Promise.allSettled(batch.map((task) => createWorkItem(task,
    resolveIdentities)))]: every creation of the batch is started, in list
    order, and each outcome is kept, whatever the others do.  A creation is
    taken as one step on the shared state. *)
Fixpoint settle_all (resolveIdentities : bool) (batch : list ActionItem)
    (w : World) : list (completion ExtendedWorkItemResult) * World :=
  match batch with
  | [] => ([], w)
  | task :: rest =>
      let (r, b') := createWorkItem task resolveIdentities (backend w) in
      let w1 := {| backend := b'; attempted := attempted w ++ [task];
                   pauses := pauses w; reported := reported w |} in
      let (rs, w2) := settle_all resolveIdentities rest w1 in
      (r :: rs, w2)
  end.

Definition report (task : ActionItem) (reason : exn) (w : World) : World :=
  {| backend := backend w; attempted := attempted w; pauses := pauses w;
     reported := reported w ++ [(task, reason)] |}.

Definition pause (w : World) : World :=
  {| backend := backend w; attempted := attempted w;
     pauses := pauses w ++ [DELAY_BETWEEN_BATCHES_MS];
     reported := reported w |}.

(** [for (let j = 0; j < batchResults.length; j++)]; the state is
    [(results, errors)] and the world. *)
Fixpoint collect (batch : list ActionItem)
    (batchResults : list (completion ExtendedWorkItemResult))
    (results : list ExtendedWorkItemResult) (errors : list (ActionItem * exn))
    (w : World)
  : list ExtendedWorkItemResult * list (ActionItem * exn) * World :=
  match batch, batchResults with
  | task :: batch', result :: batchResults' =>
      match result with
      | Return v => collect batch' batchResults' (results ++ [v]) errors w
      | Throw reason =>
          collect batch' batchResults' results (errors ++ [(task, reason)])
            (report task reason w)
      end
  | _, _ => (results, errors, w)
  end.

(** One batch: settle every creation, then sort the outcomes. *)
Definition run_batch (resolveIdentities : bool) (batch : list ActionItem)
    (results : list ExtendedWorkItemResult) (errors : list (ActionItem * exn))
    (w : World)
  : list ExtendedWorkItemResult * list (ActionItem * exn) * World :=
  let '(batchResults, w1) := settle_all resolveIdentities batch w in
  collect batch batchResults results errors w1.

(** The loop [for (let i = 0; i < tasks.length; i += MAX_CONCURRENT)];
    [pending] is [tasks.slice(i)]. *)
Equations? create_loop (resolveIdentities : bool) (pending : list ActionItem)
    (results : list ExtendedWorkItemResult) (errors : list (ActionItem * exn))
    (w : World)
  : list ExtendedWorkItemResult * list (ActionItem * exn) * World
  by wf (length pending) lt :=
  create_loop resolveIdentities [] results errors w := (results, errors, w);
  create_loop resolveIdentities (t :: rest) results errors w :=
    let batch := firstn MAX_CONCURRENT (t :: rest) in
    let '(results', errors', w2) :=
      run_batch resolveIdentities batch results errors w in
    let later := skipn MAX_CONCURRENT (t :: rest) in
    create_loop resolveIdentities later results' errors'
      (if nonempty later then pause w2 else w2).
Proof. subst later. destruct rest as [|? [|? [|? [|? ?]]]]; simpl; lia. Qed.

Definition createWorkItems (tasks : list ActionItem) (resolveIdentities : bool)
    (w : World) : list ExtendedWorkItemResult * World :=
  let '(results, errors, w') := create_loop resolveIdentities tasks [] [] w in
  (results, w').
End CreateWorkItems.

End DevOpsService.

(** ** Vocabulary of the specification

    Definitions that follow the words of the specification; the properties
    below compare them with the program. *)

Module Spec.
Import JS Model.

Definition one_of (s : str) (synonyms : list string) : bool :=
  existsb (fun w => str_eqb s (lit w)) synonyms.

(** Section 4.4: [bug]/[defect]/[fix] -> Bug; [user story]/[story]/[feature] ->
    UserStory; everything else -> Task.  The argument is the lower-cased
    field. *)
Definition type_of_synonym (lowered : str) : WorkItemType :=
  if one_of lowered ["bug"; "defect"; "fix"]%string then Bug
  else if one_of lowered ["user story"; "story"; "feature"]%string then UserStory
  else Task.

(** Section 4.4: [high]/[critical]/[urgent]/[1] -> High; [low]/[minor]/[3] -> Low;
    everything else -> Medium. *)
Definition priority_of_synonym (lowered : str) : Priority :=
  if one_of lowered ["high"; "critical"; "urgent"; "1"]%string then High
  else if one_of lowered ["low"; "minor"; "3"]%string then Low
  else Medium.

(** The item list of a validator outcome. *)
Definition items_of (r : completion OpenAIService.ParsedResponse)
  : completion (list OpenAIService.ParsedItem) :=
  bind r (fun response => Return (OpenAIService.actionItems response)).

(** A [type] or [priority] field the normalizers accept: a string, or
    absent. *)
Definition string_or_absent (v : value) : bool :=
  match v with
  | VUndefined | VNull | VStr _ => true
  | _ => false
  end.

(** An entry of a response whose [type] and [priority] are strings or
    absent, as the response schema asks. *)
Definition well_typed_entry (item : value) : bool :=
  match item with
  | VObj fields =>
      string_or_absent (lookup (lit "type") fields)
      && string_or_absent (lookup (lit "priority") fields)
  | _ => true
  end.

(** Section 4.4, step 1: a bare array, an object with an [actionItems] array, or
    an object with a [tasks] array. *)
Definition accepted_shape (parsed : value) : bool :=
  isArray parsed
  || match parsed with
     | VObj fields =>
         isArray (lookup (lit "actionItems") fields)
         || isArray (lookup (lit "tasks") fields)
     | _ => false
     end.

(** The structured error of section 4.4, step 4, around its cause. *)
Definition parse_failure (context : ErrorHandling.CorrelationContext)
    (cause : exn) : exn :=
  ErrorHandling.ActionAgentError (lit "Failed to parse AI response as JSON")
    context None None (Some cause).

(** Keys in the order they are first seen: every key once, at the place of
    its first occurrence. *)
Fixpoint first_seen (keys : list str) : list str :=
  match keys with
  | [] => []
  | k :: rest => k :: filter (fun k' => negb (str_eqb k' k)) (first_seen rest)
  end.

(** The operations of a patch document that set [System.AssignedTo]. *)
Definition assigned_to (doc : list DevOpsService.PatchOperation)
  : list DevOpsService.PatchOperation :=
  filter (fun o => str_eqb (DevOpsService.path o) (lit "/fields/System.AssignedTo"))
         doc.

(** The characters of a text other than whitespace, in order. *)
Definition strip_whitespace (s : str) : str :=
  filter (fun c => negb (isWhitespace c)) s.

(** Pieces of a text between whitespace characters. *)
Fixpoint split_whitespace (s : str) : list str :=
  match s with
  | [] => [[]]
  | c :: r =>
      if isWhitespace c then [] :: split_whitespace r
      else cons_to_head c (split_whitespace r)
  end.

(** The whitespace-free tokens of a text. *)
Definition whitespace_free_tokens (s : str) : list str :=
  filter nonempty (split_whitespace s).

(** The space-delimited words of a text: they hold no space character, but
    may hold other whitespace (a tab, a line break). *)
Definition space_delimited_words (s : str) : list str :=
  split_char " "%char s.

(** Normalized text that no rule of the Caption Normalizer applies to: it
    is not the format header, not a note, holds no timing arrow, is not a
    cue index and holds no speaker tag. *)
Definition plain_text (t : str) : bool :=
  negb (str_eqb t (lit "WEBVTT"))
  && negb (startsWith t (lit "NOTE"))
  && negb (includes t (lit " --> "))
  && negb (all_digits t)
  && match GraphService.speaker_match t with
     | Some _ => false
     | None => true
     end.

(** Whitespace-collapsed text: every whitespace character is a space and no
    two of them are adjacent.  [in_run] tells whether the previous character
    is whitespace. *)
Fixpoint single_spaced (in_run : bool) (s : str) : bool :=
  match s with
  | [] => true
  | c :: r =>
      if isWhitespace c
      then negb in_run && Ascii.eqb c " "%char && single_spaced true r
      else single_spaced false r
  end.

Section Retry.
Variables (T S : Type).
Variable operation : S -> completion T * S.

(** The collaborator's state after [n] invocations of the operation. *)
Fixpoint state_after (n : nat) (s : S) : S :=
  match n with
  | O => s
  | Datatypes.S n' => state_after n' (snd (operation s))
  end.

(** The outcome of invocation number [k] (counted from 1). *)
Definition outcome_of_attempt (k : nat) (s : S) : completion T :=
  fst (operation (state_after (k - 1) s)).

(** The first [n] invocations all fail with a retryable error. *)
Fixpoint fails_retryably (n : nat) (s : S) : bool :=
  match n with
  | O => true
  | Datatypes.S n' =>
      match operation s with
      | (Throw e, s') =>
          ErrorHandling.isRetryableError e && fails_retryably n' s'
      | (Return _, _) => false
      end
  end.

(** The delays slept before attempts [attempt + 1], ..., [attempt + n], the
    first of them computed with draw number [draw] of [Math.random()]. *)
Fixpoint backoff_delays (cfg : ErrorHandling.RetryConfig) (random : nat -> Q)
    (attempt : Z) (draw : nat) (n : nat) : list Z :=
  match n with
  | O => []
  | Datatypes.S n' =>
      ErrorHandling.calculateBackoffDelay attempt cfg (random draw)
      :: backoff_delays cfg random (attempt + 1) (Datatypes.S draw) n'
  end.
End Retry.

(** "Modulo jitter": the delay slept after failed attempt number [attempt]
    lies in the band of half the jitter fraction around the capped
    exponential delay, rounded down to an integer. *)
Definition within_jitter (cfg : ErrorHandling.RetryConfig) (attempt : Z)
    (delay : Z) : Prop :=
  let capped := ErrorHandling.cappedDelay attempt cfg in
  let half_band := (capped * ErrorHandling.jitterFactor cfg * (1 # 2))%Q in
  (capped - half_band - 1 < inject_Z delay)%Q
  /\ (inject_Z delay <= capped + half_band)%Q.

Section Delivery.
Variable B : Type.
Variable createWorkItem :
  ActionItem -> bool -> B -> completion DevOpsService.ExtendedWorkItemResult * B.

(** The creations of a list of items, one after the other, with the outcome
    of each. *)
Fixpoint creations (resolveIdentities : bool) (tasks : list ActionItem) (b : B)
  : list (completion DevOpsService.ExtendedWorkItemResult) * B :=
  match tasks with
  | [] => ([], b)
  | task :: rest =>
      let (r, b1) := createWorkItem task resolveIdentities b in
      let (rs, b2) := creations resolveIdentities rest b1 in
      (r :: rs, b2)
  end.
End Delivery.

(** The records of the creations that succeeded, in order. *)
Fixpoint successes {R} (outcomes : list (completion R)) : list R :=
  match outcomes with
  | [] => []
  | Return v :: rest => v :: successes rest
  | Throw _ :: rest => successes rest
  end.

(** The items whose creation failed, each with its error, in order. *)
Fixpoint failures {R} (tasks : list ActionItem) (outcomes : list (completion R))
  : list (ActionItem * exn) :=
  match tasks, outcomes with
  | task :: tasks', Throw e :: rest => (task, e) :: failures tasks' rest
  | _ :: tasks', Return _ :: rest => failures tasks' rest
  | _, _ => []
  end.

End Spec.

(** ** Loop invariants and run summaries

    What the loops of the program maintain, and the worlds their runs end
    in; the proofs below are stated with them. *)

Module Invariants.
Import JS Model Spec.

(** What the loop of [deduplicateItems] maintains once it has consumed
    [seen_items]: distinct keys; every entry is an input item filed under its
    own key and no consumed item of that key has a longer description; every
    consumed item has its key in the map. *)
Record dedup_inv (seen_items : list ActionItem) (m : Map ActionItem) : Prop := {
  inv_nodup : NoDup (map_keys m);
  inv_entry : forall k v, In (k, v) m ->
      OpenAIService.dedup_key v = k /\ In v seen_items
      /\ forall y, In y seen_items -> OpenAIService.dedup_key y = k ->
                   OpenAIService.description_length y
                   <= OpenAIService.description_length v;
  inv_cover : forall y, In y seen_items ->
      In (OpenAIService.dedup_key y) (map_keys m)
}.

(** Entries are filed under the name they were resolved for. *)
Definition keyed_by_name (results : Map IdentityService.ResolutionResult) : Prop :=
  forall k r, In (k, r) results -> IdentityService.originalName r = k.

Section Retry.
Import ErrorHandling.
Variables (T S : Type).
Variable operation : S -> completion T * S.
Variable random : nat -> Q.
Variable cfg : RetryConfig.

(** The world after [n] failed attempts, each followed by its backoff. *)
Definition after_retries (attempt : Z) (n : nat) (w : World S) : World S :=
  {| backend := state_after operation n (backend w);
     invocations := invocations w + n;
     slept := slept w ++ backoff_delays cfg random attempt (draws w) n;
     draws := draws w + n |}.

(** The world after the wrapper has run [k] attempts: [k] invocations and
    the [k - 1] backoffs between them. *)
Definition after_attempts (k : nat) (w : World S) : World S :=
  {| backend := state_after operation k (backend w);
     invocations := invocations w + k;
     slept := slept w ++ backoff_delays cfg random 1 (draws w) (k - 1);
     draws := draws w + (k - 1) |}.

(** The terminal error raised for the last error [e] of the operation. *)
Definition terminal_error (context : CorrelationContext) (e : exn) : exn :=
  ActionAgentError (terminal_message (Some (as_Error e))) context (Some false)
    None (Some (as_Error e)).
End Retry.

(** The text seen so far by a packing loop of the Chunker: the chunks
    already pushed and the chunk being filled, whitespace apart. *)
Definition packed (st : list str * str) : str :=
  strip_whitespace (concat (fst st) ++ snd st).

(** The chunk being filled is empty, or ends with the appended space and is
    within the threshold without it. *)
Definition fits (n : nat) (cur : str) : Prop :=
  cur = [] \/ exists body, cur = body ++ lit " " /\ length body <= n.

(** Every chunk (or word) is within the threshold. *)
Definition bounded (n : nat) (chunks : list str) : Prop :=
  Forall (fun chunk => length chunk <= n) chunks.

End Invariants.

(** ** Test doubles *)

Module Stubs.
Import JS Model.

(** A [JSON.parse] that knows the given documents and rejects every other
    text. *)
Definition parse_known (documents : list (str * value)) (content : str)
  : completion value :=
  match find (fun d => str_eqb content (fst d)) documents with
  | Some d => Return (snd d)
  | None => Throw (JsError (lit "SyntaxError") (lit "Unexpected token"))
  end.

Definition quoted (s : string) : str :=
  DevOpsService.double_quote :: lit s ++ [DevOpsService.double_quote].

(** The record of end-to-end scenario A. *)
Definition login_bug : value :=
  VObj [(lit "title", VStr (lit "Fix login timeout bug"));
        (lit "assignedTo", VStr (lit "Sam"));
        (lit "type", VStr (lit "Bug"));
        (lit "priority", VStr (lit "High"));
        (lit "deadline", VStr (lit "tomorrow"))].

Definition login_bug_text : str :=
  lit "{" ++ quoted "title" ++ lit ":" ++ quoted "Fix login timeout bug"
  ++ lit "," ++ quoted "assignedTo" ++ lit ":" ++ quoted "Sam"
  ++ lit "," ++ quoted "type" ++ lit ":" ++ quoted "Bug"
  ++ lit "," ++ quoted "priority" ++ lit ":" ++ quoted "High"
  ++ lit "," ++ quoted "deadline" ++ lit ":" ++ quoted "tomorrow" ++ lit "}".

Definition bare_text : str := lit "[" ++ login_bug_text ++ lit "]".
Definition wrapped_text : str :=
  lit "{" ++ quoted "actionItems" ++ lit ":[" ++ login_bug_text ++ lit "]}".
Definition aliased_text : str :=
  lit "{" ++ quoted "tasks" ++ lit ":[" ++ login_bug_text ++ lit "]}".

Definition documents : list (str * value) :=
  [(bare_text, VArr [login_bug]);
   (wrapped_text, VObj [(lit "actionItems", VArr [login_bug])]);
   (aliased_text, VObj [(lit "tasks", VArr [login_bug])]);
   (lit "null", VNull)].

Definition context : ErrorHandling.CorrelationContext :=
  {| ErrorHandling.correlationId := lit "c0ffee";
     ErrorHandling.operationName := lit "AI.ExtractActionItems";
     ErrorHandling.startTime := 0 |}.

Definition devops_config : DevOpsService.AzureDevOpsConfig :=
  {| DevOpsService.orgUrl := lit "https://dev.azure.com/contoso";
     DevOpsService.project := lit "Engineering";
     DevOpsService.defaultWorkItemType := lit "Task";
     DevOpsService.defaultAreaPath := [];
     DevOpsService.defaultIterationPath := [];
     DevOpsService.triageUser := lit "triage@contoso.com" |}.

Definition login_terse : ActionItem :=
  {| title := lit "Fix login bug";
     assignedTo := lit "Sam";
     type := Bug;
     priority := High;
     description := None;
     deadline := None |}.

Definition login_detailed : ActionItem :=
  {| title := lit "fix LOGIN bug!";
     assignedTo := lit "Sam";
     type := Bug;
     priority := High;
     description := Some (lit "Users time out when logging in at peak hours");
     deadline := Some (lit "tomorrow") |}.

(** A directory that answers a query with the users whose display name is
    exactly the queried name; it has no state. *)
Definition directory (users : list IdentityService.ResolvedUser) (name : str)
    (d : unit) : completion (list IdentityService.ResolvedUser) * unit :=
  (Return (filter (fun u => str_eqb (IdentityService.displayName u) name) users),
   d).

Definition staff : list IdentityService.ResolvedUser :=
  [{| IdentityService.displayName := lit "Alice";
      IdentityService.userPrincipalName := lit "alice@contoso.com";
      IdentityService.mail := Some (lit "alice@contoso.com");
      IdentityService.id := lit "u-1";
      IdentityService.confidence := IdentityService.high |}].

Definition unowned_task : ActionItem :=
  {| title := lit "Update the deployment runbook";
     assignedTo := lit "Unassigned";
     type := Task;
     priority := Medium;
     description := None;
     deadline := None |}.

(** A ticketing backend that numbers the creations it is asked for and
    rejects the one numbered [failing]; its state is the number of creations
    so far. *)
Definition ticketing (failing : nat) (task : ActionItem)
    (resolveIdentities : bool) (count : nat)
  : completion DevOpsService.ExtendedWorkItemResult * nat :=
  let number := S count in
  if number =? failing
  then (Throw (JsError (lit "Error") (lit "Bad request: status 400")), number)
  else (Return {| DevOpsService.id := Z.of_nat number;
                  DevOpsService.url := lit "https://dev.azure.com/contoso/Engineering/_workitems/edit";
                  DevOpsService.r_title := title task;
                  DevOpsService.r_type := lit "Task";
                  DevOpsService.assigneeResolution := None;
                  DevOpsService.correlationId := lit "c0ffee" |}, number).

Definition fresh_world : DevOpsService.World nat :=
  {| DevOpsService.backend := 0;
     DevOpsService.attempted := [];
     DevOpsService.pauses := [];
     DevOpsService.reported := [] |}.

(** An extraction backend that fails with a 503 on its first [failures]
    invocations and answers afterwards; its state is the number of
    invocations so far. *)
Definition flaky (failures : nat) (count : nat) : completion str * nat :=
  if count <? failures
  then (Throw (JsError (lit "Error") (lit "Request failed with status 503")),
        S count)
  else (Return (lit "{}"), S count).

(** A backend that always rejects the request as malformed. *)
Definition rejecting (count : nat) : completion str * nat :=
  (Throw (JsError (lit "Error") (lit "Request failed with status 400")), S count).

Definition features : ErrorHandling.Features :=
  {| ErrorHandling.enableRetries := true;
     ErrorHandling.maxRetries := 3;
     ErrorHandling.retryDelayMs := 1000 |}.

(** [Math.random()] returning one half every time: no jitter. *)
Definition no_jitter (draw : nat) : Q := (1 # 2)%Q.

Definition idle : ErrorHandling.World nat :=
  {| ErrorHandling.backend := 0;
     ErrorHandling.invocations := 0;
     ErrorHandling.slept := [];
     ErrorHandling.draws := 0 |}.

(** Three short words, the first two on two lines of one sentence. *)
Definition two_lines : str :=
  lit "aaa" ++ [GraphService.newline] ++ lit "bbb ccc".

Definition remarks : str :=
  lit "Hello world. This is a test! Another one? Yes.".

(** A caption document: header, a note, cue indices, timing lines and
    speaker-tagged text. *)
Definition captions : str :=
  join [GraphService.newline]
    (map lit ["WEBVTT"; "";
              "NOTE recorded by the meeting service"; "";
              "1";
              "00:00:00.000 --> 00:00:03.000";
              "<v Sam>I will fix the login timeout bug by tomorrow.</v>"; "";
              "2";
              "00:00:03.000 --> 00:00:05.000";
              "<v Jess>Sounds good, thanks.</v>"]%string).

End Stubs.

(** ** utils/errorHandling.ts, continued: the error-handling wrapper *)

Module ErrorWrapper.
Import JS ErrorHandling.

(** The [options] argument of [withErrorHandling]. *)
Record Options : Type := {
  enableRetry : option bool;
  retryConfig : option PartialRetryConfig
}.

Definition no_options : Options :=
  {| enableRetry := None; retryConfig := None |}.

(** [error instanceof Error ? error.message : String(error)] *)
Definition message_or_rendering (error : exn) : str := error_message error.

(** [error instanceof Error ? error : undefined] *)
Definition cause_of (error : exn) : option exn :=
  match error with
  | ThrownValue _ => None
  | _ => Some error
  end.

Section WithErrorHandling.
Variables (T S : Type).
Variable features : Features.
Variable operation : S -> completion T * S.
Variable random : nat -> Q.

(** [withErrorHandling]; the completion lines it prints are left out, as the
    lines [withRetry] prints are. *)
Definition withErrorHandling (context : CorrelationContext) (options : Options)
    (w : World S) : completion T * World S :=
  let (r, w') :=
    if or_else (enableRetry options) false
    then withRetry features operation random context
           (or_else (retryConfig options) no_overrides) w
    else invoke operation w in
  match r with
  | Return result => (Return result, w')
  | Throw error =>
      match error with
      | AgentError _ _ _ _ _ _ => (Throw error, w')
      | _ =>
          (Throw (ActionAgentError (message_or_rendering error) context
                    None None (cause_of error)), w')
      end
  end.
End WithErrorHandling.

End ErrorWrapper.

Module ErrorSpec.
Import JS ErrorHandling.

(** An error that is an [ActionAgentError]. *)
Definition is_agent_error (e : exn) : bool :=
  match e with
  | AgentError _ _ _ _ _ _ => true
  | _ => false
  end.

(** The error a completion ends with, if it throws. *)
Definition thrown {A} (c : completion A) : option exn :=
  match c with
  | Throw e => Some e
  | Return _ => None
  end.

End ErrorSpec.

Module ErrorStubs.
Import JS ErrorHandling.

(** An operation that fails the way a wrapped inner call does: with an
    [ActionAgentError] of that call's own correlation context. *)
Definition inner_failure : exn :=
  AgentError (lit "Request failed with status 404") (lit "1nner")
    (lit "Graph.ListMeetings") false None None.

Definition failing_inner (count : nat) : completion str * nat :=
  (Throw inner_failure, S count).

(** A world whose collaborator is itself a world of [withRetry]. *)
Definition outer_idle : World (World nat) :=
  {| backend := Stubs.idle; invocations := 0; slept := []; draws := 0 |}.

End ErrorStubs.

(* ===================================================================== *)
(** ** Summary consolidation ([src/unnamed/part_003], continued) *)

Module Consolidation.
Import JS.

Section Summaries.
(** State of the chat-completion service. *)
Variable S : Type.

(** The consolidation request, [client.chat.completions.create], followed by
    the read of [result.choices[0]?.message?.content]: the content ([None]
    when it is [null] or missing), or what the request or the read throws.
    The argument is the user message. *)
Variable create_completion : str -> S -> completion (option str) * S.

(** [generateConsolidatedSummary], on the summaries of the chunks, strings as
    declared.  [None] is [undefined], which [summaries[0]] is on an empty
    array. *)
Definition generateConsolidatedSummary (summaries : list str) (s : S)
  : option str * S :=
  match summaries with
  | [only] => (Some only, s)
  | _ =>
      let (result, s') :=
        create_completion
          (join [GraphService.newline; GraphService.newline] summaries) s in
      match result with
      | Return (Some (c :: content)) => (Some (c :: content), s')
      | Return _ => (hd_error summaries, s')
      | Throw _ => (Some (join (lit " ") summaries), s')
      end
  end.
End Summaries.

End Consolidation.

Module ResponseContract.
Import JS OpenAIService.

(** A title ready for the work-item tracker: at most 255 characters, every
    whitespace character a space, and no two spaces in a row. *)
Definition tracker_title (t : str) : Prop :=
  length t <= 255 /\ Spec.single_spaced false t = true.

(** The text starts with a character that is not whitespace. *)
Definition starts_with_text (t : str) : Prop :=
  match t with
  | c :: _ => isWhitespace c = false
  | [] => False
  end.

(** What the rest of the pipeline relies on for an item of a validated
    response. *)
Record valid_item (item : ParsedItem) : Prop := {
  title_fits : tracker_title (p_title item);
  title_present : starts_with_text (p_title item);
  assignee_present : truthy (p_assignedTo item) = true;
  description_defined :
    p_description item <> VUndefined /\ p_description item <> VNull;
  deadline_absent_or_truthy :
    p_deadline item = VUndefined \/ truthy (p_deadline item) = true
}.

End ResponseContract.

Module ChunkSpec.
Import JS.

(** The sentences as the Chunker appends them to a chunk: each followed by
    one space. *)
Definition respaced (sentences : list str) : str :=
  flat_map (fun sentence => sentence ++ lit " ") sentences.

(** No whitespace at its start or end. *)
Definition trimmed (chunk : str) : Prop := trim chunk = chunk.

(** No whitespace at all: a single token. *)
Definition one_token (text : str) : bool :=
  forallb (fun c => negb (isWhitespace c)) text.

End ChunkSpec.

Module ContractStubs.
Import JS.

(** A title of 300 characters with two line breaks near the start. *)
Definition long_title : str :=
  lit "  Investigate" ++ [ascii_of_nat 13; ascii_of_nat 10]
  ++ lit "the  crash " ++ repeat "x"%char 280.

(** An entry whose optional fields are missing or falsy. *)
Definition sparse_entry : value :=
  VObj [(lit "title", VStr long_title);
        (lit "assignedTo", VStr []);
        (lit "description", VNull);
        (lit "deadline", VNum 0)].

Definition sparse_documents : list (str * value) :=
  [(lit "[sparse]", VArr [VNull; sparse_entry; VObj [(lit "title", VStr (lit "  "))]])].

(** A consolidation service that always fails. *)
Definition unavailable (request : str) (calls : nat)
  : completion (option str) * nat :=
  (Throw (JsError (lit "Error") (lit "Request failed with status 503")), S calls).

End ContractStubs.

(* ===================================================================== *)
(** ** Deadlines ([src/unnamed/part_002], continued) *)

Module Deadlines.
Import JS.

(** A [Date], as the local wall-clock time in milliseconds since local
    midnight of 1 January 1970, in a time zone whose offset from UTC does
    not change; the dates stay within the range a [Date] can hold. *)
Definition Date : Type := Z.

Definition MS_PER_DAY : Z := 86400000.

(** The local calendar day, counted from 1 January 1970. *)
Definition local_day (d : Date) : Z := (d / MS_PER_DAY)%Z.

Definition time_of_day (d : Date) : Z := (d mod MS_PER_DAY)%Z.

(** [d.getDay()]: 0 is Sunday; 1 January 1970 was a Thursday. *)
Definition getDay (d : Date) : Z := ((local_day d + 4) mod 7)%Z.

(** [d.setHours(h, m, s, ms)] *)
Definition setHours (h m s ms : Z) (d : Date) : Date :=
  (local_day d * MS_PER_DAY + ((h * 60 + m) * 60 + s) * 1000 + ms)%Z.

(** [d.setDate(d.getDate() + n)] *)
Definition addDays (n : Z) (d : Date) : Date := (d + n * MS_PER_DAY)%Z.

Section ParseDeadline.
(** [new Date(deadline)]: [None] when the date is invalid. *)
Variable Date_parse : str -> option Date.

(** [parseDeadline]; [now] is the clock read by [new Date()]. *)
Definition parseDeadline (now : Date) (deadline : str) : option Date :=
  let lower := toLowerCase deadline in
  if includes lower (lit "eod") || includes lower (lit "end of day")
     || includes lower (lit "today")
  then Some (setHours 23 59 59 999 now)
  else if includes lower (lit "tomorrow")
  then Some (setHours 17 0 0 0 (addDays 1 now))
  else if includes lower (lit "next week")
  then Some (addDays 7 now)
  else if includes lower (lit "end of sprint") || includes lower (lit "sprint end")
  then
    let daysUntilFriday :=
      let r := ((5 - getDay now + 7) mod 7)%Z in
      if (r =? 0)%Z then 7%Z else r in
    Some (addDays daysUntilFriday now)
  else Date_parse deadline.
End ParseDeadline.

End Deadlines.

Module DeliverySpec.
Import JS Model DevOpsService.

(** The characters that open or close markup or an attribute value. *)
Definition markup (c : ascii) : bool :=
  Ascii.eqb c "<"%char || Ascii.eqb c ">"%char
  || Ascii.eqb c double_quote || Ascii.eqb c "'"%char.

(** The entity that stands for a character, or the character itself. *)
Definition escape_char (c : ascii) : str :=
  if Ascii.eqb c "&"%char then lit "&amp;"
  else if Ascii.eqb c "<"%char then lit "&lt;"
  else if Ascii.eqb c ">"%char then lit "&gt;"
  else if Ascii.eqb c double_quote then lit "&quot;"
  else if Ascii.eqb c "'"%char then lit "&#039;"
  else [c].

(** Priority ordinals of the tracker: 1 is the most urgent. *)
Definition priority_ordinal (p : Priority) : Z :=
  match p with
  | High => 1
  | Medium => 2
  | Low => 3
  end.

Fixpoint distinct (l : list str) : bool :=
  match l with
  | [] => true
  | x :: r => negb (existsb (str_eqb x) r) && distinct r
  end.

(** A deadline phrase that is relative to the day it is read on. *)
Definition relative_deadline (deadline : str) : bool :=
  let lower := toLowerCase deadline in
  includes lower (lit "eod") || includes lower (lit "end of day")
  || includes lower (lit "today") || includes lower (lit "tomorrow")
  || includes lower (lit "next week") || includes lower (lit "end of sprint")
  || includes lower (lit "sprint end").

(** A phrase that names the end of the sprint and nothing nearer. *)
Definition sprint_deadline (deadline : str) : bool :=
  let lower := toLowerCase deadline in
  negb (includes lower (lit "eod") || includes lower (lit "end of day")
        || includes lower (lit "today") || includes lower (lit "tomorrow")
        || includes lower (lit "next week"))
  && (includes lower (lit "end of sprint") || includes lower (lit "sprint end")).

End DeliverySpec.

Module DeliveryStubs.
Import JS Model.

(** A parser of absolute dates that knows none. *)
Definition no_dates (text : str) : option Deadlines.Date := None.

(** Wednesday 4 November 2026, 09:30 local time. *)
Definition wednesday_morning : Deadlines.Date :=
  (20761 * 86400000 + (9 * 60 + 30) * 60000)%Z.

(** Friday 6 November 2026, 16:00 local time. *)
Definition friday_afternoon : Deadlines.Date :=
  (20763 * 86400000 + 16 * 3600000)%Z.

Definition task_number (n : nat) : ActionItem :=
  {| title := lit "Task " ++ repeat "i"%char n;
     assignedTo := lit "Sam";
     type := Task;
     priority := Medium;
     description := None;
     deadline := None |}.

End DeliveryStubs.

(* ===================================================================== *)
(** ** Directory search and its cache ([src/src/cards/summaryCard.ts],
       identity service, continued) *)

Module UserSearch.
Import JS IdentityService.

(** A user as the directory returns it. *)
Record DirectoryUser : Type := {
  d_displayName : str;
  d_userPrincipalName : str;
  d_mail : option str;
  d_id : str
}.

(** The callback of [result.value.map]. *)
Definition with_confidence (c : Confidence) (u : DirectoryUser) : ResolvedUser :=
  {| displayName := d_displayName u;
     userPrincipalName := d_userPrincipalName u;
     mail := d_mail u;
     id := d_id u;
     confidence := c |}.

Definition CACHE_TTL_MS : Z := 300000.

(** [map.delete(k)] *)
Definition map_delete {V} (k : str) (m : Map V) : Map V :=
  filter (fun entry => negb (str_eqb (fst entry) k)) m.

(** [value.replace(/'/g, "''")] *)
Definition escapeODataValue (value : str) : str :=
  DevOpsService.replace_char "'"%char "''" value.

Section Search.
(** State of the directory service, which also holds the clock. *)
Variable G : Type.
(** [Date.now()] *)
Variable Date_now : G -> Z.
(** [graphClient.api("/users").filter(expr).select(...).top(5).get()],
    followed by the read of [result.value]: the users, or what the request
    or the read throws. *)
Variable filter_users : str -> G -> completion (list DirectoryUser) * G.
(** The same for [.header("ConsistencyLevel", "eventual").search(expr)]. *)
Variable search_users : str -> G -> completion (list DirectoryUser) * G.

(** The module state: [userCache] and [cacheTimestamps], and the directory
    behind [graphClient]. *)
Record State : Type := {
  graph : G;
  userCache : Map (list ResolvedUser);
  cacheTimestamps : Map Z
}.

(** Body of the loop of [cleanCache]. *)
Definition expire (now : Z) (st : State) (entry : str * Z) : State :=
  let (key, timestamp) := entry in
  if (CACHE_TTL_MS <? now - timestamp)%Z
  then {| graph := graph st;
          userCache := map_delete key (userCache st);
          cacheTimestamps := map_delete key (cacheTimestamps st) |}
  else st.

(** [cleanCache]: the loop visits the entries the map had on entry, since
    it only ever deletes the entry it is at. *)
Definition cleanCache (st : State) : State :=
  let now := Date_now (graph st) in
  fold_left (expire now) (cacheTimestamps st) st.

Definition set_graph (g : G) (st : State) : State :=
  {| graph := g; userCache := userCache st;
     cacheTimestamps := cacheTimestamps st |}.

(** "Cache results" *)
Definition store (cacheKey : str) (users : list ResolvedUser) (st : State)
  : State :=
  {| graph := graph st;
     userCache := map_set cacheKey users (userCache st);
     cacheTimestamps :=
       map_set cacheKey (Date_now (graph st)) (cacheTimestamps st) |}.

(** [searchUsersByName]; it never rejects. *)
Definition searchUsersByName (name : str) (st : State)
  : list ResolvedUser * State :=
  let cacheKey := toLowerCase name in
  let st := cleanCache st in
  match map_get cacheKey (userCache st) with
  | Some users => (users, st)
  | None =>
      let (exactResult, g1) :=
        filter_users
          (lit "displayName eq '" ++ escapeODataValue name ++ lit "'")
          (graph st) in
      match exactResult with
      | Throw _ => ([], set_graph g1 st)
      | Return value =>
          let users := map (with_confidence high) value in
          let (outcome, g2) :=
            if nonempty users then (Return users, g1)
            else
              let (partialResult, g2) :=
                filter_users
                  (lit "startswith(displayName, '" ++ escapeODataValue name
                   ++ lit "')")
                  g1 in
              (bind partialResult (fun value =>
                 Return (map (with_confidence medium) value)), g2) in
          match outcome with
          | Throw _ => ([], set_graph g2 st)
          | Return users =>
              let (users, g3) :=
                if nonempty users then (users, g2)
                else
                  let (searchResult, g3) :=
                    search_users
                      ([DevOpsService.double_quote] ++ lit "displayName:"
                       ++ escapeODataValue name ++ [DevOpsService.double_quote])
                      g2 in
                  match searchResult with
                  | Return value => (map (with_confidence low) value, g3)
                  | Throw _ => (users, g3)
                  end in
              (users, store cacheKey users (set_graph g3 st))
          end
      end
  end.
End Search.

(** [getDevOpsIdentity] *)
Definition getDevOpsIdentity (resolution : ResolutionResult) : str :=
  match resolved resolution, user resolution with
  | true, Some u => userPrincipalName u
  | _, _ => originalName resolution
  end.

End UserSearch.

Module SearchSpec.
Import JS UserSearch.

(** Some entry filed under the key is older than the time to live. *)
Definition stale_key (now : Z) (timestamps : Map Z) (k : str) : bool :=
  existsb (fun entry => str_eqb (fst entry) k
                        && (CACHE_TTL_MS <? now - snd entry)%Z)
          timestamps.

(** Every single quote is one of a pair: a string literal holding the text
    is not closed before its end. *)
Fixpoint quotes_paired (s : str) : bool :=
  match s with
  | [] => true
  | c :: r =>
      if Ascii.eqb c "'"%char then
        match r with
        | c' :: r' => Ascii.eqb c' "'"%char && quotes_paired r'
        | [] => false
        end
      else quotes_paired r
  end.

(** The text between doubled quotes read back. *)
Fixpoint unescapeODataValue (s : str) : str :=
  match s with
  | [] => []
  | c :: r =>
      if Ascii.eqb c "'"%char then
        match r with
        | _ :: r' => c :: unescapeODataValue r'
        | [] => [c]
        end
      else c :: unescapeODataValue r
  end.

End SearchSpec.

Module SearchStubs.
Import JS IdentityService UserSearch.

Definition alice : DirectoryUser :=
  {| d_displayName := lit "Alice Johnson";
     d_userPrincipalName := lit "alice@contoso.com";
     d_mail := Some (lit "alice@contoso.com");
     d_id := lit "u-1" |}.

(** A directory whose state is the clock; every request takes 40 ms.  It
    knows Alice by the start of her name only. *)
Definition clock (now : Z) : Z := now.

Definition filter_by_prefix (expr : str) (now : Z)
  : completion (list DirectoryUser) * Z :=
  (Return (if startsWith expr (lit "startswith(displayName, 'Alice")
           then [alice] else []),
   (now + 40)%Z).

Definition search_unavailable (expr : str) (now : Z)
  : completion (list DirectoryUser) * Z :=
  (Throw (JsError (lit "Error") (lit "Request failed with status 400")),
   (now + 40)%Z).

Definition empty_cache (now : Z) : State Z :=
  {| graph := now; userCache := []; cacheTimestamps := [] |}.

(** A cache that holds Alice since time 1000. *)
Definition warm_cache (now : Z) : State Z :=
  {| graph := now;
     userCache := [(lit "alice", [with_confidence medium alice])];
     cacheTimestamps := [(lit "alice", 1000%Z)] |}.

End SearchStubs.

(* ===================================================================== *)
(** ** Creation of one work item ([src/unnamed/part_002], continued) *)

Module WorkItemCreation.
Import JS Model IdentityService DevOpsService UserSearch ErrorWrapper.
Import ErrorHandling.

(** The work item the tracker answers with, as far as the code reads it:
    [id] and [_links?.html?.href]. *)
Record WorkItem : Type := {
  wi_id : option Z;
  wi_href : option str
}.

(** [`${n}`] for an integer below 10^21 in magnitude. *)
Definition String_of_int (n : Z) : str :=
  lit (NilZero.string_of_int (Z.to_int n)).

Section CreateWorkItem.
Variable config : AzureDevOpsConfig.
Variable features : Features.
Variable random : nat -> Q.
(** [parseDeadline(deadline)?.toISOString()], as [buildPatchDocument]
    takes it. *)
Variable parseDeadline : str -> option str.

(** State of everything a creation talks to: the directory and its cache,
    the tracker, the clock and the generator of identifiers. *)
Variable B : Type.
Variable uuidv4 : B -> str * B.
Variable Date_now : B -> Z.
(** [resolveUser(name)], as a promise that settles. *)
Variable resolveUser : str -> B -> completion ResolutionResult * B.
(** [connection.getWorkItemTrackingApi()] followed by
    [workItemTracking.createWorkItem(undefined, patchDocument, project,
    workItemType, false, false)]: the work item ([None] for [null]), or what
    either call throws. *)
Variable tracker_createWorkItem :
  list PatchOperation -> str -> str -> B -> completion (option WorkItem) * B.

(** [createCorrelationContext(operationName, metadata)]; the metadata is
    only logged. *)
Definition createCorrelationContext (operationName : str) (b : B)
  : CorrelationContext * B :=
  let (uuid, b1) := uuidv4 b in
  ({| ErrorHandling.correlationId := uuid;
      ErrorHandling.operationName := operationName;
      startTime := Date_now b1 |}, b1).

Definition mapWorkItemType (t : WorkItemType) : str :=
  match t with
  | Bug => lit "Bug"
  | UserStory => lit "User Story"
  | Task => defaultWorkItemType config
  end.

(** [new ActionAgentError("Failed to create work item - no ID returned",
    context)] *)
Definition no_id_returned (context : CorrelationContext) : exn :=
  ActionAgentError (lit "Failed to create work item - no ID returned") context
    None None None.

(** The operation [createWorkItem] hands to [withErrorHandling]: one
    attempt at creating the item.  Telemetry is left out. *)
Definition create_once (task : ActionItem) (resolveIdentities : bool)
    (context : CorrelationContext) (b : B)
  : completion ExtendedWorkItemResult * B :=
  let '(assigneeResolution, assigneeIdentity, b1) :=
    if resolveIdentities && nonempty (assignedTo task)
       && negb (str_eqb (assignedTo task) (lit "Unassigned"))
    then
      let (r, b1) := resolveUser (assignedTo task) b in
      match r with
      | Return resolution =>
          (Some resolution,
           if resolved resolution then getDevOpsIdentity resolution
           else assignedTo task,
           b1)
      | Throw _ => (None, assignedTo task, b1)
      end
    else (None, assignedTo task, b) in
  let patchDocument :=
    buildPatchDocument config parseDeadline task assigneeIdentity
      (ErrorHandling.correlationId context) in
  let workItemType := mapWorkItemType (type task) in
  let (r, b2) :=
    tracker_createWorkItem patchDocument (project config) workItemType b1 in
  match r with
  | Throw error => (Throw error, b2)
  | Return None => (Throw (no_id_returned context), b2)
  | Return (Some workItem) =>
      match wi_id workItem with
      | None => (Throw (no_id_returned context), b2)
      | Some n =>
          if (n =? 0)%Z then (Throw (no_id_returned context), b2)
          else
            (Return
               {| DevOpsService.id := n;
                  url := match wi_href workItem with
                         | Some (c :: href) => c :: href
                         | _ => orgUrl config ++ lit "/" ++ project config
                                ++ lit "/_workitems/edit/" ++ String_of_int n
                         end;
                  r_title := title task;
                  r_type := workItemType;
                  assigneeResolution := assigneeResolution;
                  DevOpsService.correlationId :=
                    ErrorHandling.correlationId context |},
             b2)
      end
  end.

(** [createWorkItem(task, resolveIdentities)] *)
Definition createWorkItem (task : ActionItem) (resolveIdentities : bool)
    (w : World B) : completion ExtendedWorkItemResult * World B :=
  let (context, b0) :=
    createCorrelationContext (lit "DevOps.CreateWorkItem") (backend w) in
  withErrorHandling features (create_once task resolveIdentities context)
    random context
    {| enableRetry := Some true; retryConfig := None |}
    {| backend := b0; invocations := invocations w;
       slept := slept w; draws := draws w |}.
End CreateWorkItem.

End WorkItemCreation.

Module CreationStubs.
Import JS Model IdentityService DevOpsService WorkItemCreation.

(** A backend that is a counter of the requests it has served. *)
Definition numbered_uuid (n : nat) : str * nat := (lit "c0ffee", n).

Definition midnight (n : nat) : Z := 0%Z.

Definition directory_down (name : str) (n : nat)
  : completion ResolutionResult * nat :=
  (Throw (JsError (lit "Error") (lit "timeout")), S n).

Definition directory_finds_sam (name : str) (n : nat)
  : completion ResolutionResult * nat :=
  (Return {| originalName := name; resolved := true;
             user := Some {| displayName := lit "Sam Lee";
                             userPrincipalName := lit "sam@contoso.com";
                             mail := None; IdentityService.id := lit "u-7";
                             confidence := high |};
             alternatives := None; error := None |}, S n).

(** A tracker that accepts every request but answers without an id. *)
Definition tracker_without_id (patch : list PatchOperation) (project type : str)
    (n : nat) : completion (option WorkItem) * nat :=
  (Return (Some {| wi_id := None; wi_href := None |}), S n).

End CreationStubs.

Module CaptionSpec.
Import JS GraphService.

(** A line the Caption Normalizer drops: blank, the format header, a note,
    a timing line or a cue number. *)
Definition metadata_line (line : str) : bool :=
  let trimmed := trim line in
  negb (nonempty trimmed) || str_eqb trimmed (lit "WEBVTT")
  || startsWith trimmed (lit "NOTE")
  || includes trimmed (lit " --> ")
  || all_digits trimmed.

(** The lines hold no line break, so joining them by line breaks gives a
    text with exactly these lines. *)
Definition one_line (line : str) : Prop := ~ In newline line.

End CaptionSpec.

Module CaptionStubs.
Import JS.

Definition cue : list str :=
  [lit "WEBVTT"; []; lit "12"; lit "00:00:01.000 --> 00:00:04.000";
   lit "<v Sam>I will fix the login timeout bug.</v>"].

End CaptionStubs.

(* ===================================================================== *)
(** ** Metrics store ([src/src/utils/telemetry.ts]) *)

Module Telemetry.
Import JS.

Inductive MetricUnit : Type := ms | count | bytes.

(** [interface Metric]; the timestamp is the clock reading of
    [new Date()]. *)
Record Metric : Type := {
  m_name : str;
  m_value : Q;
  m_unit : MetricUnit;
  m_tags : list (str * str);
  m_timestamp : Z
}.

Definition maxMetrics : nat := 1000.

(** [list.slice(-n)] for a positive [n]: the last [n] elements, or all of
    them. *)
Definition slice_last {A} (n : nat) (l : list A) : list A :=
  skipn (length l - n) l.

(** [trackMetric(name, value, unit, tags)] on the store [this.metrics];
    [now] is the clock. *)
Definition trackMetric (enableTelemetry : bool) (now : Z) (name : str)
    (value : Q) (unit : MetricUnit) (tags : list (str * str))
    (metrics : list Metric) : list Metric :=
  if negb enableTelemetry then metrics
  else
    let metric := {| m_name := name; m_value := value; m_unit := unit;
                     m_tags := tags; m_timestamp := now |} in
    let metrics := metrics ++ [metric] in
    if maxMetrics <? length metrics then slice_last maxMetrics metrics
    else metrics.

(** A run of [trackMetric] calls, one for each metric of the list, in
    order. *)
Definition track_all (enableTelemetry : bool) (recorded : list Metric)
    (metrics : list Metric) : list Metric :=
  fold_left (fun store m =>
               trackMetric enableTelemetry (m_timestamp m) (m_name m)
                 (m_value m) (m_unit m) (m_tags m) store)
            recorded metrics.

End Telemetry.

(* ===================================================================== *)
(** ** What the user is told about a failure ([src/src/teamsBot.ts],
       [src/src/services/graphService.ts]) *)

Module ErrorCard.
Import JS ErrorHandling.

(** [ActionAgentError.toUserMessage()] *)
Definition toUserMessage (correlationId : str) : str :=
  lit "Something went wrong. Reference ID: " ++ correlationId.

Definition getGraphErrorMessage (error : exn) : str :=
  match error with
  | AgentError _ correlationId _ _ _ _ => toUserMessage correlationId
  | _ =>
      let message :=
        match error with
        | JsError _ m => toLowerCase m
        | _ => []
        end in
      if includes message (lit "403") || includes message (lit "forbidden")
      then lit "Access denied. Please ensure the Application Access Policy is configured for this user."
      else if includes message (lit "404") || includes message (lit "not found")
      then lit "Meeting or transcript not found. Ensure transcription was enabled for the meeting."
      else if includes message (lit "401") || includes message (lit "unauthorized")
      then lit "Authentication failed. Please check the app registration configuration."
      else if includes message (lit "429") || includes message (lit "too many")
      then lit "Rate limit exceeded. Please try again in a moment."
      else lit "An error occurred accessing Microsoft Graph. Please try again."
  end.

(** The message and the suggestions [sendErrorCard] puts on the error
    card. *)
Definition sendErrorCard (error : exn) : str * list str :=
  match error with
  | AgentError _ correlationId _ _ _ _ => (toUserMessage correlationId, [])
  | JsError _ m =>
      (getGraphErrorMessage error,
       if includes m (lit "403") || includes m (lit "forbidden")
       then [lit "Ensure Application Access Policy is configured";
             lit "Contact your Teams admin to grant transcript access";
             lit "Run the PowerShell commands from the README"]
       else if includes m (lit "transcript")
       then [lit "Enable transcription before the meeting starts";
             lit "Wait a few minutes after the meeting ends";
             lit "Check if transcription is enabled in your organization"]
       else [])
  | ThrownValue _ => (lit "An unexpected error occurred. Please try again.", [])
  end.

End ErrorCard.

(* ===================================================================== *)
(** ** Extraction of action items ([src/unnamed/part_003], continued) *)

Module Extraction.
Import JS Model OpenAIService ErrorWrapper.
Import ErrorHandling.

Definition MAX_CHUNK_LENGTH : Z := 100000.

Section ExtractActionItems.
Variable features : Features.
Variable random : nat -> Q.
Variable JSON_parse : str -> completion value.

(** State of the chat-completion service, the clock and the generator of
    identifiers. *)
Variable S : Type.
Variable uuidv4 : S -> str * S.
Variable Date_now : S -> Z.
(** [client.chat.completions.create] with the extraction prompt, followed by
    the read of [result.choices[0]?.message?.content]; the argument is the
    user message. *)
Variable create_completion : str -> S -> completion (option str) * S.
(** [processLargeTranscript], the path of transcripts above the chunk
    length, taken as given. *)
Variable processLargeTranscript :
  str -> CorrelationContext -> S -> completion ParsedResponse * S.

(** [callOpenAI]; the timer and the counters are left out. *)
Definition callOpenAI (transcriptText : str) (s : S) : completion str * S :=
  let (result, s') :=
    create_completion
      (lit "Please analyze the following meeting transcript and extract all technical action items:"
       ++ [GraphService.newline; GraphService.newline] ++ transcriptText) s in
  match result with
  | Return (Some (c :: content)) => (Return (c :: content), s')
  | Return _ => (Return (lit "{}"), s')
  | Throw error => (Throw error, s')
  end.

(** The operation [extractActionItems] hands to [withErrorHandling]. *)
Definition extract_once (transcriptText : str) (context : CorrelationContext)
    (s : S) : completion ParsedResponse * S :=
  if (MAX_CHUNK_LENGTH <? Z.of_nat (length transcriptText))%Z
  then processLargeTranscript transcriptText context s
  else
    let (r, s') := callOpenAI transcriptText s in
    (bind r (fun result => parseAndValidateResponse JSON_parse result context),
     s').

Definition extractActionItems (transcriptText : str) (w : World S)
  : completion ParsedResponse * World S :=
  let (context, s0) :=
    WorkItemCreation.createCorrelationContext uuidv4 Date_now
      (lit "AI.ExtractActionItems") (backend w) in
  withErrorHandling features (extract_once transcriptText context) random
    context
    {| enableRetry := Some true; retryConfig := None |}
    {| backend := s0; invocations := invocations w;
       slept := slept w; draws := draws w |}.
End ExtractActionItems.

End Extraction.

Module ObservabilitySpec.
Import JS Telemetry.

(** A store within its capacity. *)
Definition within_capacity (metrics : list Metric) : Prop :=
  length metrics <= maxMetrics.

End ObservabilitySpec.

Module ObservabilityStubs.
Import JS Telemetry.

Definition tick (n : nat) : Metric :=
  {| m_name := lit "rate_limit.hit"; m_value := 1; m_unit := count;
     m_tags := []; m_timestamp := Z.of_nat n |}.

(** A chat-completion service that answers every request with the same
    text; its state counts the requests. *)
Definition answering (text : option str) (request : str) (calls : nat)
  : completion (option str) * nat :=
  (Return text, S calls).

Definition no_large_path (transcript : str)
    (context : ErrorHandling.CorrelationContext) (calls : nat)
  : completion OpenAIService.ParsedResponse * nat :=
  (Throw (JsError (lit "Error") (lit "unused")), calls).

Definition empty_object : list (str * value) := [(lit "{}", VObj [])].

End ObservabilityStubs.

(* ===================================================================== *)
(** ** Resolution against the directory ([src/src/cards/summaryCard.ts],
       identity service, continued) *)

Module DirectoryResolution.
Import JS IdentityService UserSearch.

Section Resolution.
Variable G : Type.
Variable Date_now : G -> Z.
Variables filter_users search_users :
  str -> G -> completion (list DirectoryUser) * G.

(** [searchUsersByName(name)] as the promise [resolveUser] awaits: it is
    always fulfilled. *)
Definition search_promise (name : str) (st : State G)
  : completion (list ResolvedUser) * State G :=
  let (users, st') :=
    searchUsersByName Date_now filter_users search_users name st in
  (Return users, st').

(** [resolveUser], on the directory search of this module. *)
Definition resolveUser (name : str) (st : State G)
  : ResolutionResult * State G :=
  IdentityService.resolveUser search_promise name st.
End Resolution.

End DirectoryResolution.

Module DescriptionSpec.
Import JS Model DevOpsService DeliverySpec.

(** The markup characters of a text, in order. *)
Definition markup_of (s : str) : str := filter markup s.

(** The same fields are filled in: the texts may differ. *)
Definition same_fields (a b : ActionItem) : Prop :=
  priority a = priority b
  /\ (present (description a) = None <-> present (description b) = None)
  /\ (present (deadline a) = None <-> present (deadline b) = None).

End DescriptionSpec.

Module ResolutionStubs.
Import JS Model.

Definition injected : ActionItem :=
  {| title := lit "Fix login";
     assignedTo := lit "<b>Sam</b>";
     type := Bug;
     priority := High;
     description := Some (lit "<script>alert('x')</script>");
     deadline := Some (lit "a > b") |}.

Definition harmless : ActionItem :=
  {| title := lit "Fix login";
     assignedTo := lit "Sam";
     type := Bug;
     priority := High;
     description := Some (lit "text");
     deadline := Some (lit "soon") |}.

(** A tracker that numbers the work items it creates. *)
Definition numbering_tracker (patch : list DevOpsService.PatchOperation)
    (project type : str) (n : nat)
  : completion (option WorkItemCreation.WorkItem) * nat :=
  (Return (Some {| WorkItemCreation.wi_id := Some (Z.of_nat (S n));
                   WorkItemCreation.wi_href := None |}), S n).

(** A tracker that is throttling. *)
Definition throttling_tracker (patch : list DevOpsService.PatchOperation)
    (project type : str) (n : nat)
  : completion (option WorkItemCreation.WorkItem) * nat :=
  (Throw (JsError (lit "Error") (lit "Too many requests")), S n).

Definition quiet_world : DevOpsService.World (ErrorHandling.World nat) :=
  {| DevOpsService.backend := Stubs.idle;
     DevOpsService.attempted := [];
     DevOpsService.pauses := [];
     DevOpsService.reported := [] |}.

End ResolutionStubs.

(* ===================================================================== *)
(** ** Large transcripts, part by part ([src/unnamed/part_003], continued) *)

Module LargeTranscripts.
Import JS Model OpenAIService Extraction.
Import ErrorHandling.

Section ProcessLargeTranscript.
Variable JSON_parse : str -> completion value.
Variable S : Type.
Variable create_completion : str -> S -> completion (option str) * S.
Variable context : CorrelationContext.

(** [`[Part ${i + 1} of ${chunks.length}]\n\n${chunks[i]}`] *)
Definition chunkPrompt (total i : nat) (chunk : str) : str :=
  lit "[Part " ++ WorkItemCreation.String_of_int (Z.of_nat (i + 1))
  ++ lit " of " ++ WorkItemCreation.String_of_int (Z.of_nat total) ++ lit "]"
  ++ [GraphService.newline; GraphService.newline] ++ chunk.

(** The loop [for (let i = 0; i < chunks.length; i++)] of
    [processLargeTranscript]; [pending] is [chunks.slice(i)] and the state is
    [(allItems, summaries)]. *)
Fixpoint process_chunks (total i : nat) (pending : list str)
    (allItems : list ParsedItem) (summaries : list value) (s : S)
  : completion (list ParsedItem * list value) * S :=
  match pending with
  | [] => (Return (allItems, summaries), s)
  | chunk :: rest =>
      let (result, s1) :=
        callOpenAI create_completion (chunkPrompt total i chunk) s in
      match bind result (fun content =>
              parseAndValidateResponse JSON_parse content context) with
      | Throw error => (Throw error, s1)
      | Return parsed =>
          process_chunks total (Datatypes.S i) rest
            (allItems ++ actionItems parsed)
            (if truthy (summary parsed) then summaries ++ [summary parsed]
             else summaries)
            s1
      end
  end.

(** [processLargeTranscript] up to the end of that loop: the items and the
    summaries of all parts. *)
Definition collect_parts (transcriptText : str) (s : S)
  : completion (list ParsedItem * list value) * S :=
  let chunks := splitIntoChunks transcriptText (Z.to_nat MAX_CHUNK_LENGTH) in
  process_chunks (length chunks) 0 chunks [] [] s.
End ProcessLargeTranscript.

End LargeTranscripts.

Module TranscriptSpec.
Import JS Model OpenAIService LargeTranscripts.

(** The user message [callOpenAI] sends for a text. *)
Definition extraction_request (text : str) : str :=
  lit "Please analyze the following meeting transcript and extract all technical action items:"
  ++ [GraphService.newline; GraphService.newline] ++ text.

(** The prompts of the parts from number [i] on, in order. *)
Fixpoint part_prompts (total i : nat) (chunks : list str) : list str :=
  match chunks with
  | [] => []
  | chunk :: rest =>
      chunkPrompt total i chunk :: part_prompts total (Datatypes.S i) rest
  end.

(** A chat-completion service with a record of the requests it got. *)
Definition recording (S : Type)
    (create_completion : str -> S -> completion (option str) * S)
    (request : str) (st : S * list str)
  : completion (option str) * (S * list str) :=
  let (r, s') := create_completion request (fst st) in
  (r, (s', snd st ++ [request])).

End TranscriptSpec.


(** ** Specification side of the chunker, the normalizers, the
    deduplicator and the resolver *)

Module DedupSpec.
Import JS Model.

(** A letter or a digit. *)
Definition alphanumeric (c : ascii) : bool :=
  isLower c || isUpper c || isDigit c.

(** Section 4.5: the title lower-cased, with all non-alphanumeric characters
    stripped. *)
Definition normalized_key (title : str) : str :=
  filter alphanumeric (toLowerCase title).

(** The description of an item as a text; an item without a description has
    the empty text. *)
Definition description_text (item : ActionItem) : str :=
  match description item with
  | Some d => d
  | None => []
  end.

(** [a] has a longer description than [b]. *)
Definition longer_description (a b : ActionItem) : bool :=
  length (description_text b) <? length (description_text a).

(** Of two items, the one with the longer description; the first of them
    when neither is longer. *)
Definition more_informative (a b : ActionItem) : ActionItem :=
  if longer_description b a then b else a.

(** An ASCII character that is neither a letter nor a digit: punctuation,
    a space, a control character. *)
Definition ascii_symbol (c : ascii) : bool :=
  (nat_of_ascii c <? 128) && negb (alphanumeric c).

(** A title of such characters only. *)
Definition symbols_only (item : ActionItem) : bool :=
  forallb ascii_symbol (title item).

End DedupSpec.

Module DedupStubs.
Import JS Model.

(** Two records of the same task, both described, one at more length. *)
Definition login_brief : ActionItem :=
  {| title := lit "Fix login bug";
     assignedTo := lit "Sam";
     type := Bug;
     priority := High;
     description := Some (lit "Login times out");
     deadline := None |}.

Definition login_at_length : ActionItem :=
  {| title := lit "fix LOGIN bug!";
     assignedTo := lit "Sam";
     type := Bug;
     priority := High;
     description := Some (lit "Users time out when logging in at peak hours");
     deadline := Some (lit "tomorrow") |}.

(** Records titled with punctuation only. *)
Definition untitled (marks : string) (d : option str) : ActionItem :=
  {| title := lit marks; assignedTo := lit "Sam"; type := Task;
     priority := Medium; description := d; deadline := None |}.

Definition placeholders : list ActionItem :=
  [untitled "???" None; untitled "- - -" (Some (lit "Ship it"));
   untitled "!!!" (Some (lit "Ask Sam"))].

End DedupStubs.

Module ChunkTokens.
Import JS Spec.

(** The tokens a packing state holds: those of the chunks made so far, then
    those of the chunk in the making. *)
Definition tokens_of (st : list str * str) : list str :=
  flat_map whitespace_free_tokens (fst st) ++ whitespace_free_tokens (snd st).

(** A chunk in the making is empty, or ends with the space put after its
    last piece. *)
Definition spaced (cur : str) : Prop :=
  cur = [] \/ exists body, cur = body ++ lit " ".

(** Two lists of pieces with the same first piece and, after it, the same
    non-empty pieces. *)
Definition agree (a b : list str) : Prop :=
  exists h ta tb, a = h :: ta /\ b = h :: tb
                  /\ filter nonempty ta = filter nonempty tb.

End ChunkTokens.

Module NormalizerSpec.
Import JS.

(** The records of a response of one of the three accepted shapes. *)
Definition records (parsed : value) : list value :=
  match parsed with
  | VArr items => items
  | VObj fields =>
      match lookup (lit "actionItems") fields with
      | VArr items => items
      | _ => match lookup (lit "tasks") fields with
             | VArr items => items
             | _ => []
             end
      end
  | _ => []
  end.

(** A TypeError, whatever its message. *)
Definition is_type_error (e : exn) : bool :=
  match e with
  | JsError name _ => str_eqb name (lit "TypeError")
  | _ => false
  end.

End NormalizerSpec.

Module NormalizerStubs.
Import JS.

(** A record whose priority is the number 1, not the text. *)
Definition numbered_priority : value :=
  VObj [(lit "title", VStr (lit "Rotate the signing keys"));
        (lit "type", VStr (lit "Task"));
        (lit "priority", VNum 1)].

Definition numbered_priority_text : str :=
  lit "[{" ++ Stubs.quoted "title" ++ lit ":" ++ Stubs.quoted "Rotate the signing keys"
  ++ lit "," ++ Stubs.quoted "type" ++ lit ":" ++ Stubs.quoted "Task"
  ++ lit "," ++ Stubs.quoted "priority" ++ lit ":1}," ++ Stubs.login_bug_text
  ++ lit "]".

Definition documents : list (str * value) :=
  [(numbered_priority_text, VArr [numbered_priority; Stubs.login_bug])].

End NormalizerStubs.

Module ResolutionSpec.
Import JS.

(** A name to look up: not empty, and not [unassigned] in any letter
    case. *)
Definition names_someone (name : str) : bool :=
  nonempty name && negb (str_eqb (toLowerCase name) (lit "unassigned")).

(** The filter expression of the exact-match request. *)
Definition exact_match (name : str) : str :=
  lit "displayName eq '" ++ UserSearch.escapeODataValue name ++ lit "'".

End ResolutionSpec.

Module DirectoryStubs.
Import JS UserSearch.

(** A directory that knows Alice and her namesake by the start of their
    names. *)
Definition alice_cooper : DirectoryUser :=
  {| d_displayName := lit "Alice Cooper";
     d_userPrincipalName := lit "acooper@contoso.com";
     d_mail := None;
     d_id := lit "u-2" |}.

Definition filter_two (expr : str) (now : Z)
  : completion (list DirectoryUser) * Z :=
  (Return (if startsWith expr (lit "startswith(displayName, 'Alice")
           then [SearchStubs.alice; alice_cooper] else []),
   (now + 40)%Z).

End DirectoryStubs.

(* ===================================================================== *)
(** * Part II: properties *)
(* ===================================================================== *)

(** ** Strings *)

Module StrFacts.
Import JS.

Lemma str_eqb_eq (a b : str) : str_eqb a b = true <-> a = b.
Proof.
  revert b; induction a as [|x a IH]; intros [|y b]; simpl; split;
    try congruence; try reflexivity.
  - intros H. apply andb_true_iff in H as [Hx Hab].
    apply Ascii.eqb_eq in Hx. apply IH in Hab. congruence.
  - intros H. injection H as -> ->. rewrite Ascii.eqb_refl.
    simpl. apply IH. reflexivity.
Qed.

Lemma str_eqb_refl (a : str) : str_eqb a a = true.
Proof. apply str_eqb_eq. reflexivity. Qed.

Lemma str_eqb_neq (a b : str) : str_eqb a b = false <-> a <> b.
Proof.
  split.
  - intros H E. apply str_eqb_eq in E. congruence.
  - intros H. destruct (str_eqb a b) eqn:E; [|reflexivity].
    apply str_eqb_eq in E. contradiction.
Qed.

Lemma str_eqb_sym (a b : str) : str_eqb a b = str_eqb b a.
Proof.
  destruct (str_eqb a b) eqn:E.
  - apply str_eqb_eq in E. subst. symmetry. apply str_eqb_refl.
  - symmetry. apply str_eqb_neq. apply str_eqb_neq in E. congruence.
Qed.

Lemma nonempty_true {A} (l : list A) : nonempty l = true <-> l <> [].
Proof. destruct l; simpl; split; congruence. Qed.

Lemma nonempty_false {A} (l : list A) : nonempty l = false <-> l = [].
Proof. destruct l; simpl; split; congruence. Qed.

End StrFacts.

(** ** Type and priority normalization *)

Module NormalizerFacts.
Import JS Model OpenAIService Spec StrFacts.

Lemma equals_one_of3 (l : str) (a b c : string) :
  equals (Some l) a || equals (Some l) b || equals (Some l) c
  = one_of l [a; b; c].
Proof.
  unfold equals, one_of. simpl.
  destruct (str_eqb l (lit a)), (str_eqb l (lit b)), (str_eqb l (lit c));
    reflexivity.
Qed.

Lemma equals_one_of4 (l : str) (a b c d : string) :
  equals (Some l) a || equals (Some l) b || equals (Some l) c || equals (Some l) d
  = one_of l [a; b; c; d].
Proof.
  unfold equals, one_of. simpl.
  destruct (str_eqb l (lit a)), (str_eqb l (lit b)), (str_eqb l (lit c)),
    (str_eqb l (lit d)); reflexivity.
Qed.

Lemma validateWorkItemType_string (s : str) :
  validateWorkItemType (VStr s) = Return (type_of_synonym (toLowerCase s)).
Proof.
  unfold validateWorkItemType, type_of_synonym.
  cbn [bind optional_toLowerCase].
  rewrite !equals_one_of3.
  destruct (one_of _ _); [reflexivity|].
  destruct (one_of _ _); reflexivity.
Qed.

Lemma validatePriority_string (s : str) :
  validatePriority (VStr s) = Return (priority_of_synonym (toLowerCase s)).
Proof.
  unfold validatePriority, priority_of_synonym.
  cbn [bind optional_toLowerCase].
  rewrite equals_one_of4, equals_one_of3.
  destruct (one_of _ _); [reflexivity|].
  destruct (one_of _ _); reflexivity.
Qed.

(** A JSON number in the [priority] field (as in
    [{"title": "x", "priority": 1}]) is not a string, [priority?.toLowerCase]
    is not a function on it, and the normalizer throws instead of returning
    an enum value. *)
Lemma validatePriority_number_is_not_normalized :
  ~ exists p : Priority, validatePriority (VNum 1) = Return p.
Proof. intros [p H]. discriminate H. Qed.

(** On every string and on an absent ([undefined] or [null]) field the
    normalizers return an enum value, the one the case-insensitive synonym
    table of the specification gives; the absent field gives Task and
    Medium. *)
Lemma normalizers_total_on_strings :
  (forall s : str,
      validateWorkItemType (VStr s) = Return (type_of_synonym (toLowerCase s))
      /\ validatePriority (VStr s) = Return (priority_of_synonym (toLowerCase s)))
  /\ validateWorkItemType VUndefined = Return Task
  /\ validateWorkItemType VNull = Return Task
  /\ validatePriority VUndefined = Return Medium
  /\ validatePriority VNull = Return Medium.
Proof.
  split; [|repeat split; reflexivity].
  intros s. split.
  - apply validateWorkItemType_string.
  - apply validatePriority_string.
Qed.

Example normalizer_samples :
  validateWorkItemType (VStr (lit "DEFECT")) = Return Bug
  /\ validateWorkItemType (VStr (lit "User Story")) = Return UserStory
  /\ validateWorkItemType (VStr (lit "chore")) = Return Task
  /\ validatePriority (VStr (lit "Urgent")) = Return High
  /\ validatePriority (VStr (lit "3")) = Return Low
  /\ validatePriority (VStr (lit "whenever")) = Return Medium.
Proof. repeat split; reflexivity. Qed.

End NormalizerFacts.

(** ** Response validator *)

Module ValidatorFacts.
Import JS ErrorHandling Model OpenAIService Spec StrFacts.

Lemma truthy_and_isArray (v : value) : truthy v && isArray v = isArray v.
Proof. destruct v; simpl; rewrite ?andb_false_r; reflexivity. Qed.

Section WithParser.
Variable JSON_parse : str -> completion value.
Variable context : CorrelationContext.

(** A response that is not JSON: the SyntaxError is wrapped into an
    [ActionAgentError] that carries the correlation id. *)
Lemma unparseable_raises (content : str) (e : exn) :
  JSON_parse content = Throw e ->
  parseAndValidateResponse JSON_parse content context
  = Throw (parse_failure context e)
  /\ error_correlationId (parse_failure context e) = Some (correlationId context).
Proof.
  intros H. unfold parseAndValidateResponse. rewrite H. split; reflexivity.
Qed.

(** JSON of none of the three shapes, other than [null]: an empty item list. *)
Lemma unexpected_shape_returns_empty (content : str) (parsed : value) :
  JSON_parse content = Return parsed ->
  parsed <> VNull -> parsed <> VUndefined ->
  accepted_shape parsed = false ->
  parseAndValidateResponse JSON_parse content context
  = Return {| actionItems := []; summary := VUndefined |}.
Proof.
  intros H Hnull Hundef Hshape. unfold parseAndValidateResponse. rewrite H.
  unfold accepted_shape in Hshape.
  destruct parsed; try congruence; try reflexivity; simpl in Hshape.
  - discriminate.
  - apply orb_false_iff in Hshape as [Ha Ht].
    cbn [bind isArray get]. rewrite !truthy_and_isArray, Ha, Ht. reflexivity.
Qed.

(** C1: a response that is valid JSON of none of the three accepted shapes
    should give an empty item list.  For the JSON text [null] the code does
    not: reading [parsed.actionItems] throws a TypeError inside the [try]
    block, and the [catch] clause reports it as a parse failure. *)
Theorem null_response_raises (content : str) :
  JSON_parse content = Return VNull ->
  parseAndValidateResponse JSON_parse content context
  = Throw (parse_failure context
             (JsError (lit "TypeError")
                (lit "Cannot read properties of null (reading 'actionItems')"))).
Proof.
  intros H. unfold parseAndValidateResponse. rewrite H. reflexivity.
Qed.

Lemma items_of_validated (items : list value) (summary : value) :
  items_of (try_catch (validate_items items summary)
              (fun error => Throw (parse_failure context error)))
  = try_catch (mapM sanitize_item (filter has_title items))
      (fun error => Throw (parse_failure context error)).
Proof.
  unfold validate_items.
  destruct (mapM sanitize_item (filter has_title items)); reflexivity.
Qed.

Lemma bare_array_items (content : str) (items : list value) :
  JSON_parse content = Return (VArr items) ->
  items_of (parseAndValidateResponse JSON_parse content context)
  = try_catch (mapM sanitize_item (filter has_title items))
      (fun error => Throw (parse_failure context error)).
Proof.
  intros H. unfold parseAndValidateResponse. rewrite H.
  cbn [bind isArray array_elems]. apply items_of_validated.
Qed.

Lemma actionItems_object_items (content : str) fields (items : list value) :
  JSON_parse content = Return (VObj fields) ->
  lookup (lit "actionItems") fields = VArr items ->
  items_of (parseAndValidateResponse JSON_parse content context)
  = try_catch (mapM sanitize_item (filter has_title items))
      (fun error => Throw (parse_failure context error)).
Proof.
  intros H Hl. unfold parseAndValidateResponse. rewrite H.
  cbn [bind isArray get]. rewrite Hl.
  cbn [truthy isArray andb array_elems]. apply items_of_validated.
Qed.

Lemma tasks_object_items (content : str) fields (items : list value) :
  JSON_parse content = Return (VObj fields) ->
  isArray (lookup (lit "actionItems") fields) = false ->
  lookup (lit "tasks") fields = VArr items ->
  items_of (parseAndValidateResponse JSON_parse content context)
  = try_catch (mapM sanitize_item (filter has_title items))
      (fun error => Throw (parse_failure context error)).
Proof.
  intros H Ha Hl. unfold parseAndValidateResponse. rewrite H.
  cbn [bind isArray get]. rewrite truthy_and_isArray, Ha, Hl.
  cbn [truthy isArray andb array_elems]. apply items_of_validated.
Qed.
End WithParser.

Lemma normalizers_return (v : value) :
  string_or_absent v = true ->
  (exists t, validateWorkItemType v = Return t)
  /\ (exists p, validatePriority v = Return p).
Proof.
  destruct v; try discriminate; intros _; split;
    try (eexists; reflexivity).
  - rewrite NormalizerFacts.validateWorkItemType_string. eexists; reflexivity.
  - rewrite NormalizerFacts.validatePriority_string. eexists; reflexivity.
Qed.

Lemma sanitize_item_returns (item : value) :
  has_title item = true -> well_typed_entry item = true ->
  exists it, sanitize_item item = Return it.
Proof.
  unfold has_title, well_typed_entry. intros Ht Hw.
  apply andb_true_iff in Ht as [_ Ht].
  destruct item; simpl in Ht; try discriminate.
  apply andb_true_iff in Hw as [Hty Hpr].
  destruct (lookup (lit "title") fields) eqn:Etitle; try discriminate.
  destruct (@normalizers_return _ Hty) as [[t Et] _].
  destruct (@normalizers_return _ Hpr) as [_ [p Ep]].
  unfold sanitize_item. cbn [get bind]. rewrite Etitle. cbn [bind].
  rewrite Et. cbn [bind]. rewrite Ep. cbn [bind]. eexists; reflexivity.
Qed.

Lemma sanitize_all_returns (items : list value) :
  forallb well_typed_entry items = true ->
  exists l, mapM sanitize_item (filter has_title items) = Return l.
Proof.
  induction items as [|item items IH]; simpl; intros H.
  - eexists; reflexivity.
  - apply andb_true_iff in H as [Hw Hrest].
    destruct (IH Hrest) as [l Hl].
    destruct (has_title item) eqn:Ht; [|eauto].
    destruct (@sanitize_item_returns _ Ht Hw) as [it Hit].
    simpl. rewrite Hit. cbn [bind]. rewrite Hl. eexists; reflexivity.
Qed.

(** C6: the three accepted encodings of one list of records (a bare array,
    an object whose [actionItems] is the array, an object without an
    [actionItems] array whose [tasks] is the array) give the same outcome:
    the same normalized items in the same order.  When the [type] and
    [priority] of every record are strings or absent, that outcome is a list
    of items. *)
Theorem three_shapes_agree
  (JSON_parse : str -> completion value) (context : CorrelationContext)
  (items : list value) (bare wrapped aliased : str)
  (wrapped_fields aliased_fields : list (str * value)) :
  JSON_parse bare = Return (VArr items) ->
  JSON_parse wrapped = Return (VObj wrapped_fields) ->
  lookup (lit "actionItems") wrapped_fields = VArr items ->
  JSON_parse aliased = Return (VObj aliased_fields) ->
  isArray (lookup (lit "actionItems") aliased_fields) = false ->
  lookup (lit "tasks") aliased_fields = VArr items ->
  let outcome c := items_of (parseAndValidateResponse JSON_parse c context) in
  outcome wrapped = outcome bare
  /\ outcome aliased = outcome bare
  /\ (forallb well_typed_entry items = true ->
      exists validated, outcome bare = Return validated).
Proof.
  intros Hb Hw Hwl Ha Hna Hal outcome. subst outcome. cbv beta.
  rewrite (@bare_array_items JSON_parse context _ _ Hb).
  rewrite (@actionItems_object_items JSON_parse context _ _ _ Hw Hwl).
  rewrite (@tasks_object_items JSON_parse context _ _ _ Ha Hna Hal).
  split; [reflexivity|]. split; [reflexivity|].
  intros Hwt. destruct (@sanitize_all_returns _ Hwt) as [l Hl].
  rewrite Hl. eexists; reflexivity.
Qed.

Lemma null_response_raises_witness :
  parseAndValidateResponse (Stubs.parse_known Stubs.documents) (lit "null")
    Stubs.context
  = Throw (parse_failure Stubs.context
             (JsError (lit "TypeError")
                (lit "Cannot read properties of null (reading 'actionItems')"))).
Proof.
  apply (@null_response_raises (Stubs.parse_known Stubs.documents)
           Stubs.context (lit "null")).
  reflexivity.
Defined.

Lemma three_shapes_agree_witness :
  let outcome c :=
    items_of (parseAndValidateResponse (Stubs.parse_known Stubs.documents) c
                Stubs.context) in
  outcome Stubs.wrapped_text = outcome Stubs.bare_text
  /\ outcome Stubs.aliased_text = outcome Stubs.bare_text
  /\ exists validated, outcome Stubs.bare_text = Return validated.
Proof.
  destruct (@three_shapes_agree (Stubs.parse_known Stubs.documents)
              Stubs.context [Stubs.login_bug]
              Stubs.bare_text Stubs.wrapped_text Stubs.aliased_text
              [(lit "actionItems", VArr [Stubs.login_bug])]
              [(lit "tasks", VArr [Stubs.login_bug])]
              eq_refl eq_refl eq_refl eq_refl eq_refl eq_refl)
    as (Hw & Ha & Hr).
  split; [exact Hw|]. split; [exact Ha|]. apply Hr. reflexivity.
Defined.

(** End-to-end scenario A, validator part: one item, Bug, High. *)
Example scenario_A_validated :
  parseAndValidateResponse (Stubs.parse_known Stubs.documents)
    Stubs.wrapped_text Stubs.context
  = Return {| actionItems :=
                [{| p_title := lit "Fix login timeout bug";
                    p_assignedTo := VStr (lit "Sam");
                    p_type := Bug;
                    p_priority := High;
                    p_description := VStr [];
                    p_deadline := VStr (lit "tomorrow") |}];
              summary := VUndefined |}.
Proof. reflexivity. Qed.

End ValidatorFacts.

(** ** Normalizers: values that are not strings *)

Module NormalizerFailureFacts.
Import JS ErrorHandling Model OpenAIService Spec NormalizerSpec StrFacts.

Lemma normalizers_throw (v : value) :
  string_or_absent v = false ->
  validateWorkItemType v
  = Throw (JsError (lit "TypeError") (lit "toLowerCase is not a function"))
  /\ validatePriority v
     = Throw (JsError (lit "TypeError") (lit "toLowerCase is not a function")).
Proof. destruct v; try discriminate; intros _; split; reflexivity. Qed.

Lemma sanitize_item_outcome (item : value) :
  has_title item = true ->
  (well_typed_entry item = true -> exists it, sanitize_item item = Return it)
  /\ (well_typed_entry item = false ->
      sanitize_item item
      = Throw (JsError (lit "TypeError") (lit "toLowerCase is not a function"))).
Proof.
  intros Ht. split; [apply ValidatorFacts.sanitize_item_returns; exact Ht|].
  unfold has_title in Ht. apply andb_true_iff in Ht as [_ Ht].
  destruct item; simpl in Ht; try discriminate.
  destruct (lookup (lit "title") fields) eqn:Etitle; try discriminate.
  unfold well_typed_entry. intros Hw.
  unfold sanitize_item. cbn [get bind]. rewrite Etitle. cbn [bind].
  destruct (string_or_absent (lookup (lit "type") fields)) eqn:Ety.
  - destruct (proj1 (@ValidatorFacts.normalizers_return _ Ety)) as [t Et].
    rewrite Et. cbn [bind]. cbn [andb] in Hw.
    rewrite (proj2 (normalizers_throw _ Hw)). reflexivity.
  - rewrite (proj1 (normalizers_throw _ Ety)). reflexivity.
Qed.

Lemma sanitize_all_throws (items : list value) (entry : value) :
  In entry items -> has_title entry = true -> well_typed_entry entry = false ->
  mapM sanitize_item (filter has_title items)
  = Throw (JsError (lit "TypeError") (lit "toLowerCase is not a function")).
Proof.
  induction items as [|item items IH]; [intros []|].
  intros Hin Ht Hw. cbn [filter].
  destruct (has_title item) eqn:Hti.
  - cbn [mapM].
    destruct (well_typed_entry item) eqn:Hwi.
    + destruct (proj1 (sanitize_item_outcome item Hti) Hwi) as [it Hit].
      rewrite Hit. cbn [bind].
      destruct Hin as [->|Hin]; [congruence|].
      rewrite (IH Hin Ht Hw). reflexivity.
    + rewrite (proj2 (sanitize_item_outcome item Hti) Hwi). reflexivity.
  - destruct Hin as [->|Hin]; [congruence|]. apply IH; assumption.
Qed.

Lemma validate_items_throws (context : CorrelationContext)
    (items : list value) (summary : value) (e : exn) :
  mapM sanitize_item (filter has_title items) = Throw e ->
  try_catch (validate_items items summary)
    (fun error => Throw (parse_failure context error))
  = Throw (parse_failure context e).
Proof. intros H. unfold validate_items. rewrite H. reflexivity. Qed.

Lemma records_rejected (JSON_parse : str -> completion value)
    (context : CorrelationContext) (content : str) (parsed : value) (e : exn) :
  JSON_parse content = Return parsed ->
  records parsed <> [] ->
  mapM sanitize_item (filter has_title (records parsed)) = Throw e ->
  parseAndValidateResponse JSON_parse content context
  = Throw (parse_failure context e).
Proof.
  intros Hp Hne He. unfold parseAndValidateResponse. rewrite Hp.
  cbn [bind]. destruct parsed; try (exfalso; apply Hne; reflexivity).
  - cbn [isArray array_elems]. apply validate_items_throws. exact He.
  - cbn [isArray get bind]. rewrite ValidatorFacts.truthy_and_isArray.
    cbn [records] in He, Hne.
    destruct (lookup (lit "actionItems") fields) eqn:Ea;
      try (cbn [isArray]; rewrite ValidatorFacts.truthy_and_isArray;
           destruct (lookup (lit "tasks") fields) eqn:Et;
           try (exfalso; apply Hne; reflexivity);
           cbn [isArray array_elems bind]; apply validate_items_throws;
           exact He).
    cbn [isArray array_elems bind]. apply validate_items_throws. exact He.
Qed.

(** C7: the normalizers are not total.  A [type] or [priority] that is
    neither a string nor absent (a JSON number, boolean, array or object;
    the priority [1] written as a number, say) has no [toLowerCase] to
    call: the normalizer throws a TypeError instead of returning an enum
    value, and a response of an accepted shape holding one titled record
    with such a field is rejected as a whole, with all its other records,
    as a failure to parse it. *)
Theorem non_string_field_is_not_normalized (v : value) :
  string_or_absent v = false ->
  (exists e, validateWorkItemType v = Throw e /\ is_type_error e = true)
  /\ (exists e, validatePriority v = Throw e /\ is_type_error e = true)
  /\ forall (JSON_parse : str -> completion value) (context : CorrelationContext)
            (content : str) (parsed : value) (fields : list (str * value)),
       JSON_parse content = Return parsed ->
       In (VObj fields) (records parsed) ->
       has_title (VObj fields) = true ->
       lookup (lit "type") fields = v \/ lookup (lit "priority") fields = v ->
       exists e,
         parseAndValidateResponse JSON_parse content context
         = Throw (parse_failure context e)
         /\ is_type_error e = true.
Proof.
  intros Hv. destruct (normalizers_throw v Hv) as [Hty Hpr].
  split; [eexists; split; [exact Hty|reflexivity]|].
  split; [eexists; split; [exact Hpr|reflexivity]|].
  intros JSON_parse context content parsed fields Hp Hin Ht Hfield.
  exists (JsError (lit "TypeError") (lit "toLowerCase is not a function")).
  split; [|reflexivity].
  apply records_rejected with (parsed := parsed); [exact Hp| |].
  - intros E. rewrite E in Hin. destruct Hin.
  - apply sanitize_all_throws with (entry := VObj fields); [exact Hin|exact Ht|].
    unfold well_typed_entry.
    destruct Hfield as [-> | ->]; rewrite Hv; [reflexivity|apply andb_false_r].
Qed.

Lemma non_string_field_is_not_normalized_witness :
  (exists e, validatePriority (VNum 1) = Throw e /\ is_type_error e = true)
  /\ exists e,
       parseAndValidateResponse
         (Stubs.parse_known NormalizerStubs.documents)
         NormalizerStubs.numbered_priority_text Stubs.context
       = Throw (parse_failure Stubs.context e)
       /\ is_type_error e = true.
Proof.
  destruct (@non_string_field_is_not_normalized (VNum 1) eq_refl)
    as (_ & Hpriority & Hresponse).
  split; [exact Hpriority|].
  apply (Hresponse (Stubs.parse_known NormalizerStubs.documents) Stubs.context
           NormalizerStubs.numbered_priority_text
           (VArr [NormalizerStubs.numbered_priority; Stubs.login_bug])
           [(lit "title", VStr (lit "Rotate the signing keys"));
            (lit "type", VStr (lit "Task"));
            (lit "priority", VNum 1)]).
  - reflexivity.
  - left. reflexivity.
  - reflexivity.
  - right. reflexivity.
Defined.

(** The same response with the priority as the text ["1"] is accepted, and
    the record is of high priority. *)
Example text_priority_is_normalized :
  validatePriority (VStr (lit "1")) = Return High
  /\ validatePriority (VNum 1)
     = Throw (JsError (lit "TypeError") (lit "toLowerCase is not a function")).
Proof. split; reflexivity. Qed.

End NormalizerFailureFacts.

(** ** Patch documents *)

Module DeliveryFacts.
Import JS Model DevOpsService Spec StrFacts.

Lemma assigned_to_app (a b : list PatchOperation) :
  assigned_to (a ++ b) = assigned_to a ++ assigned_to b.
Proof. apply filter_app. Qed.

Section Patch.
Variable config : AzureDevOpsConfig.
Variable parseDeadline : str -> option str.

(** Only the assignee step of [buildPatchDocument] writes [System.AssignedTo]. *)
Lemma assigned_to_buildPatchDocument (task : ActionItem) (assignee cid : str) :
  assigned_to (buildPatchDocument config parseDeadline task assignee cid)
  = if nonempty assignee && negb (str_eqb assignee (lit "Unassigned"))
    then [add "/fields/System.AssignedTo" (PStr assignee)]
    else if nonempty (triageUser config)
    then [add "/fields/System.AssignedTo" (PStr (triageUser config))]
    else [].
Proof.
  unfold buildPatchDocument.
  destruct (present (deadline task)) as [d|]; [destruct (parseDeadline d)|];
    destruct (nonempty (defaultIterationPath config));
    destruct (nonempty (defaultAreaPath config));
    destruct (nonempty assignee && negb (str_eqb assignee (lit "Unassigned")));
    try destruct (nonempty (triageUser config));
    rewrite ?assigned_to_app; reflexivity.
Qed.
End Patch.

(** C10: when the effective assignee is empty or the literal "Unassigned",
    the patch document sets [System.AssignedTo] to the configured triage user,
    once; it leaves the field out only when no triage user is configured. *)
Theorem unassigned_goes_to_triage
  (config : AzureDevOpsConfig) (parseDeadline : str -> option str)
  (task : ActionItem) (assigneeIdentity correlationId : str) :
  assigneeIdentity = [] \/ assigneeIdentity = lit "Unassigned" ->
  let doc := buildPatchDocument config parseDeadline task assigneeIdentity correlationId in
  (triageUser config <> [] ->
     assigned_to doc = [add "/fields/System.AssignedTo" (PStr (triageUser config))])
  /\ (triageUser config = [] -> assigned_to doc = []).
Proof.
  intros Hu doc. subst doc. rewrite assigned_to_buildPatchDocument.
  assert (nonempty assigneeIdentity
          && negb (str_eqb assigneeIdentity (lit "Unassigned")) = false) as ->.
  { destruct Hu as [-> | ->]; reflexivity. }
  split; intros Ht.
  - apply nonempty_true in Ht. rewrite Ht. reflexivity.
  - rewrite Ht. reflexivity.
Qed.
Lemma unassigned_goes_to_triage_witness :
  assigned_to (buildPatchDocument Stubs.devops_config (fun _ => None)
                 Stubs.unowned_task (lit "Unassigned") (lit "c0ffee"))
  = [add "/fields/System.AssignedTo" (PStr (lit "triage@contoso.com"))].
Proof.
  apply (@unassigned_goes_to_triage Stubs.devops_config (fun _ => None)
           Stubs.unowned_task (lit "Unassigned") (lit "c0ffee")).
  - right. reflexivity.
  - discriminate.
Defined.

End DeliveryFacts.

(** ** Insertion-ordered maps *)

Module MapFacts.
Import JS StrFacts.

Section Maps.
Variable V : Type.
Implicit Types (m : Map V) (k : str) (v : V).

Lemma map_get_None k m : map_get k m = None <-> ~ In k (map_keys m).
Proof.
  induction m as [|[k' v'] m IH]; simpl.
  - tauto.
  - destruct (str_eqb k k') eqn:E.
    + apply str_eqb_eq in E. subst. split; [discriminate|].
      intros H. destruct H. now left.
    + apply str_eqb_neq in E. rewrite IH. split.
      * intros H [H1|H1]; [congruence|tauto].
      * tauto.
Qed.

Lemma map_get_split k m v :
  map_get k m = Some v ->
  exists m1 m2, m = m1 ++ (k, v) :: m2 /\ ~ In k (map_keys m1).
Proof.
  induction m as [|[k' v'] m IH]; simpl; [discriminate|].
  destruct (str_eqb k k') eqn:E.
  - apply str_eqb_eq in E. intros [= ->]. subst.
    exists [], m. split; [reflexivity|]. intros [].
  - intros H. destruct (IH H) as (m1 & m2 & -> & Hn).
    exists ((k', v') :: m1), m2. split; [reflexivity|].
    apply str_eqb_neq in E. simpl. intros [H1|H1]; [congruence|tauto].
Qed.

Lemma map_set_fresh k v m : ~ In k (map_keys m) -> map_set k v m = m ++ [(k, v)].
Proof.
  induction m as [|[k' v'] m IH]; simpl; intros H; [reflexivity|].
  destruct (str_eqb k k') eqn:E.
  - apply str_eqb_eq in E. subst. tauto.
  - f_equal. apply IH. tauto.
Qed.

Lemma map_set_split k v v0 (m1 m2 : Map V) :
  ~ In k (map_keys m1) ->
  map_set k v (m1 ++ (k, v0) :: m2) = m1 ++ (k, v) :: m2.
Proof.
  induction m1 as [|[k' v'] m1 IH]; simpl; intros H.
  - rewrite str_eqb_refl. reflexivity.
  - destruct (str_eqb k k') eqn:E.
    + apply str_eqb_eq in E. subst. tauto.
    + f_equal. apply IH. tauto.
Qed.

Lemma map_keys_app (m1 m2 : Map V) :
  map_keys (m1 ++ m2) = map_keys m1 ++ map_keys m2.
Proof. apply map_app. Qed.

Lemma in_map_keys k v m : In (k, v) m -> In k (map_keys m).
Proof. intros H. apply (in_map fst) in H. exact H. Qed.

(** Under distinct keys an entry is determined by its key. *)
Lemma entry_unique k v v0 (m1 m2 : Map V) :
  NoDup (map_keys (m1 ++ (k, v0) :: m2)) ->
  In (k, v) (m1 ++ (k, v0) :: m2) -> v = v0.
Proof.
  rewrite map_keys_app. simpl. intros Hnd Hin.
  apply NoDup_remove_2 in Hnd.
  apply in_app_or in Hin as [Hin|[Hin|Hin]].
  - exfalso. apply Hnd, in_or_app. left. eapply in_map_keys; eauto.
  - congruence.
  - exfalso. apply Hnd, in_or_app. right. eapply in_map_keys; eauto.
Qed.
End Maps.
End MapFacts.

Module DedupFacts.
Import JS Model OpenAIService Spec DedupSpec Invariants StrFacts MapFacts.

Implicit Types (m : Map ActionItem) (x : ActionItem) (l : list ActionItem).

Lemma dedup_inv_nil : dedup_inv [] [].
Proof. split; simpl; [constructor | contradiction | contradiction]. Qed.

Lemma NoDup_snoc (A : Type) (a : A) (l : list A) :
  NoDup l -> ~ In a l -> NoDup (l ++ [a]).
Proof.
  induction l as [|b l IH]; simpl; intros Hl Ha.
  - constructor; [intros []|constructor].
  - inversion Hl as [|? ? Hb Hl']; subst. constructor.
    + intros H. apply in_app_or in H as [H|[H|[]]]; [tauto|].
      apply Ha. now left.
    + apply IH; tauto.
Qed.

Lemma dedup_step_inv seen_items m x :
  dedup_inv seen_items m -> dedup_inv (seen_items ++ [x]) (dedup_step m x).
Proof.
  intros [Hnd Hent Hcov]. unfold dedup_step.
  destruct (map_get (dedup_key x) m) as [e|] eqn:Eget.
  - destruct (map_get_split _ _ Eget) as (m1 & m2 & -> & Hfresh).
    assert (He : forall v, In (dedup_key x, v) (m1 ++ (dedup_key x, e) :: m2) -> v = e).
    { intros v Hv. eapply entry_unique; eauto. }
    destruct (Hent _ _ (in_elt _ _ _)) as (Hke & Hine & Hmaxe).
    destruct (description_length e <? description_length x) eqn:Elt.
    + apply Nat.ltb_lt in Elt. rewrite map_set_split by assumption.
      split.
      * rewrite map_keys_app in *. exact Hnd.
      * intros k v Hin. apply in_app_or in Hin as [Hin|[Hin|Hin]].
        -- assert (Hin' : In (k, v) (m1 ++ (dedup_key x, e) :: m2))
             by (apply in_or_app; now left).
           destruct (Hent _ _ Hin') as (Hk & Hi & Hmax).
           split; [exact Hk|]. split; [apply in_or_app; now left|].
           intros y Hy Hyk. apply in_app_or in Hy as [Hy|[<-|[]]]; [auto|].
           subst k. exfalso. apply Hfresh. rewrite Hyk.
           eapply in_map_keys; eauto.
        -- injection Hin as <- <-. split; [reflexivity|].
           split; [apply in_or_app; right; now left|].
           intros y Hy Hyk. apply in_app_or in Hy as [Hy|[<-|[]]]; [|lia].
           specialize (Hmaxe y Hy Hyk). lia.
        -- assert (Hin' : In (k, v) (m1 ++ (dedup_key x, e) :: m2))
             by (apply in_or_app; right; now right).
           destruct (Hent _ _ Hin') as (Hk & Hi & Hmax).
           split; [exact Hk|]. split; [apply in_or_app; now left|].
           intros y Hy Hyk. apply in_app_or in Hy as [Hy|[<-|[]]]; [auto|].
           subst k. rewrite map_keys_app in Hnd. simpl in Hnd.
           apply NoDup_remove_2 in Hnd. exfalso. apply Hnd, in_or_app. right.
           rewrite Hyk. eapply in_map_keys; eauto.
      * intros y Hy. rewrite map_keys_app in *. simpl in *.
        apply in_app_or in Hy as [Hy|[<-|[]]]; [auto|].
        apply in_or_app. right. now left.
    + apply Nat.ltb_ge in Elt. split.
      * exact Hnd.
      * intros k v Hin. destruct (Hent _ _ Hin) as (Hk & Hi & Hmax).
        split; [exact Hk|]. split; [apply in_or_app; now left|].
        intros y Hy Hyk. apply in_app_or in Hy as [Hy|[<-|[]]]; [auto|].
        subst k. rewrite <- Hyk in Hin. apply He in Hin. subst v. exact Elt.
      * intros y Hy. apply in_app_or in Hy as [Hy|[<-|[]]]; [auto|].
        rewrite map_keys_app. apply in_or_app. right. now left.
  - apply map_get_None in Eget. rewrite map_set_fresh by assumption. split.
    + rewrite map_keys_app. simpl. apply NoDup_snoc; assumption.
    + intros k v Hin. apply in_app_or in Hin as [Hin|[[= <- <-]|[]]].
      * destruct (Hent _ _ Hin) as (Hk & Hi & Hmax).
        split; [exact Hk|]. split; [apply in_or_app; now left|].
        intros y Hy Hyk. apply in_app_or in Hy as [Hy|[<-|[]]]; [auto|].
        exfalso. apply Eget. rewrite Hyk. eapply in_map_keys; eauto.
      * split; [reflexivity|]. split; [apply in_or_app; right; now left|].
        intros y Hy Hyk. apply in_app_or in Hy as [Hy|[<-|[]]]; [|lia].
        exfalso. apply Eget. rewrite <- Hyk. auto.
    + intros y Hy. rewrite map_keys_app. apply in_or_app.
      apply in_app_or in Hy as [Hy|[<-|[]]]; [left; auto|right; now left].
Qed.

Lemma dedup_fold_inv l : forall seen_items m,
  dedup_inv seen_items m ->
  dedup_inv (seen_items ++ l) (fold_left dedup_step l m).
Proof.
  induction l as [|x l IH]; intros seen_items m H; simpl.
  - rewrite app_nil_r. exact H.
  - replace (seen_items ++ x :: l) with ((seen_items ++ [x]) ++ l)
      by (rewrite <- app_assoc; reflexivity).
    apply IH. apply dedup_step_inv. exact H.
Qed.

Lemma dedup_inv_final l : dedup_inv l (fold_left dedup_step l []).
Proof. apply (dedup_fold_inv l dedup_inv_nil). Qed.

(** The keys of the map, in order, as the loop consumes more items. *)
Lemma filter_absent_known (known : list str) (k : str) (keys : list str) :
  In k known ->
  filter (fun k' => negb (existsb (str_eqb k') known))
         (filter (fun k' => negb (str_eqb k' k)) keys)
  = filter (fun k' => negb (existsb (str_eqb k') known)) keys.
Proof.
  intros Hk. induction keys as [|a keys IH]; simpl; [reflexivity|].
  destruct (str_eqb a k) eqn:E; simpl.
  - apply str_eqb_eq in E. subst a.
    assert (existsb (str_eqb k) known = true) as ->.
    { apply existsb_exists. exists k. split; [exact Hk|apply str_eqb_refl]. }
    simpl. exact IH.
  - rewrite IH. reflexivity.
Qed.

Lemma filter_absent_snoc (known : list str) (k : str) (keys : list str) :
  filter (fun k' => negb (existsb (str_eqb k') (known ++ [k]))) keys
  = filter (fun k' => negb (existsb (str_eqb k') known))
      (filter (fun k' => negb (str_eqb k' k)) keys).
Proof.
  induction keys as [|a keys IH]; simpl; [reflexivity|].
  rewrite existsb_app. simpl. rewrite orb_false_r.
  destruct (str_eqb a k) eqn:E; simpl.
  - rewrite orb_true_r. simpl. exact IH.
  - rewrite orb_false_r. destruct (existsb (str_eqb a) known); simpl;
      rewrite IH; reflexivity.
Qed.

Lemma dedup_step_keys m x :
  map_keys (dedup_step m x)
  = if existsb (str_eqb (dedup_key x)) (map_keys m) then map_keys m
    else map_keys m ++ [dedup_key x].
Proof.
  unfold dedup_step. destruct (map_get (dedup_key x) m) as [e|] eqn:Eget.
  - destruct (map_get_split _ _ Eget) as (m1 & m2 & -> & Hfresh).
    assert (existsb (str_eqb (dedup_key x))
              (map_keys (m1 ++ (dedup_key x, e) :: m2)) = true) as ->.
    { apply existsb_exists. exists (dedup_key x). split; [|apply str_eqb_refl].
      rewrite map_keys_app. apply in_or_app. right. now left. }
    destruct (_ <? _); [|reflexivity].
    rewrite map_set_split by assumption. rewrite !map_keys_app. reflexivity.
  - apply map_get_None in Eget.
    assert (existsb (str_eqb (dedup_key x)) (map_keys m) = false) as ->.
    { destruct (existsb _ _) eqn:E; [|reflexivity].
      apply existsb_exists in E as (k & Hk & Ek). apply str_eqb_eq in Ek.
      subst. contradiction. }
    rewrite map_set_fresh by assumption. apply map_keys_app.
Qed.

Lemma dedup_fold_keys l : forall m,
  map_keys (fold_left dedup_step l m)
  = map_keys m
    ++ filter (fun k => negb (existsb (str_eqb k) (map_keys m)))
         (first_seen (map dedup_key l)).
Proof.
  induction l as [|x l IH]; intros m; simpl.
  - rewrite app_nil_r. reflexivity.
  - rewrite IH, dedup_step_keys.
    destruct (existsb (str_eqb (dedup_key x)) (map_keys m)) eqn:E; simpl.
    + f_equal. symmetry. apply filter_absent_known.
      apply existsb_exists in E as (k & Hk & Ek). apply str_eqb_eq in Ek.
      congruence.
    + rewrite <- app_assoc. simpl. f_equal. f_equal.
      apply filter_absent_snoc.
Qed.

Lemma values_keys seen_items m :
  dedup_inv seen_items m -> map dedup_key (map_values m) = map_keys m.
Proof.
  intros [_ Hent _]. unfold map_values, map_keys. rewrite map_map.
  apply map_ext_in. intros [k v] Hin. simpl. apply (Hent _ _ Hin).
Qed.

(** Survivors come out in the order their keys are first seen. *)
Lemma dedup_first_seen_order l :
  map dedup_key (deduplicateItems l) = first_seen (map dedup_key l).
Proof.
  unfold deduplicateItems. rewrite (values_keys (dedup_inv_final l)).
  rewrite dedup_fold_keys. simpl.
  induction (first_seen (map dedup_key l)) as [|a ks IH]; simpl; congruence.
Qed.

(** Every survivor is an input item, and no input item with the same key
    has a longer description. *)
Lemma dedup_survivor_longest l v :
  In v (deduplicateItems l) ->
  In v l /\ forall y, In y l -> dedup_key y = dedup_key v ->
                      description_length y <= description_length v.
Proof.
  unfold deduplicateItems, map_values. intros Hin.
  apply in_map_iff in Hin as ([k v'] & Hv & Hin). simpl in Hv. subst v'.
  destruct (inv_entry (dedup_inv_final l) _ _ Hin) as (Hk & Hi & Hmax).
  split; [exact Hi|]. intros y Hy Hyk. apply Hmax; congruence.
Qed.

(** Every input item is represented by a survivor with the same key. *)
Lemma dedup_covers l y :
  In y l -> exists v, In v (deduplicateItems l) /\ dedup_key v = dedup_key y.
Proof.
  intros Hy. pose proof (inv_cover (dedup_inv_final l) _ Hy) as Hk.
  unfold map_keys in Hk. apply in_map_iff in Hk as ([k v] & Hkv & Hin).
  simpl in Hkv. subst k. exists v. split.
  - unfold deduplicateItems, map_values. apply in_map_iff.
    exists (dedup_key y, v). split; [reflexivity|exact Hin].
  - apply (inv_entry (dedup_inv_final l) _ _ Hin).
Qed.

(** Feeding the values of a well-formed map back into the loop rebuilds it. *)
Lemma dedup_fold_rebuild m : forall acc seen_items,
  dedup_inv seen_items (acc ++ m) ->
  fold_left dedup_step (map_values m) acc = acc ++ m.
Proof.
  induction m as [|[k v] m IH]; intros acc seen_items Hinv; simpl.
  - rewrite app_nil_r. reflexivity.
  - assert (Hk : dedup_key v = k).
    { apply (inv_entry Hinv). apply in_elt. }
    assert (Hfresh : ~ In k (map_keys acc)).
    { pose proof (inv_nodup Hinv) as Hnd. rewrite map_keys_app in Hnd.
      simpl in Hnd. apply NoDup_remove_2 in Hnd. intros H. apply Hnd.
      apply in_or_app. now left. }
    unfold dedup_step at 2. rewrite Hk.
    destruct (map_get k acc) eqn:Eget.
    { exfalso. apply Hfresh. destruct (map_get_split _ _ Eget) as (a1 & a2 & -> & _).
      rewrite map_keys_app. apply in_or_app. right. now left. }
    rewrite map_set_fresh by assumption.
    rewrite (IH (acc ++ [(k, v)]) seen_items).
    + rewrite <- app_assoc. reflexivity.
    + rewrite <- app_assoc. exact Hinv.
Qed.

Lemma dedup_idempotent l :
  deduplicateItems (deduplicateItems l) = deduplicateItems l.
Proof.
  unfold deduplicateItems.
  rewrite (@dedup_fold_rebuild (fold_left dedup_step l []) [] l).
  - reflexivity.
  - apply dedup_inv_final.
Qed.

(** Two items under one key: the longer description wins, the first item
    stays on a tie. *)
Lemma dedup_pair a b :
  dedup_key a = dedup_key b ->
  deduplicateItems [a; b]
  = [if description_length a <? description_length b then b else a].
Proof.
  intros Hk. unfold deduplicateItems. simpl. unfold dedup_step at 2. simpl.
  unfold dedup_step. simpl. rewrite Hk, str_eqb_refl.
  destruct (_ <? _); simpl; rewrite ?str_eqb_refl; reflexivity.
Qed.

(** Lower-casing leaves no upper-case letter. *)
Lemma toLowerChar_not_upper (c : ascii) : isUpper (toLowerChar c) = false.
Proof. destruct c as [[] [] [] [] [] [] [] []]; reflexivity. Qed.

(** The key the code computes is the normalized key of the title. *)
Lemma dedup_key_normalized (item : ActionItem) :
  dedup_key item = normalized_key (title item).
Proof.
  unfold dedup_key, normalized_key, toLowerCase.
  induction (title item) as [|c r IH]; [reflexivity|].
  cbn [map filter]. unfold alphanumeric at 1.
  rewrite toLowerChar_not_upper, orb_false_r, IH. reflexivity.
Qed.

(** The length the code compares is the length of the description. *)
Lemma description_length_text (item : ActionItem) :
  description_length item = length (description_text item).
Proof. unfold description_length, description_text. destruct (description item); reflexivity. Qed.

Lemma dedup_keys_normalized (l : list ActionItem) :
  map dedup_key l = map (fun item => normalized_key (title item)) l.
Proof. apply map_ext. exact dedup_key_normalized. Qed.

(** C5: the Deduplicator groups items by the normalized key of section 4.5,
    the lower-cased title without its non-alphanumeric characters.  One item
    survives per key, and survivors come in the order their keys are first
    seen; a survivor is an input item and no input item of its key has a
    longer description; of two items sharing a key the one with the longer
    description survives, the first when neither is longer; deduplicating
    the result again gives the same list. *)
Theorem deduplicateItems_spec (items : list ActionItem) :
  let key item := normalized_key (title item) in
  let survivors := deduplicateItems items in
  map key survivors = first_seen (map key items)
  /\ (forall v, In v survivors ->
        In v items
        /\ forall y, In y items -> key y = key v ->
                     longer_description y v = false)
  /\ (forall a b, items = [a; b] -> key a = key b ->
        survivors = [more_informative a b])
  /\ deduplicateItems survivors = survivors.
Proof.
  cbv zeta. split.
  { rewrite <- !dedup_keys_normalized. apply dedup_first_seen_order. }
  split.
  { intros v Hv. destruct (@dedup_survivor_longest items v Hv) as [Hin Hlongest].
    split; [exact Hin|]. intros y Hy Hk.
    unfold longer_description. apply Nat.ltb_ge.
    rewrite <- !description_length_text. apply Hlongest; [exact Hy|].
    rewrite !dedup_key_normalized. exact Hk. }
  split; [|apply dedup_idempotent].
  intros a b -> Hk. rewrite dedup_pair by (rewrite !dedup_key_normalized; exact Hk).
  unfold more_informative, longer_description.
  rewrite !description_length_text. reflexivity.
Qed.

Lemma deduplicateItems_spec_witness :
  deduplicateItems [DedupStubs.login_brief; DedupStubs.login_at_length]
  = [DedupStubs.login_at_length]
  /\ deduplicateItems [DedupStubs.login_at_length; DedupStubs.login_brief]
     = [DedupStubs.login_at_length]
  /\ deduplicateItems [Stubs.login_terse; DedupStubs.login_brief]
     = [DedupStubs.login_brief]
  /\ deduplicateItems [DedupStubs.login_brief; DedupStubs.login_brief]
     = [DedupStubs.login_brief]
  /\ map (fun item => normalized_key (title item))
       (deduplicateItems [DedupStubs.login_brief; Stubs.unowned_task;
                          DedupStubs.login_at_length])
     = [lit "fixloginbug"; lit "updatethedeploymentrunbook"]
  /\ (forall y,
        In y [DedupStubs.login_brief; Stubs.unowned_task;
              DedupStubs.login_at_length] ->
        normalized_key (title y)
        = normalized_key (title DedupStubs.login_at_length) ->
        longer_description y DedupStubs.login_at_length = false).
Proof.
  split.
  { exact (proj1 (proj2 (proj2
             (deduplicateItems_spec
                [DedupStubs.login_brief; DedupStubs.login_at_length])))
             DedupStubs.login_brief DedupStubs.login_at_length
             eq_refl eq_refl). }
  split.
  { exact (proj1 (proj2 (proj2
             (deduplicateItems_spec
                [DedupStubs.login_at_length; DedupStubs.login_brief])))
             DedupStubs.login_at_length DedupStubs.login_brief
             eq_refl eq_refl). }
  split.
  { exact (proj1 (proj2 (proj2
             (deduplicateItems_spec
                [Stubs.login_terse; DedupStubs.login_brief])))
             Stubs.login_terse DedupStubs.login_brief
             eq_refl eq_refl). }
  split.
  { exact (proj1 (proj2 (proj2
             (deduplicateItems_spec
                [DedupStubs.login_brief; DedupStubs.login_brief])))
             DedupStubs.login_brief DedupStubs.login_brief
             eq_refl eq_refl). }
  split.
  { exact (proj1 (deduplicateItems_spec
                    [DedupStubs.login_brief; Stubs.unowned_task;
                     DedupStubs.login_at_length])). }
  assert (Hin : In DedupStubs.login_at_length
                  (deduplicateItems [DedupStubs.login_brief; Stubs.unowned_task;
                                     DedupStubs.login_at_length]))
    by (vm_compute; left; reflexivity).
  exact (proj2 (proj1 (proj2 (deduplicateItems_spec
                                [DedupStubs.login_brief; Stubs.unowned_task;
                                 DedupStubs.login_at_length]))
                  DedupStubs.login_at_length Hin)).
Defined.

(** The key keeps every letter and digit: dropping a word changes it. *)
Example dedup_key_keeps_words :
  dedup_key Stubs.login_terse = lit "fixloginbug"
  /\ dedup_key {| title := lit "fix the login bug!"; assignedTo := [];
                  type := Bug; priority := Medium;
                  description := None; deadline := None |}
     = lit "fixtheloginbug".
Proof. split; reflexivity. Qed.

End DedupFacts.

(** ** Batch identity resolution *)

Module IdentityFacts.
Import JS IdentityService Invariants StrFacts.

Lemma existsb_str_eqb (n : str) (l : list str) :
  existsb (str_eqb n) l = true <-> In n l.
Proof.
  rewrite existsb_exists. split.
  - intros (k & Hk & E). apply str_eqb_eq in E. congruence.
  - intros H. exists n. split; [exact H|apply str_eqb_refl].
Qed.

Lemma unique_from_spec (names : list str) : forall seen,
  NoDup (unique_from seen names)
  /\ forall n, In n (unique_from seen names) <-> In n names /\ ~ In n seen.
Proof.
  induction names as [|a names IH]; intros seen; simpl.
  - split; [constructor|]. tauto.
  - destruct (existsb (str_eqb a) seen) eqn:E.
    + apply existsb_str_eqb in E. destruct (IH seen) as [Hnd Hin].
      split; [exact Hnd|]. intros n. rewrite Hin. split; [tauto|].
      intros [[<-|H] Hn]; tauto.
    + assert (Ha : ~ In a seen).
      { intros H. apply existsb_str_eqb in H. congruence. }
      destruct (IH (a :: seen)) as [Hnd Hin]. split.
      * constructor; [|exact Hnd]. rewrite Hin. simpl. tauto.
      * intros n. simpl. rewrite Hin. simpl. split.
        -- intros [<-|[H1 H2]]; tauto.
        -- intros [[<-|H1] H2]; [now left|].
           destruct (list_eq_dec ascii_dec a n) as [<-|Hne]; [now left|].
           right. tauto.
Qed.

Lemma unique_NoDup (names : list str) : NoDup (unique names).
Proof. apply unique_from_spec. Qed.

Lemma unique_In (names : list str) (n : str) : In n (unique names) <-> In n names.
Proof.
  unfold unique. rewrite (proj2 (unique_from_spec names [])). simpl. tauto.
Qed.

Section Resolve.
Variable D : Type.
Variable searchUsersByName : str -> D -> completion (list ResolvedUser) * D.

#[local] Abbreviation resolveUser := (resolveUser searchUsersByName).
#[local] Abbreviation resolve_batch := (resolve_batch searchUsersByName).
#[local] Abbreviation resolve_loop := (resolve_loop searchUsersByName).
#[local] Abbreviation resolveUsers := (resolveUsers searchUsersByName).

Lemma resolveUser_originalName (name : str) (d : D) :
  originalName (fst (resolveUser name d)) = name.
Proof.
  unfold IdentityService.resolveUser.
  destruct (_ || _); [reflexivity|].
  destruct (searchUsersByName name d) as [[[|u [|u' us]]|e] d']; reflexivity.
Qed.

(** One result per name of the batch, each for its own name. *)
Lemma resolve_batch_names (batch : list str) : forall d,
  map originalName (fst (resolve_batch batch d)) = batch.
Proof.
  induction batch as [|n batch IH]; intros d; simpl; [reflexivity|].
  pose proof (resolveUser_originalName n d) as Hn.
  destruct (resolveUser n d) as [r d1]. simpl in Hn.
  specialize (IH d1). destruct (resolve_batch batch d1) as [rs d2].
  simpl in *. congruence.
Qed.

Lemma store_batch_fresh (batch : list str) : forall rs results,
  map originalName rs = batch ->
  NoDup (map_keys results ++ batch) ->
  keyed_by_name results ->
  map_keys (store_batch batch rs results) = map_keys results ++ batch
  /\ keyed_by_name (store_batch batch rs results).
Proof.
  induction batch as [|n batch IH]; intros rs results Hrs Hnd Hkey.
  - destruct rs; simpl; rewrite app_nil_r; auto.
  - destruct rs as [|r rs]; [discriminate|]. simpl in Hrs.
    injection Hrs as Hr Hrs. simpl.
    assert (Hfresh : ~ In n (map_keys results)).
    { apply NoDup_remove_2 in Hnd. intros H. apply Hnd, in_or_app. now left. }
    rewrite MapFacts.map_set_fresh by assumption.
    destruct (IH rs (results ++ [(n, r)]) Hrs) as [Hk Hb].
    + rewrite MapFacts.map_keys_app. simpl. rewrite <- app_assoc. exact Hnd.
    + intros k r' Hin. apply in_app_or in Hin as [Hin|[[= <- <-]|[]]]; auto.
    + split; [|exact Hb]. rewrite Hk, MapFacts.map_keys_app, <- app_assoc.
      reflexivity.
Qed.

Lemma resolve_loop_keys (n : nat) : forall pending results d,
  length pending <= n ->
  NoDup (map_keys results ++ pending) ->
  keyed_by_name results ->
  map_keys (fst (resolve_loop pending results d)) = map_keys results ++ pending
  /\ keyed_by_name (fst (resolve_loop pending results d)).
Proof.
  induction n as [|n IH]; intros pending results d Hlen Hnd Hkey.
  - destruct pending; [|simpl in Hlen; lia]. simp resolve_loop.
    rewrite app_nil_r. auto.
  - destruct pending as [|a rest]; [simp resolve_loop; rewrite app_nil_r; auto|].
    simp resolve_loop. cbv zeta.
    set (pending := a :: rest) in *.
    pose proof (resolve_batch_names (firstn BATCH_SIZE pending) d) as Hnames.
    destruct (resolve_batch (firstn BATCH_SIZE pending) d) as [rs d'].
    simpl in Hnames.
    assert (Hsplit : pending = firstn BATCH_SIZE pending ++ skipn BATCH_SIZE pending)
      by (symmetry; apply firstn_skipn).
    destruct (@store_batch_fresh (firstn BATCH_SIZE pending) rs results Hnames)
      as [Hk Hb]; [|exact Hkey|].
    { rewrite Hsplit, app_assoc in Hnd. apply NoDup_app_remove_r in Hnd. exact Hnd. }
    destruct (IH (skipn BATCH_SIZE pending)
                (store_batch (firstn BATCH_SIZE pending) rs results) d')
      as [Hk' Hb'].
    + rewrite length_skipn. subst pending. simpl in *. lia.
    + rewrite Hk, <- app_assoc, <- Hsplit. exact Hnd.
    + exact Hb.
    + split; [|exact Hb']. rewrite Hk', Hk, <- app_assoc, <- Hsplit. reflexivity.
Qed.

Lemma resolveUsers_keys (names : list str) (d : D) :
  map_keys (fst (resolveUsers names d))
  = unique (filter (fun n => nonempty n && negb (str_eqb n (lit "Unassigned")))
              names)
  /\ keyed_by_name (fst (resolveUsers names d)).
Proof.
  unfold IdentityService.resolveUsers.
  apply (@resolve_loop_keys (length (unique (filter
           (fun n => nonempty n && negb (str_eqb n (lit "Unassigned"))) names)))).
  - lia.
  - simpl. apply unique_NoDup.
  - intros k r [].
Qed.

(** C9, amended: [resolveUsers] returns a map with exactly one entry per
    distinct input name that is neither empty nor the literal "Unassigned";
    the key is the name as supplied (compared case-sensitively, not
    lower-cased), and the entry is the resolution of that name. *)
Theorem resolveUsers_one_entry_per_real_name (names : list str) (d : D) :
  let results := fst (resolveUsers names d) in
  NoDup (map_keys results)
  /\ (forall n, In n (map_keys results)
                <-> In n names /\ n <> [] /\ n <> lit "Unassigned")
  /\ (forall k r, In (k, r) results -> originalName r = k).
Proof.
  cbv zeta. destruct (resolveUsers_keys names d) as [Hk Hb].
  rewrite Hk. split; [apply unique_NoDup|]. split; [|exact Hb].
  intros n. rewrite unique_In, filter_In, andb_true_iff, negb_true_iff.
  rewrite nonempty_true, str_eqb_neq. tauto.
Qed.
End Resolve.
(** C9, as stated, fails: the name "Unassigned" is a distinct input name and
    gets no entry, because [resolveUsers] filters it out (like the empty
    name) before resolving. *)
Lemma unassigned_name_gets_no_entry :
  In (lit "Unassigned") [lit "Alice"; lit "Unassigned"]
  /\ ~ In (lit "Unassigned")
         (map_keys (fst (resolveUsers (Stubs.directory Stubs.staff)
                           [lit "Alice"; lit "Unassigned"] tt))).
Proof.
  split; [right; left; reflexivity|].
  vm_compute. intros [H|[]]. discriminate H.
Qed.

Lemma resolveUsers_one_entry_per_real_name_witness :
  let results :=
    fst (resolveUsers (Stubs.directory Stubs.staff)
           [lit "Alice"; lit "alice"; lit "Unassigned"; lit "Alice"] tt) in
  In (lit "Alice") (map_keys results)
  /\ In (lit "alice") (map_keys results)
  /\ NoDup (map_keys results).
Proof.
  cbv zeta.
  destruct (@resolveUsers_one_entry_per_real_name unit
              (Stubs.directory Stubs.staff)
              [lit "Alice"; lit "alice"; lit "Unassigned"; lit "Alice"] tt)
    as (Hnd & Hin & _).
  split; [|split; [|exact Hnd]].
  - apply Hin. split; [left; reflexivity|]. split; discriminate.
  - apply Hin. split; [right; left; reflexivity|]. split; discriminate.
Defined.

End IdentityFacts.

(** ** Batched delivery *)

Module BatchFacts.
Import JS Model DevOpsService Spec StrFacts.

Lemma successes_app R (a b : list (completion R)) :
  successes (a ++ b) = successes a ++ successes b.
Proof.
  induction a as [|[v|e] a IH]; simpl; [reflexivity| |exact IH].
  rewrite IH. reflexivity.
Qed.

Lemma failures_app R (t1 t2 : list ActionItem) (o1 o2 : list (completion R)) :
  length o1 = length t1 ->
  failures (t1 ++ t2) (o1 ++ o2) = failures t1 o1 ++ failures t2 o2.
Proof.
  revert o1. induction t1 as [|t t1 IH]; intros [|[v|e] o1] Hlen;
    simpl in *; try discriminate; try reflexivity.
  - apply IH. lia.
  - rewrite IH by lia. reflexivity.
Qed.

Lemma successes_failures_length R (tasks : list ActionItem)
    (outcomes : list (completion R)) :
  length outcomes = length tasks ->
  length (successes outcomes) + length (failures tasks outcomes) = length tasks.
Proof.
  revert outcomes. induction tasks as [|t tasks IH]; intros [|[v|e] o] Hlen;
    simpl in *; try discriminate; try reflexivity.
  - rewrite IH by lia. reflexivity.
  - rewrite Nat.add_succ_r, IH by lia. reflexivity.
Qed.

Section Batches.
Variable B : Type.
Variable createWorkItem :
  ActionItem -> bool -> B -> completion ExtendedWorkItemResult * B.
Variable resolveIdentities : bool.

#[local] Abbreviation creations := (creations createWorkItem resolveIdentities).
#[local] Abbreviation settle_all := (settle_all createWorkItem resolveIdentities).
#[local] Abbreviation run_batch := (run_batch createWorkItem resolveIdentities).
#[local] Abbreviation create_loop := (create_loop createWorkItem resolveIdentities).

Lemma creations_length (tasks : list ActionItem) : forall b,
  length (fst (creations tasks b)) = length tasks.
Proof.
  induction tasks as [|t tasks IH]; intros b; simpl; [reflexivity|].
  destruct (createWorkItem t resolveIdentities b) as [r b1].
  specialize (IH b1). destruct (creations tasks b1). simpl in *. lia.
Qed.

Lemma creations_app (t1 t2 : list ActionItem) : forall b,
  creations (t1 ++ t2) b
  = (fst (creations t1 b) ++ fst (creations t2 (snd (creations t1 b))),
     snd (creations t2 (snd (creations t1 b)))).
Proof.
  induction t1 as [|t t1 IH]; intros b; simpl.
  - destruct (creations t2 b); reflexivity.
  - destruct (createWorkItem t resolveIdentities b) as [r b1].
    rewrite IH. destruct (creations t1 b1) as [o1 b2]. reflexivity.
Qed.

(** Settling a batch starts every creation of the batch, in order. *)
Lemma settle_all_creations (batch : list ActionItem) : forall w : World B,
  settle_all batch w
  = (fst (creations batch (backend w)),
     {| backend := snd (creations batch (backend w));
        attempted := attempted w ++ batch;
        pauses := pauses w;
        reported := reported w |}).
Proof.
  induction batch as [|t batch IH]; intros w; simpl.
  - rewrite app_nil_r. destruct w; reflexivity.
  - destruct (createWorkItem t resolveIdentities (backend w)) as [r b1].
    rewrite IH. simpl. destruct (creations batch b1) as [rs b2]. simpl.
    rewrite <- app_assoc. reflexivity.
Qed.

(** Sorting the outcomes keeps every success and reports every failure. *)
Lemma collect_outcomes (batch : list ActionItem) :
  forall outcomes results errors (w : World B),
  length outcomes = length batch ->
  collect batch outcomes results errors w
  = (results ++ successes outcomes, errors ++ failures batch outcomes,
     {| backend := backend w;
        attempted := attempted w;
        pauses := pauses w;
        reported := reported w ++ failures batch outcomes |}).
Proof.
  induction batch as [|t batch IH]; intros [|[v|e] outcomes] results errors w Hlen;
    simpl in *; try discriminate.
  - rewrite !app_nil_r. destruct w; reflexivity.
  - rewrite IH by lia. rewrite <- app_assoc. reflexivity.
  - rewrite IH by lia. simpl. rewrite <- !app_assoc. reflexivity.
Qed.

Lemma run_batch_outcomes (batch : list ActionItem) results errors (w : World B) :
  run_batch batch results errors w
  = let outcomes := fst (creations batch (backend w)) in
    (results ++ successes outcomes, errors ++ failures batch outcomes,
     {| backend := snd (creations batch (backend w));
        attempted := attempted w ++ batch;
        pauses := pauses w;
        reported := reported w ++ failures batch outcomes |}).
Proof.
  unfold DevOpsService.run_batch. rewrite settle_all_creations.
  rewrite collect_outcomes by apply creations_length. reflexivity.
Qed.

Lemma create_loop_step (pending : list ActionItem) results errors (w : World B) :
  pending <> [] ->
  create_loop pending results errors w
  = let '(results', errors', w2) :=
      run_batch (firstn MAX_CONCURRENT pending) results errors w in
    create_loop (skipn MAX_CONCURRENT pending) results' errors'
      (if nonempty (skipn MAX_CONCURRENT pending) then pause w2 else w2).
Proof.
  destruct pending as [|t rest]; [congruence|]. intros _.
  simp create_loop. reflexivity.
Qed.

(** What the loop computes, the pauses apart. *)
Lemma create_loop_outcomes (n : nat) : forall pending results errors (w : World B),
  length pending <= n ->
  let outcomes := fst (creations pending (backend w)) in
  let '(results', errors', w') := create_loop pending results errors w in
  results' = results ++ successes outcomes
  /\ errors' = errors ++ failures pending outcomes
  /\ backend w' = snd (creations pending (backend w))
  /\ attempted w' = attempted w ++ pending
  /\ reported w' = reported w ++ failures pending outcomes.
Proof.
  induction n as [|n IH]; intros pending results errors w Hlen.
  - destruct pending; [|simpl in Hlen; lia]. simp create_loop. simpl.
    rewrite !app_nil_r. auto.
  - destruct pending as [|t rest].
    { simp create_loop. simpl. rewrite !app_nil_r. auto. }
    assert (Hne : t :: rest <> []) by discriminate.
    assert (Hlater : length (skipn MAX_CONCURRENT (t :: rest)) <= n).
    { rewrite length_skipn. unfold MAX_CONCURRENT. simpl in *. lia. }
    remember (t :: rest) as pending eqn:Ep. clear Ep t rest Hlen.
    rewrite create_loop_step by assumption.
    rewrite run_batch_outcomes. cbv zeta.
    pose proof (firstn_skipn MAX_CONCURRENT pending) as Hsplit.
    remember (firstn MAX_CONCURRENT pending) as batch eqn:Eb.
    remember (skipn MAX_CONCURRENT pending) as later eqn:El.
    clear Eb El Hne. subst pending.
    pose proof (creations_length batch (backend w)) as Hbl.
    rewrite creations_app.
    destruct (creations batch (backend w)) as [o1 b1] eqn:E1. simpl in *.
    match goal with
    | |- context [create_loop later ?r ?e ?w3] =>
        specialize (IH later r e w3 Hlater); cbv zeta in IH;
        assert (Hw3 : backend w3 = b1 /\ attempted w3 = attempted w ++ batch
                      /\ reported w3 = reported w ++ failures batch o1)
          by (destruct (nonempty later); simpl; auto);
        destruct (create_loop later r e w3) as [[results' errors'] w']
    end.
    destruct Hw3 as (Hb3 & Ha3 & Hr3).
    destruct IH as (Hres & Herr & Hback & Hatt & Hrep).
    rewrite Hb3 in *. rewrite Ha3 in Hatt. rewrite Hr3 in Hrep.
    rewrite successes_app, failures_app by assumption.
    rewrite !app_assoc. auto.
Qed.

(** C4: batched delivery starts the creation of every item of the list, in
    order, whatever the outcome of the others; it returns the records of
    exactly the creations that succeeded, in order, and reports the failed
    items apart; successes and failures together account for every item.
    The call itself returns a list: it has no way to raise. *)
Theorem createWorkItems_settles_every_item (tasks : list ActionItem) (w : World B) :
  let outcomes := fst (creations tasks (backend w)) in
  let '(records, w') := createWorkItems createWorkItem tasks resolveIdentities w in
  attempted w' = attempted w ++ tasks
  /\ records = successes outcomes
  /\ reported w' = reported w ++ failures tasks outcomes
  /\ length records + length (failures tasks outcomes) = length tasks.
Proof.
  cbv zeta. unfold createWorkItems.
  pose proof (@create_loop_outcomes (length tasks) tasks [] [] w (le_n _)) as H.
  cbv zeta in H.
  destruct (create_loop tasks [] [] w) as [[records errors] w'].
  destruct H as (Hres & _ & _ & Hatt & Hrep). simpl in Hres.
  split; [exact Hatt|]. split; [exact Hres|]. split; [exact Hrep|].
  rewrite Hres. apply successes_failures_length. apply creations_length.
Qed.
End Batches.
(** End-to-end scenario C: three items, the backend fails on the second. *)
Lemma createWorkItems_settles_every_item_witness :
  let tasks := [Stubs.login_terse; Stubs.login_detailed; Stubs.unowned_task] in
  let '(records, w') :=
    createWorkItems (Stubs.ticketing 2) tasks true Stubs.fresh_world in
  attempted w' = tasks
  /\ map r_title records = [title Stubs.login_terse; title Stubs.unowned_task]
  /\ length records = 2
  /\ map fst (reported w') = [Stubs.login_detailed].
Proof.
  cbv zeta.
  pose proof (@createWorkItems_settles_every_item nat (Stubs.ticketing 2) true
                [Stubs.login_terse; Stubs.login_detailed; Stubs.unowned_task]
                Stubs.fresh_world) as H.
  cbv zeta in H.
  destruct (createWorkItems (Stubs.ticketing 2) _ true Stubs.fresh_world)
    as [records w'].
  destruct H as (Hatt & Hrec & Hrep & _).
  rewrite Hatt, Hrec, Hrep. repeat split; reflexivity.
Defined.

End BatchFacts.

(** ** Retry wrapper *)

Module RetryFacts.
Import JS ErrorHandling Spec Invariants StrFacts.

Section Loop.
Variables (T S : Type).
Variable operation : S -> completion T * S.
Variable random : nat -> Q.
Variable cfg : RetryConfig.

#[local] Abbreviation retry_loop := (retry_loop operation random cfg).
#[local] Abbreviation state_after := (state_after operation).
#[local] Abbreviation fails_retryably := (fails_retryably operation).
#[local] Abbreviation after_retries := (after_retries operation random cfg).

Lemma after_retries_0 attempt (w : World S) : after_retries attempt 0 w = w.
Proof.
  unfold after_retries. simpl. rewrite !Nat.add_0_r, app_nil_r.
  destruct w; reflexivity.
Qed.

(** [n] retryable failures below the attempt bound take the loop through
    [n] iterations. *)
Lemma retry_loop_retries (n : nat) : forall remaining attempt lastError (w : World S),
  fails_retryably n (backend w) = true ->
  (attempt + Z.of_nat n <= maxAttempts cfg)%Z ->
  exists lastError',
    retry_loop (n + remaining) attempt lastError w
    = retry_loop remaining (attempt + Z.of_nat n) lastError'
        (after_retries attempt n w).
Proof.
  induction n as [|n IH]; intros remaining attempt lastError w Hfail Hmax.
  - exists lastError. rewrite after_retries_0, Z.add_0_r. reflexivity.
  - simpl in Hfail. simpl plus. cbn [ErrorHandling.retry_loop]. unfold invoke.
    destruct (operation (backend w)) as [[v|e] s'] eqn:Eop; [discriminate|].
    apply andb_true_iff in Hfail as [Hretry Hfail].
    assert (Hlt : (attempt <? maxAttempts cfg)%Z = true) by (apply Z.ltb_lt; lia).
    rewrite Hlt, Hretry. cbn [andb].
    match goal with
    | |- context [ErrorHandling.retry_loop _ _ _ _ _ _ ?w1] =>
        destruct (IH remaining (attempt + 1)%Z (Some (as_Error e)) w1)
          as [lastError' Hl]; [exact Hfail|lia|]
    end.
    exists lastError'. rewrite Hl. f_equal; [lia|].
    unfold after_retries, backoff. cbn [backend invocations slept draws].
    cbn [Spec.state_after]. rewrite Eop. cbn [snd].
    cbn [backoff_delays]. rewrite <- app_assoc. f_equal; try lia.
Qed.

(** The attempt that succeeds ends the loop with its result. *)
Lemma retry_loop_returns remaining attempt lastError (w : World S) (v : T) :
  fst (operation (backend w)) = Return v ->
  retry_loop (Datatypes.S remaining) attempt lastError w
  = (inl v, {| backend := snd (operation (backend w));
               invocations := Datatypes.S (invocations w);
               slept := slept w; draws := draws w |}).
Proof.
  intros H. cbn [ErrorHandling.retry_loop]. unfold invoke.
  destruct (operation (backend w)) as [r s']. simpl in H. subst r. reflexivity.
Qed.

(** The attempt that fails for good (last allowed attempt, or an error that
    is not retryable) ends the loop with its error. *)
Lemma retry_loop_breaks remaining attempt lastError (w : World S) (e : exn) :
  fst (operation (backend w)) = Throw e ->
  (attempt <? maxAttempts cfg)%Z && isRetryableError e = false ->
  retry_loop (Datatypes.S remaining) attempt lastError w
  = (inr (Some (as_Error e)),
     {| backend := snd (operation (backend w));
        invocations := Datatypes.S (invocations w);
        slept := slept w; draws := draws w |}).
Proof.
  intros H Hno. cbn [ErrorHandling.retry_loop]. unfold invoke.
  destruct (operation (backend w)) as [r s']. simpl in H. subst r.
  rewrite Hno. reflexivity.
Qed.

Lemma state_after_S (n : nat) : forall s : S,
  state_after (Datatypes.S n) s = snd (operation (state_after n s)).
Proof. induction n as [|n IH]; intros s; [reflexivity|]. simpl. apply IH. Qed.
End Loop.

(** *** Delays *)

Lemma jitter_band (c jf r : Q) :
  (0 <= c)%Q -> (0 <= jf)%Q -> (0 <= r)%Q -> (r < 1)%Q ->
  (c - c * jf * (1 # 2) - 1 < inject_Z (Qfloor (c + c * jf * (r - (1 # 2)))))%Q
  /\ (inject_Z (Qfloor (c + c * jf * (r - (1 # 2)))) <= c + c * jf * (1 # 2))%Q.
Proof.
  intros Hc Hjf Hr0 Hr1.
  pose proof (Qfloor_le (c + c * jf * (r - (1 # 2)))) as Hlo.
  pose proof (Qlt_floor (c + c * jf * (r - (1 # 2)))) as Hhi.
  rewrite inject_Z_plus in Hhi.
  assert (Hp : (0 <= c * jf)%Q) by (apply Qmult_le_0_compat; assumption).
  set (p := (c * jf)%Q) in *.
  assert (H1 : (0 <= p * r)%Q) by (apply Qmult_le_0_compat; assumption).
  assert (H2 : (0 <= p * (1 - r))%Q) by (apply Qmult_le_0_compat; lra).
  change (inject_Z 1) with 1%Q in Hhi.
  set (f := inject_Z (Qfloor _)) in *. clearbody f.
  split; lra.
Qed.

Lemma pow2_step (n : Z) : (Qpower 2 (n + 1) == 2 * Qpower 2 n)%Q.
Proof. rewrite Qpower_plus by discriminate. simpl. ring. Qed.

Lemma pow2_nonneg (n : Z) : (0 <= Qpower 2 n)%Q.
Proof. apply Qpower_0_le. discriminate. Qed.

(** The capped delay never decreases from one attempt to the next and never
    exceeds the cap. *)
Lemma cappedDelay_monotone (cfg : RetryConfig) (n : Z) :
  (0 <= baseDelayMs cfg)%Q ->
  (cappedDelay n cfg <= cappedDelay (n + 1) cfg)%Q
  /\ (cappedDelay n cfg <= maxDelayMs cfg)%Q.
Proof.
  intros Hb. unfold cappedDelay. split; [|apply Q.le_min_r].
  apply Q.min_le_compat_r.
  replace (n + 1 - 1)%Z with (n - 1 + 1)%Z by lia.
  rewrite pow2_step. pose proof (pow2_nonneg (n - 1)) as Hp.
  set (p := Qpower 2 (n - 1)) in *.
  assert (H1 : (0 <= baseDelayMs cfg * p)%Q) by (apply Qmult_le_0_compat; assumption).
  lra.
Qed.

Lemma cappedDelay_nonneg (cfg : RetryConfig) (n : Z) :
  (0 <= baseDelayMs cfg)%Q -> (0 <= maxDelayMs cfg)%Q ->
  (0 <= cappedDelay n cfg)%Q.
Proof.
  intros Hb Hm. unfold cappedDelay. apply Q.min_glb; [|exact Hm].
  apply Qmult_le_0_compat; [exact Hb|apply pow2_nonneg].
Qed.

Lemma calculateBackoffDelay_within_jitter (cfg : RetryConfig) (n : Z) (r : Q) :
  (0 <= baseDelayMs cfg)%Q -> (0 <= maxDelayMs cfg)%Q ->
  (0 <= jitterFactor cfg)%Q -> (0 <= r)%Q -> (r < 1)%Q ->
  within_jitter cfg n (calculateBackoffDelay n cfg r).
Proof.
  intros Hb Hm Hj Hr0 Hr1. unfold within_jitter, calculateBackoffDelay.
  cbv zeta. apply jitter_band; try assumption.
  apply cappedDelay_nonneg; assumption.
Qed.

(** Every delay of a run of retries lies in the jitter band of its attempt. *)
Lemma backoff_delays_within_jitter (cfg : RetryConfig) (random : nat -> Q)
    (n : nat) : forall (attempt : Z) (draw : nat),
  (0 <= baseDelayMs cfg)%Q -> (0 <= maxDelayMs cfg)%Q ->
  (0 <= jitterFactor cfg)%Q ->
  (forall d, (0 <= random d)%Q /\ (random d < 1)%Q) ->
  Forall2 (within_jitter cfg)
    (map (fun i => (attempt + Z.of_nat i)%Z) (seq 0 n))
    (backoff_delays cfg random attempt draw n).
Proof.
  induction n as [|n IH]; intros attempt draw Hb Hm Hj Hr; simpl.
  - constructor.
  - constructor.
    + rewrite Z.add_0_r. apply calculateBackoffDelay_within_jitter; try assumption;
        apply Hr.
    + rewrite <- seq_shift, map_map.
      erewrite map_ext; [apply (IH (attempt + 1)%Z (Datatypes.S draw)); assumption|].
      intros i. simpl. lia.
Qed.

Section Wrapper.
Variables (T S : Type).
Variable features : Features.
Variable operation : S -> completion T * S.
Variable random : nat -> Q.
Variable context : CorrelationContext.
Variable retryConfig : PartialRetryConfig.

#[local] Abbreviation cfg := (merge_config (defaultRetryConfig features) retryConfig).
#[local] Abbreviation withRetry :=
  (withRetry features operation random context retryConfig).
#[local] Abbreviation after_attempts := (after_attempts operation random cfg).
#[local] Abbreviation terminal_error := (terminal_error context).

Lemma reach_attempt (k : nat) (w : World S) :
  1 <= k -> (Z.of_nat k <= maxAttempts cfg)%Z ->
  fails_retryably operation (k - 1) (backend w) = true ->
  exists lastError remaining,
    retry_loop operation random cfg (Z.to_nat (maxAttempts cfg)) 1 None w
    = retry_loop operation random cfg (Datatypes.S remaining) (Z.of_nat k)
        lastError (after_retries operation random cfg 1 (k - 1) w).
Proof.
  intros Hk Hmax Hfail.
  destruct (@retry_loop_retries T S operation random cfg (k - 1)
              (Datatypes.S (Z.to_nat (maxAttempts cfg) - k)) 1%Z None w Hfail)
    as [lastError Hl]; [lia|].
  exists lastError, (Z.to_nat (maxAttempts cfg) - k).
  replace (1 + Z.of_nat (k - 1))%Z with (Z.of_nat k) in Hl by lia.
  replace (k - 1 + Datatypes.S (Z.to_nat (maxAttempts cfg) - k))
    with (Z.to_nat (maxAttempts cfg)) in Hl by lia.
  exact Hl.
Qed.

Lemma after_final_attempt (k : nat) (w : World S) :
  1 <= k ->
  let w1 := after_retries operation random cfg 1 (k - 1) w in
  {| backend := snd (operation (backend w1));
     invocations := Datatypes.S (invocations w1);
     slept := slept w1; draws := draws w1 |}
  = after_attempts k w.
Proof.
  intros Hk. cbv zeta. unfold after_retries, after_attempts.
  cbn [backend invocations slept draws].
  rewrite <- state_after_S. replace (Datatypes.S (k - 1)) with k by lia.
  f_equal. lia.
Qed.

Lemma withRetry_succeeds (k : nat) (v : T) (w : World S) :
  enableRetries features = true ->
  1 <= k -> (Z.of_nat k <= maxAttempts cfg)%Z ->
  fails_retryably operation (k - 1) (backend w) = true ->
  outcome_of_attempt operation k (backend w) = Return v ->
  withRetry w = (Return v, after_attempts k w).
Proof.
  intros Hen Hk Hmax Hfail Hok. unfold ErrorHandling.withRetry.
  rewrite Hen. cbn [negb].
  destruct (reach_attempt w Hk Hmax Hfail) as (lastError & remaining & ->).
  rewrite (@retry_loop_returns T S operation random cfg remaining _ lastError _ v)
    by exact Hok.
  rewrite after_final_attempt by assumption. reflexivity.
Qed.

Lemma withRetry_gives_up (k : nat) (e : exn) (w : World S) :
  enableRetries features = true ->
  1 <= k -> (Z.of_nat k <= maxAttempts cfg)%Z ->
  fails_retryably operation (k - 1) (backend w) = true ->
  outcome_of_attempt operation k (backend w) = Throw e ->
  Z.of_nat k = maxAttempts cfg \/ isRetryableError e = false ->
  withRetry w = (Throw (terminal_error e), after_attempts k w).
Proof.
  intros Hen Hk Hmax Hfail Herr Hterm. unfold ErrorHandling.withRetry.
  rewrite Hen. cbn [negb].
  destruct (reach_attempt w Hk Hmax Hfail) as (lastError & remaining & ->).
  rewrite (@retry_loop_breaks T S operation random cfg remaining _ lastError _ e).
  - rewrite after_final_attempt by assumption. reflexivity.
  - exact Herr.
  - destruct Hterm as [Hlast|Hnon].
    + rewrite Hlast, Z.ltb_irrefl. reflexivity.
    + rewrite Hnon. apply andb_false_r.
Qed.

Lemma withRetry_no_attempt (w : World S) :
  enableRetries features = true ->
  (maxAttempts cfg <= 0)%Z ->
  withRetry w
  = (Throw (ActionAgentError (lit "Operation failed after retries") context
              (Some false) None None), w).
Proof.
  intros Hen Hmax. unfold ErrorHandling.withRetry. rewrite Hen. cbn [negb].
  replace (Z.to_nat (maxAttempts cfg)) with 0 by lia. reflexivity.
Qed.

(** C3: with retries enabled, an operation that fails with retryable errors
    on attempts 1..k-1 and succeeds on attempt k, k within the maximum attempt
    count, makes the wrapper return that success after exactly k invocations,
    having slept the k-1 backoff delays; an operation whose attempt k fails
    for good (k is the last allowed attempt, or the error is not retryable)
    makes it raise, after exactly k invocations, a terminal error that
    carries the correlation id, and so does a maximum attempt count that
    allows no attempt.  The delay slept after failed attempt n lies in the
    jitter band around min(baseDelay * 2^(n-1), maxDelay), and that capped
    delay never decreases with n and never exceeds the cap. *)
Theorem withRetry_spec (w : World S) :
  enableRetries features = true ->
  (forall k v,
      1 <= k -> (Z.of_nat k <= maxAttempts cfg)%Z ->
      fails_retryably operation (k - 1) (backend w) = true ->
      outcome_of_attempt operation k (backend w) = Return v ->
      withRetry w = (Return v, after_attempts k w)
      /\ invocations (after_attempts k w) = invocations w + k
      /\ slept (after_attempts k w)
         = slept w ++ backoff_delays cfg random 1 (draws w) (k - 1))
  /\ (forall k e,
        1 <= k -> (Z.of_nat k <= maxAttempts cfg)%Z ->
        fails_retryably operation (k - 1) (backend w) = true ->
        outcome_of_attempt operation k (backend w) = Throw e ->
        Z.of_nat k = maxAttempts cfg \/ isRetryableError e = false ->
        withRetry w = (Throw (terminal_error e), after_attempts k w)
        /\ error_correlationId (terminal_error e) = Some (correlationId context)
        /\ invocations (after_attempts k w) = invocations w + k)
  /\ ((maxAttempts cfg <= 0)%Z ->
      exists e, withRetry w = (Throw e, w)
                /\ error_correlationId e = Some (correlationId context))
  /\ ((0 <= baseDelayMs cfg)%Q -> (0 <= maxDelayMs cfg)%Q ->
      (0 <= jitterFactor cfg)%Q ->
      (forall d, (0 <= random d)%Q /\ (random d < 1)%Q) ->
      forall n,
        Forall2 (within_jitter cfg)
          (map (fun i => (1 + Z.of_nat i)%Z) (seq 0 n))
          (backoff_delays cfg random 1 (draws w) n)
        /\ forall attempt : Z,
             (cappedDelay attempt cfg <= cappedDelay (attempt + 1) cfg)%Q
             /\ (cappedDelay attempt cfg <= maxDelayMs cfg)%Q).
Proof.
  intros Hen. split; [|split; [|split]].
  - intros k v Hk Hmax Hfail Hok.
    split; [apply withRetry_succeeds; assumption|]. split; reflexivity.
  - intros k e Hk Hmax Hfail Herr Hterm.
    split; [apply withRetry_gives_up; assumption|]. split; reflexivity.
  - intros Hmax. eexists. split; [apply withRetry_no_attempt; assumption|].
    reflexivity.
  - intros Hb Hm Hj Hr n. split.
    + apply backoff_delays_within_jitter; assumption.
    + intros attempt. apply cappedDelay_monotone. exact Hb.
Qed.
End Wrapper.

Lemma withRetry_spec_witness :
  withRetry Stubs.features (Stubs.flaky 2) Stubs.no_jitter Stubs.context
    no_overrides Stubs.idle
  = (Return (lit "{}"),
     {| backend := 3; invocations := 3; slept := [1000; 2000]%Z; draws := 2 |})
  /\ (exists e w,
        withRetry Stubs.features (Stubs.flaky 3) Stubs.no_jitter Stubs.context
          no_overrides Stubs.idle = (Throw e, w)
        /\ error_correlationId e = Some (lit "c0ffee")
        /\ invocations w = 3)
  /\ (exists e w,
        withRetry Stubs.features Stubs.rejecting Stubs.no_jitter Stubs.context
          no_overrides Stubs.idle = (Throw e, w)
        /\ error_correlationId e = Some (lit "c0ffee")
        /\ invocations w = 1).
Proof.
  split; [|split].
  - destruct (@withRetry_spec str nat Stubs.features (Stubs.flaky 2)
                Stubs.no_jitter Stubs.context no_overrides Stubs.idle eq_refl)
      as (Hok & _).
    destruct (Hok 3 (lit "{}")) as (Hrun & _);
      [lia | vm_compute; discriminate | reflexivity | reflexivity |].
    rewrite Hrun. reflexivity.
  - destruct (@withRetry_spec str nat Stubs.features (Stubs.flaky 3)
                Stubs.no_jitter Stubs.context no_overrides Stubs.idle eq_refl)
      as (_ & Hfail & _).
    destruct (Hfail 3 (JsError (lit "Error") (lit "Request failed with status 503")))
      as (Hrun & Hid & Hinv);
      [lia | vm_compute; discriminate | reflexivity | reflexivity
      | left; reflexivity |].
    eexists. eexists. split; [exact Hrun|]. split; [exact Hid|exact Hinv].
  - destruct (@withRetry_spec str nat Stubs.features Stubs.rejecting
                Stubs.no_jitter Stubs.context no_overrides Stubs.idle eq_refl)
      as (_ & Hfail & _).
    destruct (Hfail 1 (JsError (lit "Error") (lit "Request failed with status 400")))
      as (Hrun & Hid & Hinv);
      [lia | vm_compute; discriminate | reflexivity | reflexivity
      | right; reflexivity |].
    eexists. eexists. split; [exact Hrun|]. split; [exact Hid|exact Hinv].
Defined.
End RetryFacts.

(** ** Whitespace and the caption normalizer *)

Module WhitespaceFacts.
Import JS Spec StrFacts.

Lemma trimStart_decompose (s : str) :
  exists w, s = w ++ trimStart s /\ forallb isWhitespace w = true.
Proof.
  induction s as [|c r IH]; simpl.
  - exists []. split; reflexivity.
  - destruct (isWhitespace c) eqn:E.
    + destruct IH as (w & Hs & Hw). exists (c :: w). simpl. rewrite E, Hw.
      split; [congruence|reflexivity].
    + exists []. split; reflexivity.
Qed.

Lemma trimStart_head (s : str) :
  match trimStart s with
  | [] => True
  | c :: _ => isWhitespace c = false
  end.
Proof.
  induction s as [|c r IH]; simpl; [exact I|].
  destruct (isWhitespace c) eqn:E; [exact IH|exact E].
Qed.

Lemma trimStart_fixed (s : str) :
  match s with [] => True | c :: _ => isWhitespace c = false end ->
  trimStart s = s.
Proof. destruct s as [|c r]; simpl; [reflexivity|]. intros ->. reflexivity. Qed.

Lemma trimStart_idempotent (s : str) : trimStart (trimStart s) = trimStart s.
Proof. apply trimStart_fixed, trimStart_head. Qed.

Lemma trimEnd_decompose (s : str) :
  exists w, s = trimEnd s ++ w /\ forallb isWhitespace w = true.
Proof.
  unfold trimEnd. destruct (trimStart_decompose (rev s)) as (w & Hs & Hw).
  exists (rev w). split.
  - rewrite <- rev_app_distr, <- Hs, rev_involutive. reflexivity.
  - rewrite forallb_forall in *. intros c Hc. apply Hw. apply in_rev. exact Hc.
Qed.

Lemma trimEnd_idempotent (s : str) : trimEnd (trimEnd s) = trimEnd s.
Proof.
  unfold trimEnd. rewrite rev_involutive, trimStart_idempotent. reflexivity.
Qed.

(** Trimming the end keeps a first character that is not whitespace. *)
Lemma trimEnd_head (s : str) :
  match s with [] => True | c :: _ => isWhitespace c = false end ->
  match trimEnd s with [] => True | c :: _ => isWhitespace c = false end.
Proof.
  intros H. destruct (trimEnd_decompose s) as (w & Hs & Hw).
  destruct (trimEnd s) as [|c r]; [exact I|].
  rewrite Hs in H. exact H.
Qed.

Lemma trim_idempotent (s : str) : trim (trim s) = trim s.
Proof.
  unfold trim. rewrite (trimStart_fixed (trimEnd (trimStart s))).
  - apply trimEnd_idempotent.
  - apply trimEnd_head, trimStart_head.
Qed.

(** *** Collapsed text *)

Lemma collapse_single_spaced (s : str) : forall b,
  single_spaced b (replace_runs isWhitespace b s) = true.
Proof.
  induction s as [|c r IH]; intros b; simpl; [reflexivity|].
  destruct (isWhitespace c) eqn:E.
  - destruct b; [apply IH|]. simpl. apply IH.
  - simpl. rewrite E. apply IH.
Qed.

Lemma single_spaced_fixed (s : str) : forall b,
  single_spaced b s = true -> replace_runs isWhitespace b s = s.
Proof.
  induction s as [|c r IH]; intros b H; simpl in *; [reflexivity|].
  destruct (isWhitespace c) eqn:E.
  - apply andb_true_iff in H as [H Hr]. apply andb_true_iff in H as [Hb Hc].
    apply negb_true_iff in Hb. subst b. apply Ascii.eqb_eq in Hc. subst c.
    rewrite (IH _ Hr). reflexivity.
  - rewrite (IH _ H). reflexivity.
Qed.

Lemma single_spaced_prefix (s1 s2 : str) : forall b,
  single_spaced b (s1 ++ s2) = true -> single_spaced b s1 = true.
Proof.
  induction s1 as [|c r IH]; intros b H; simpl in *; [reflexivity|].
  destruct (isWhitespace c).
  - apply andb_true_iff in H as [H Hr]. rewrite H. simpl. eapply IH; eauto.
  - eapply IH; eauto.
Qed.

Lemma single_spaced_trimStart (s : str) : forall b b',
  single_spaced b s = true -> single_spaced b' (trimStart s) = true.
Proof.
  induction s as [|c r IH]; intros b b' H; simpl in *; [reflexivity|].
  destruct (isWhitespace c) eqn:E.
  - apply andb_true_iff in H as [_ Hr]. eapply IH; eauto.
  - simpl. rewrite E. exact H.
Qed.

Lemma single_spaced_trim (s : str) :
  single_spaced false s = true -> single_spaced false (trim s) = true.
Proof.
  intros H. unfold trim.
  destruct (trimEnd_decompose (trimStart s)) as (w & Hs & _).
  apply (@single_spaced_prefix _ w). rewrite <- Hs.
  eapply single_spaced_trimStart; eauto.
Qed.

Lemma single_spaced_whitespace (s : str) : forall b c,
  single_spaced b s = true -> In c s -> isWhitespace c = true -> c = " "%char.
Proof.
  induction s as [|a r IH]; intros b c H Hin Hc; simpl in *; [contradiction|].
  destruct (isWhitespace a) eqn:E.
  - apply andb_true_iff in H as [H Hr]. apply andb_true_iff in H as [_ Ha].
    apply Ascii.eqb_eq in Ha. destruct Hin as [<-|Hin]; [exact Ha|].
    eapply IH; eauto.
  - destruct Hin as [<-|Hin]; [congruence|]. eapply IH; eauto.
Qed.

Lemma split_char_absent (sep : ascii) (s : str) :
  ~ In sep s -> split_char sep s = [s].
Proof.
  induction s as [|c r IH]; simpl; intros H; [reflexivity|].
  destruct (Ascii.eqb c sep) eqn:E.
  - apply Ascii.eqb_eq in E. subst. tauto.
  - rewrite IH by tauto. reflexivity.
Qed.

End WhitespaceFacts.

Module CaptionFacts.
Import JS GraphService Spec StrFacts WhitespaceFacts.

(** What the normalizer's last step guarantees about its output. *)
Lemma output_normalized (x : str) :
  let t := trim (collapse_whitespace x) in
  trim t = t /\ collapse_whitespace t = t /\ ~ In newline t.
Proof.
  cbv zeta.
  assert (Hs : single_spaced false (trim (collapse_whitespace x)) = true).
  { apply single_spaced_trim. apply collapse_single_spaced. }
  split; [apply trim_idempotent|]. split.
  - apply single_spaced_fixed. exact Hs.
  - intros Hin.
    pose proof (@single_spaced_whitespace _ _ _ Hs Hin eq_refl) as H.
    discriminate H.
Qed.

Lemma parseVttToText_normalized (s : str) :
  let t := parseVttToText s in
  trim t = t /\ collapse_whitespace t = t /\ ~ In newline t.
Proof.
  cbv zeta. unfold parseVttToText.
  destruct (negb (nonempty s)).
  - repeat split; try reflexivity. intros [].
  - destruct (fold_left vtt_line (split_char newline s) ([], [])) as [textLines sp].
    apply output_normalized.
Qed.

(** On normalized text that no rule applies to, the normalizer is the
    identity. *)
Lemma parseVttToText_plain (t : str) :
  trim t = t -> collapse_whitespace t = t -> ~ In newline t ->
  plain_text t = true ->
  parseVttToText t = t.
Proof.
  intros Htrim Hcol Hnl Hplain. unfold parseVttToText.
  destruct t as [|c r]; [reflexivity|]. cbn [nonempty negb].
  rewrite split_char_absent by assumption. cbn [fold_left].
  unfold vtt_line. rewrite Htrim. cbn [nonempty negb orb].
  unfold plain_text in Hplain.
  repeat (apply andb_true_iff in Hplain as [Hplain ?]).
  repeat match goal with
         | H : negb _ = true |- _ => apply negb_true_iff in H; rewrite H
         end.
  cbn [orb].
  destruct (speaker_match (c :: r)); [discriminate|].
  cbn [length Nat.ltb Nat.leb]. cbn [app join]. rewrite Hcol. exact Htrim.
Qed.

(** C8, amended: normalizing already-normalized caption text is a no-op
    whenever that text is plain, that is, no rule of the normalizer applies
    to it any more: it is not the header [WEBVTT], does not start with
    [NOTE], holds no timing arrow, is not all digits and holds no speaker
    tag. *)
Theorem normalized_plain_text_is_fixed_point (s : str) :
  plain_text (parseVttToText s) = true ->
  parseVttToText (parseVttToText s) = parseVttToText s.
Proof.
  intros Hplain. destruct (parseVttToText_normalized s) as (Ht & Hc & Hn).
  apply parseVttToText_plain; assumption.
Qed.

(** C8, as stated, fails: the output for a speaker called NOTE starts with
    [NOTE], and normalizing it again discards it as a note line. *)
Lemma normalizer_is_not_idempotent :
  parseVttToText (parseVttToText (lit "<v NOTE>hi"))
  <> parseVttToText (lit "<v NOTE>hi").
Proof. vm_compute. discriminate. Qed.

Lemma normalized_plain_text_is_fixed_point_witness :
  parseVttToText (parseVttToText Stubs.captions) = parseVttToText Stubs.captions.
Proof.
  apply (@normalized_plain_text_is_fixed_point Stubs.captions).
  vm_compute. reflexivity.
Defined.
Example captions_normalized :
  parseVttToText Stubs.captions
  = lit "Sam: I will fix the login timeout bug by tomorrow. Jess: Sounds good, thanks.".
Proof. vm_compute. reflexivity. Qed.

(** Other outputs that are not fixed points: text that holds a timing arrow
    once its lines are joined, and text with a second speaker tag on one
    line (the caption text of end-to-end scenario A). *)
Example normalizer_is_not_idempotent_more :
  parseVttToText (join [newline] [lit "a -->"; lit "b"]) = lit "a --> b"
  /\ parseVttToText (lit "a --> b") = []
  /\ parseVttToText
       (parseVttToText
          (lit "<v Sam>I will fix the login timeout bug by tomorrow. <v Jess>Sounds good, thanks."))
     = lit "Jess: Sounds good, thanks.".
Proof. repeat split; vm_compute; reflexivity. Qed.

End CaptionFacts.

(** ** Chunker *)

Module ChunkerFacts.
Import JS OpenAIService Spec Invariants ChunkTokens StrFacts WhitespaceFacts.

(** *** Reconstruction *)

Lemma strip_app (a b : str) :
  strip_whitespace (a ++ b) = strip_whitespace a ++ strip_whitespace b.
Proof. apply filter_app. Qed.

Lemma strip_all_whitespace (w : str) :
  forallb isWhitespace w = true -> strip_whitespace w = [].
Proof.
  induction w as [|c w IH]; simpl; [reflexivity|]. intros H.
  apply andb_true_iff in H as [Hc Hw]. rewrite Hc. simpl. auto.
Qed.

Lemma strip_trimStart (s : str) : strip_whitespace (trimStart s) = strip_whitespace s.
Proof.
  destruct (trimStart_decompose s) as (w & Hs & Hw).
  transitivity (strip_whitespace (w ++ trimStart s)); [|congruence].
  rewrite strip_app, (strip_all_whitespace _ Hw). reflexivity.
Qed.

Lemma strip_trimEnd (s : str) : strip_whitespace (trimEnd s) = strip_whitespace s.
Proof.
  destruct (trimEnd_decompose s) as (w & Hs & Hw).
  transitivity (strip_whitespace (trimEnd s ++ w)); [|congruence].
  rewrite strip_app, (strip_all_whitespace _ Hw), app_nil_r. reflexivity.
Qed.

Lemma strip_trim (s : str) : strip_whitespace (trim s) = strip_whitespace s.
Proof. unfold trim. rewrite strip_trimEnd, strip_trimStart. reflexivity. Qed.

Lemma strip_blank (s : str) : nonblank s = false -> strip_whitespace s = [].
Proof.
  unfold nonblank. intros H. rewrite <- strip_trim.
  destruct (trim s); [reflexivity|discriminate].
Qed.

Lemma strip_space (s : str) : strip_whitespace (s ++ lit " ") = strip_whitespace s.
Proof. rewrite strip_app. simpl. apply app_nil_r. Qed.

Lemma concat_snoc (A : Type) (l : list (list A)) (x : list A) :
  concat (l ++ [x]) = concat l ++ x.
Proof. rewrite concat_app. simpl. rewrite app_nil_r. reflexivity. Qed.

Lemma concat_cons_to_head (c : ascii) (pieces : list str) :
  concat (cons_to_head c pieces) = c :: concat pieces.
Proof. destruct pieces; reflexivity. Qed.

Lemma strip_split_char_space (s : str) :
  strip_whitespace (concat (split_char " "%char s)) = strip_whitespace s.
Proof.
  induction s as [|c r IH]; simpl; [reflexivity|].
  destruct (Ascii.eqb c " "%char) eqn:E.
  - apply Ascii.eqb_eq in E. subst. simpl. exact IH.
  - rewrite concat_cons_to_head. simpl. rewrite IH. reflexivity.
Qed.

Lemma strip_split_sentences (s : str) : forall mode,
  strip_whitespace (concat (split_sentences_from mode s)) = strip_whitespace s.
Proof.
  induction s as [|c r IH]; intros mode; simpl; [destruct mode; reflexivity|].
  destruct mode as [after_end|].
  - destruct (after_end && isWhitespace c) eqn:E.
    + apply andb_true_iff in E as [_ E]. rewrite E. simpl. apply IH.
    + rewrite concat_cons_to_head. simpl. rewrite IH. reflexivity.
  - destruct (isWhitespace c) eqn:E.
    + simpl. apply IH.
    + rewrite concat_cons_to_head. simpl. rewrite E, IH. reflexivity.
Qed.

Lemma packed_push (chunks : list str) (cur rest : str) :
  strip_whitespace (concat (chunks ++ [trim cur]) ++ rest)
  = strip_whitespace (concat chunks ++ cur ++ rest).
Proof.
  rewrite concat_snoc, <- app_assoc, !strip_app, strip_trim. reflexivity.
Qed.

Lemma pack_word_packed (n : nat) (st : list str * str) (word : str) :
  packed (pack_word n st word) = packed st ++ strip_whitespace word.
Proof.
  destruct st as [chunks wc]. unfold pack_word, packed.
  destruct (n <? length wc + length word); cbn [fst snd].
  - rewrite packed_push. rewrite !strip_app. simpl. rewrite !app_nil_r.
    rewrite app_assoc. reflexivity.
  - rewrite !strip_app. simpl. rewrite !app_nil_r, app_assoc. reflexivity.
Qed.

Lemma pack_words_packed (n : nat) (words : list str) : forall st,
  packed (fold_left (pack_word n) words st)
  = packed st ++ strip_whitespace (concat words).
Proof.
  induction words as [|w words IH]; intros st; simpl.
  - rewrite app_nil_r. reflexivity.
  - rewrite IH, pack_word_packed, strip_app, app_assoc. reflexivity.
Qed.

Lemma pack_sentence_packed (n : nat) (st : list str * str) (sentence : str) :
  packed (pack_sentence n st sentence) = packed st ++ strip_whitespace sentence.
Proof.
  destruct st as [chunks cur]. unfold pack_sentence.
  destruct (n <? length cur + length sentence).
  - assert (Hpush :
      forall st', st' = (if 0 <? length cur then (chunks ++ [trim cur], [])
                         else (chunks, cur)) ->
      packed st' = packed (chunks, cur)).
    { intros st' ->. destruct cur as [|c cur]; [reflexivity|].
      cbn [length Nat.ltb Nat.leb]. unfold packed. cbn [fst snd].
      rewrite packed_push, app_nil_r. reflexivity. }
    destruct (if 0 <? length cur then (chunks ++ [trim cur], [])
              else (chunks, cur)) as [chunks1 cur1] eqn:E1.
    specialize (Hpush _ eq_refl).
    assert (Hcur1 : cur1 = []).
    { destruct cur; simpl in E1; congruence. }
    subst cur1.
    destruct (n <? length sentence).
    + pose proof (pack_words_packed n (split_char " "%char sentence) (chunks1, []))
        as Hw.
      destruct (fold_left (pack_word n) (split_char " "%char sentence) (chunks1, []))
        as [chunks2 wc].
      rewrite strip_split_char_space, Hpush in Hw.
      destruct (nonblank wc) eqn:Eb; [exact Hw|].
      rewrite <- Hw. unfold packed. cbn [fst snd].
      rewrite !strip_app, (strip_blank _ Eb). reflexivity.
    + rewrite <- Hpush. unfold packed. cbn [fst snd].
      rewrite !strip_app. simpl. rewrite !app_nil_r. reflexivity.
  - unfold packed. cbn [fst snd]. rewrite !strip_app. simpl.
    rewrite !app_nil_r, app_assoc. reflexivity.
Qed.

Lemma pack_sentences_packed (n : nat) (sentences : list str) : forall st,
  packed (fold_left (pack_sentence n) sentences st)
  = packed st ++ strip_whitespace (concat sentences).
Proof.
  induction sentences as [|x sentences IH]; intros st; simpl.
  - rewrite app_nil_r. reflexivity.
  - rewrite IH, pack_sentence_packed, strip_app, app_assoc. reflexivity.
Qed.

Lemma chunks_reconstruct (text : str) (n : nat) :
  strip_whitespace (concat (splitIntoChunks text n)) = strip_whitespace text.
Proof.
  unfold splitIntoChunks.
  pose proof (pack_sentences_packed n (split_sentences text) ([], [])) as H.
  destruct (fold_left (pack_sentence n) (split_sentences text) ([], []))
    as [chunks cur].
  unfold split_sentences in H. rewrite strip_split_sentences in H.
  unfold packed in H. cbn [fst snd] in H. simpl in H. rewrite <- H.
  destruct (nonblank cur) eqn:Eb.
  - rewrite <- (app_nil_r (concat (chunks ++ [trim cur]))).
    rewrite packed_push, app_nil_r. reflexivity.
  - rewrite strip_app, (strip_blank _ Eb), app_nil_r. reflexivity.
Qed.

(** *** Chunk lengths *)

Lemma length_trimStart (s : str) : length (trimStart s) <= length s.
Proof.
  induction s as [|c r IH]; simpl; [lia|].
  destruct (isWhitespace c); simpl; lia.
Qed.

Lemma length_trimEnd (s : str) : length (trimEnd s) <= length s.
Proof.
  unfold trimEnd. rewrite length_rev.
  pose proof (length_trimStart (rev s)) as H. rewrite length_rev in H. exact H.
Qed.

Lemma length_trim (s : str) : length (trim s) <= length s.
Proof.
  unfold trim. pose proof (length_trimEnd (trimStart s)).
  pose proof (length_trimStart s). lia.
Qed.

Lemma trimEnd_snoc_space (s : str) : trimEnd (s ++ lit " ") = trimEnd s.
Proof. unfold trimEnd. rewrite rev_app_distr. reflexivity. Qed.

Lemma trimStart_snoc_space (s : str) :
  trimStart (s ++ lit " ") = [] \/ trimStart (s ++ lit " ") = trimStart s ++ lit " ".
Proof.
  induction s as [|c r IH]; simpl; [now left|].
  destruct (isWhitespace c); [exact IH|now right].
Qed.

(** Trimming removes at least the space a packing loop appends. *)
Lemma length_trim_snoc_space (s : str) : length (trim (s ++ lit " ")) <= length s.
Proof.
  unfold trim. destruct (trimStart_snoc_space s) as [-> | ->].
  - simpl. lia.
  - rewrite trimEnd_snoc_space.
    pose proof (length_trimEnd (trimStart s)). pose proof (length_trimStart s).
    lia.
Qed.

Lemma fits_trim (n : nat) (cur : str) : fits n cur -> length (trim cur) <= n.
Proof.
  intros [-> | (body & -> & Hb)]; [simpl; lia|].
  pose proof (length_trim_snoc_space body). lia.
Qed.

Lemma bounded_snoc (n : nat) (chunks : list str) (chunk : str) :
  bounded n chunks -> length chunk <= n -> bounded n (chunks ++ [chunk]).
Proof.
  intros Hc Hx. apply Forall_app. split; [exact Hc|]. constructor; [exact Hx|constructor].
Qed.

Lemma pack_word_fits (n : nat) (chunks : list str) (wc word : str) :
  bounded n chunks -> fits n wc -> length word <= n ->
  bounded n (fst (pack_word n (chunks, wc) word))
  /\ fits n (snd (pack_word n (chunks, wc) word)).
Proof.
  intros Hc Hw Hword. unfold pack_word.
  destruct (n <? length wc + length word) eqn:E; cbn [fst snd].
  - split.
    + apply bounded_snoc; [exact Hc|]. apply fits_trim. exact Hw.
    + right. exists word. split; [reflexivity|exact Hword].
  - apply Nat.ltb_ge in E. split; [exact Hc|]. right.
    exists (wc ++ word). split; [rewrite app_assoc; reflexivity|].
    rewrite length_app. exact E.
Qed.

Lemma pack_words_fit (n : nat) (words : list str) : forall chunks wc,
  bounded n chunks -> fits n wc -> bounded n words ->
  bounded n (fst (fold_left (pack_word n) words (chunks, wc)))
  /\ fits n (snd (fold_left (pack_word n) words (chunks, wc))).
Proof.
  induction words as [|w words IH]; intros chunks wc Hc Hw Hwords;
    cbn [fold_left].
  - split; assumption.
  - inversion Hwords as [|? ? Hw1 Hrest]; subst.
    destruct (pack_word_fits w Hc Hw Hw1) as [Hc' Hw'].
    destruct (pack_word n (chunks, wc) w) as [chunks' wc'].
    apply IH; assumption.
Qed.

Lemma pack_sentence_fits (n : nat) (chunks : list str) (cur sentence : str) :
  bounded n chunks -> fits n cur ->
  (n < length sentence -> bounded n (split_char " "%char sentence)) ->
  bounded n (fst (pack_sentence n (chunks, cur) sentence))
  /\ fits n (snd (pack_sentence n (chunks, cur) sentence)).
Proof.
  intros Hc Hcur Hwords. unfold pack_sentence.
  destruct (n <? length cur + length sentence) eqn:E.
  - assert (Hpush : bounded n (fst (if 0 <? length cur
                                     then (chunks ++ [trim cur], [])
                                     else (chunks, cur)))
                    /\ snd (if 0 <? length cur
                            then (chunks ++ [trim cur], @nil ascii)
                            else (chunks, cur)) = []).
    { destruct cur as [|c cur]; [split; [exact Hc|reflexivity]|].
      cbn [length Nat.ltb Nat.leb fst snd]. split; [|reflexivity].
      apply bounded_snoc; [exact Hc|]. apply fits_trim. exact Hcur. }
    destruct (if 0 <? length cur then (chunks ++ [trim cur], [])
              else (chunks, cur)) as [chunks1 cur1].
    cbn [fst snd] in Hpush. destruct Hpush as [Hc1 ->].
    destruct (n <? length sentence) eqn:Es.
    + apply Nat.ltb_lt in Es.
      assert (H2 := @pack_words_fit n (split_char " "%char sentence) chunks1 []
                      Hc1 (or_introl eq_refl) (Hwords Es)).
      match goal with
      | |- context [fold_left ?f ?l ?a] =>
          change (bounded n (fst (fold_left f l a))
                  /\ fits n (snd (fold_left f l a))) in H2;
          destruct (fold_left f l a) as [chunks2 wc]
      end.
      destruct H2 as [Hc2 Hw2].
      cbn [fst snd] in *. destruct (nonblank wc); cbn [fst snd].
      * split; assumption.
      * split; [assumption|now left].
    + apply Nat.ltb_ge in Es. cbn [fst snd]. split; [exact Hc1|].
      right. exists sentence. split; [reflexivity|exact Es].
  - apply Nat.ltb_ge in E. cbn [fst snd]. split; [exact Hc|]. right.
    exists (cur ++ sentence). split; [rewrite app_assoc; reflexivity|].
    rewrite length_app. exact E.
Qed.

Lemma pack_sentences_fit (n : nat) (sentences : list str) : forall chunks cur,
  bounded n chunks -> fits n cur ->
  Forall (fun sentence => bounded n (split_char " "%char sentence)) sentences ->
  bounded n (fst (fold_left (pack_sentence n) sentences (chunks, cur)))
  /\ fits n (snd (fold_left (pack_sentence n) sentences (chunks, cur))).
Proof.
  induction sentences as [|x sentences IH]; intros chunks cur Hc Hcur Hs;
    cbn [fold_left].
  - split; assumption.
  - inversion Hs as [|? ? Hx Hrest]; subst.
    destruct (@pack_sentence_fits n chunks cur x Hc Hcur) as [Hc' Hcur']; [auto|].
    destruct (pack_sentence n (chunks, cur) x) as [chunks' cur'].
    apply IH; assumption.
Qed.

(** Chunks stay within the threshold when the words of every sentence do. *)
Lemma chunks_bounded_by_sentence_words (text : str) (n : nat) :
  Forall (fun sentence => bounded n (split_char " "%char sentence))
         (split_sentences text) ->
  bounded n (splitIntoChunks text n).
Proof.
  intros Hs. unfold splitIntoChunks.
  assert (H := @pack_sentences_fit n (split_sentences text) [] []
                 (Forall_nil _) (or_introl eq_refl) Hs).
  match goal with
  | |- context [fold_left ?f ?l ?a] =>
      change (bounded n (fst (fold_left f l a))
              /\ fits n (snd (fold_left f l a))) in H;
      destruct (fold_left f l a) as [chunks cur]
  end.
  destruct H as [Hc Hcur].
  cbn [fst snd] in *. destruct (nonblank cur); [|exact Hc].
  apply bounded_snoc; [exact Hc|]. apply fits_trim. exact Hcur.
Qed.

(** *** Words of sentences and words of the text *)

Lemma split_char_nonempty (sep : ascii) (s : str) : split_char sep s <> [].
Proof.
  destruct s as [|c r]; simpl; [discriminate|].
  destruct (Ascii.eqb c sep); [discriminate|].
  destruct (split_char sep r); discriminate.
Qed.

Lemma bounded_hd_tl (n : nat) (pieces : list str) :
  pieces <> [] ->
  (bounded n pieces <-> length (hd [] pieces) <= n /\ bounded n (tl pieces)).
Proof.
  destruct pieces as [|h t]; [congruence|]. intros _. simpl. split.
  - intros H. inversion H; subst. split; assumption.
  - intros [Hh Ht]. constructor; assumption.
Qed.

Lemma bounded_cons_to_head (n : nat) (c : ascii) (pieces : list str) :
  pieces <> [] ->
  (bounded n (cons_to_head c pieces)
   <-> S (length (hd [] pieces)) <= n /\ bounded n (tl pieces)).
Proof.
  destruct pieces as [|h t]; [congruence|]. intros _. simpl. split.
  - intros H. inversion H; subst. split; assumption.
  - intros [Hh Ht]. constructor; assumption.
Qed.

Lemma split_char_app_hd (sep : ascii) (x y : str) :
  length (hd [] (split_char sep x)) <= length (hd [] (split_char sep (x ++ y))).
Proof.
  induction x as [|c r IH]; simpl; [lia|].
  destruct (Ascii.eqb c sep); simpl; [lia|].
  pose proof (split_char_nonempty sep r) as H1.
  pose proof (split_char_nonempty sep (r ++ y)) as H2.
  destruct (split_char sep r); [congruence|].
  destruct (split_char sep (r ++ y)); [congruence|]. simpl in *. lia.
Qed.

(** The words of a part of a text are no longer than the words of the text. *)
Lemma bounded_split_char_app (n : nat) (sep : ascii) (x y : str) :
  bounded n (split_char sep (x ++ y)) ->
  bounded n (split_char sep x) /\ bounded n (split_char sep y).
Proof.
  induction x as [|c r IH]; simpl; intros H.
  - split; [|exact H]. constructor; [simpl; lia|constructor].
  - destruct (Ascii.eqb c sep).
    + inversion H as [|? ? _ Hrest]; subst. destruct (IH Hrest) as [Hr Hy].
      split; [|exact Hy]. constructor; [simpl; lia|exact Hr].
    + apply bounded_cons_to_head in H; [|apply split_char_nonempty].
      destruct H as [Hh Ht].
      destruct IH as [Hr Hy].
      { apply bounded_hd_tl; [apply split_char_nonempty|]. split; [lia|exact Ht]. }
      split; [|exact Hy].
      apply bounded_cons_to_head; [apply split_char_nonempty|].
      apply bounded_hd_tl in Hr; [|apply split_char_nonempty].
      pose proof (split_char_app_hd sep r y). split; [lia|tauto].
Qed.

Lemma split_sentences_nonempty (s : str) : forall mode,
  split_sentences_from mode s <> [].
Proof.
  induction s as [|c r IH]; intros mode; simpl; [destruct mode; discriminate|].
  destruct mode as [e|].
  - destruct (e && isWhitespace c); [discriminate|].
    destruct (split_sentences_from _ r); discriminate.
  - destruct (isWhitespace c); [apply IH|].
    destruct (split_sentences_from _ r); discriminate.
Qed.

(** The first sentence found from inside a sentence starts where the scan
    starts. *)
Lemma first_sentence_prefix (s : str) : forall e,
  exists rest, s = hd [] (split_sentences_from (InSentence e) s) ++ rest.
Proof.
  induction s as [|c r IH]; intros e; simpl.
  - exists []. reflexivity.
  - destruct (e && isWhitespace c).
    + exists (c :: r). reflexivity.
    + destruct (IH (isSentenceEnd c)) as [rest Hrest].
      pose proof (split_sentences_nonempty r (InSentence (isSentenceEnd c))) as Hne.
      destruct (split_sentences_from (InSentence (isSentenceEnd c)) r) as [|h t];
        [congruence|].
      simpl in *. exists rest. congruence.
Qed.

Lemma in_cons_to_head (c : ascii) (pieces : list str) (x : str) :
  pieces <> [] ->
  In x (cons_to_head c pieces) -> x = c :: hd [] pieces \/ In x (tl pieces).
Proof.
  destruct pieces as [|h t]; [congruence|]. intros _ [<-|H]; [now left|now right].
Qed.

(** Every sentence is a contiguous part of the text. *)
Lemma sentence_is_part (s : str) : forall mode x,
  In x (split_sentences_from mode s) -> exists a b, s = a ++ x ++ b.
Proof.
  induction s as [|c r IH]; intros mode x Hin.
  - exists [], []. destruct mode; simpl in Hin; destruct Hin as [<-|[]]; reflexivity.
  - assert (Hcons : forall e,
              In x (cons_to_head c (split_sentences_from (InSentence e) r)) ->
              exists a b, c :: r = a ++ x ++ b).
    { intros e H. apply in_cons_to_head in H; [|apply split_sentences_nonempty].
      destruct H as [->|H].
      - destruct (first_sentence_prefix r e) as [rest Hrest].
        exists [], rest. simpl. congruence.
      - assert (Hin' : In x (split_sentences_from (InSentence e) r)).
        { destruct (split_sentences_from (InSentence e) r); [destruct H|now right]. }
        destruct (IH _ _ Hin') as (a & b & ->). exists (c :: a), b. reflexivity. }
    simpl in Hin. destruct mode as [e|].
    + destruct (e && isWhitespace c).
      * destruct Hin as [<-|Hin]; [exists [], (c :: r); reflexivity|].
        destruct (IH _ _ Hin) as (a & b & ->). exists (c :: a), b. reflexivity.
      * eapply Hcons; eauto.
    + destruct (isWhitespace c).
      * destruct (IH _ _ Hin) as (a & b & ->). exists (c :: a), b. reflexivity.
      * eapply Hcons; eauto.
Qed.

Lemma sentence_words_bounded (text : str) (n : nat) :
  bounded n (space_delimited_words text) ->
  Forall (fun sentence => bounded n (split_char " "%char sentence))
         (split_sentences text).
Proof.
  intros H. apply Forall_forall. intros x Hin.
  destruct (sentence_is_part _ _ _ Hin) as (a & b & Htext).
  unfold space_delimited_words in H. rewrite Htext in H.
  apply bounded_split_char_app in H as [_ H].
  apply bounded_split_char_app in H as [H _]. exact H.
Qed.

(** *** Tokens *)

Lemma split_whitespace_nonempty (s : str) : split_whitespace s <> [].
Proof.
  destruct s as [|c r]; simpl; [discriminate|].
  destruct (isWhitespace c); [discriminate|].
  destruct (split_whitespace r); discriminate.
Qed.

Lemma cons_to_head_app (c : ascii) (a b : list str) :
  a <> [] -> cons_to_head c (a ++ b) = cons_to_head c a ++ b.
Proof. destruct a; [congruence|reflexivity]. Qed.

(** A whitespace character separates the pieces before it from the pieces
    after it. *)
Lemma split_whitespace_app (a b : str) (w : ascii) :
  isWhitespace w = true ->
  split_whitespace (a ++ w :: b) = split_whitespace a ++ split_whitespace b.
Proof.
  intros Hw. induction a as [|c r IH]; simpl.
  - rewrite Hw. reflexivity.
  - rewrite IH. destruct (isWhitespace c); [reflexivity|].
    apply cons_to_head_app, split_whitespace_nonempty.
Qed.

Lemma tokens_app (a b : str) (w : ascii) :
  isWhitespace w = true ->
  whitespace_free_tokens (a ++ w :: b)
  = whitespace_free_tokens a ++ whitespace_free_tokens b.
Proof.
  intros Hw. unfold whitespace_free_tokens.
  rewrite split_whitespace_app by exact Hw. apply filter_app.
Qed.

Lemma tokens_nil : whitespace_free_tokens [] = [].
Proof. reflexivity. Qed.

Lemma tokens_cons (w : ascii) (s : str) :
  isWhitespace w = true -> whitespace_free_tokens (w :: s) = whitespace_free_tokens s.
Proof. intros Hw. exact (tokens_app [] s w Hw). Qed.

Lemma tokens_whitespace (w : str) :
  forallb isWhitespace w = true -> whitespace_free_tokens w = [].
Proof.
  induction w as [|c w IH]; [reflexivity|]. simpl. intros H.
  apply andb_true_iff in H as [Hc Hw]. rewrite tokens_cons by exact Hc. auto.
Qed.

Lemma tokens_after_whitespace (w s : str) :
  forallb isWhitespace w = true ->
  whitespace_free_tokens (w ++ s) = whitespace_free_tokens s.
Proof.
  induction w as [|c w IH]; [reflexivity|]. simpl. intros H.
  apply andb_true_iff in H as [Hc Hw]. rewrite tokens_cons by exact Hc. auto.
Qed.

Lemma tokens_before_whitespace (s w : str) :
  forallb isWhitespace w = true ->
  whitespace_free_tokens (s ++ w) = whitespace_free_tokens s.
Proof.
  destruct w as [|c w]; [rewrite app_nil_r; reflexivity|]. simpl. intros H.
  apply andb_true_iff in H as [Hc Hw].
  rewrite tokens_app by exact Hc.
  rewrite (tokens_whitespace _ Hw). apply app_nil_r.
Qed.

Lemma tokens_trim (s : str) :
  whitespace_free_tokens (trim s) = whitespace_free_tokens s.
Proof.
  unfold trim.
  destruct (trimEnd_decompose (trimStart s)) as (w & Hs & Hw).
  destruct (trimStart_decompose s) as (w' & Hs' & Hw').
  rewrite <- (tokens_before_whitespace (trimEnd (trimStart s)) w Hw), <- Hs.
  rewrite <- (tokens_after_whitespace w' (trimStart s) Hw'), <- Hs'.
  reflexivity.
Qed.

Lemma tokens_blank (s : str) :
  nonblank s = false -> whitespace_free_tokens s = [].
Proof.
  unfold nonblank. intros H. rewrite <- tokens_trim.
  destruct (trim s); [reflexivity|discriminate].
Qed.

Lemma tokens_space (s : str) :
  whitespace_free_tokens (s ++ lit " ") = whitespace_free_tokens s.
Proof. apply tokens_before_whitespace. reflexivity. Qed.

(** Appending to a chunk in the making starts a new token. *)
Lemma tokens_spaced (cur piece : str) :
  spaced cur ->
  whitespace_free_tokens (cur ++ piece)
  = whitespace_free_tokens cur ++ whitespace_free_tokens piece.
Proof.
  intros [-> | (body & ->)]; [reflexivity|].
  rewrite tokens_space, <- app_assoc.
  change (lit " " ++ piece) with (" "%char :: piece).
  apply tokens_app. reflexivity.
Qed.

Lemma flat_map_tokens (pieces : list str) :
  flat_map whitespace_free_tokens pieces
  = filter nonempty (flat_map split_whitespace pieces).
Proof.
  induction pieces as [|p r IH]; [reflexivity|].
  simpl. rewrite filter_app, IH. reflexivity.
Qed.

Lemma flat_map_snoc (A B : Type) (f : A -> list B) (l : list A) (x : A) :
  flat_map f (l ++ [x]) = flat_map f l ++ f x.
Proof. rewrite flat_map_app. simpl. rewrite app_nil_r. reflexivity. Qed.

(** The chunks joined by single spaces hold the tokens of the chunks. *)
Lemma tokens_join (chunks : list str) :
  whitespace_free_tokens (join (lit " ") chunks)
  = flat_map whitespace_free_tokens chunks.
Proof.
  induction chunks as [|x rest IH]; [reflexivity|].
  destruct rest as [|y rest'].
  - simpl. rewrite app_nil_r. reflexivity.
  - change (join (lit " ") (x :: y :: rest'))
      with (x ++ " "%char :: join (lit " ") (y :: rest')).
    rewrite tokens_app by reflexivity. rewrite IH. reflexivity.
Qed.

(** Splitting at spaces cuts no token. *)
Lemma split_whitespace_words (s : str) :
  flat_map split_whitespace (split_char " "%char s) = split_whitespace s.
Proof.
  induction s as [|c r IH]; [reflexivity|].
  cbn [split_char]. destruct (Ascii.eqb c " "%char) eqn:E.
  - apply Ascii.eqb_eq in E. subst c. simpl. rewrite IH. reflexivity.
  - pose proof (@split_char_nonempty " "%char r) as Hne.
    destruct (split_char " "%char r) as [|p ps]; [congruence|].
    cbn [cons_to_head flat_map split_whitespace].
    cbn [flat_map] in IH. rewrite <- IH.
    destruct (isWhitespace c); [reflexivity|].
    symmetry. apply cons_to_head_app, split_whitespace_nonempty.
Qed.

Lemma tokens_words (s : str) :
  flat_map whitespace_free_tokens (split_char " "%char s)
  = whitespace_free_tokens s.
Proof. rewrite flat_map_tokens, split_whitespace_words. reflexivity. Qed.

Lemma agree_tokens (a b : list str) :
  agree a b -> filter nonempty a = filter nonempty b.
Proof. intros (h & ta & tb & -> & -> & H). simpl. rewrite H. reflexivity. Qed.

Lemma agree_cons_to_head (c : ascii) (a b : list str) :
  agree a b -> agree (cons_to_head c a) (cons_to_head c b).
Proof.
  intros (h & ta & tb & -> & -> & H). exists (c :: h), ta, tb. auto.
Qed.

Lemma agree_after_whitespace (a b : list str) :
  filter nonempty a = filter nonempty b -> agree ([] :: a) ([] :: b).
Proof. intros H. exists [], a, b. auto. Qed.

(** The pieces of the sentences are the pieces of the text, up to the empty
    pieces inside the separators. *)
Lemma split_whitespace_sentences (s : str) :
  (forall e, agree (flat_map split_whitespace
                      (split_sentences_from (InSentence e) s))
                   (split_whitespace s))
  /\ filter nonempty (flat_map split_whitespace
                        (split_sentences_from InSeparator s))
     = filter nonempty (split_whitespace s).
Proof.
  induction s as [|c r [IHs IHp]].
  - split; [intros e; exists [], [], []; auto|reflexivity].
  - assert (Hcons : forall e,
              agree (flat_map split_whitespace
                       (cons_to_head c (split_sentences_from (InSentence e) r)))
                    (split_whitespace (c :: r))).
    { intros e. specialize (IHs e).
      pose proof (@split_sentences_nonempty r (InSentence e)) as Hne.
      destruct (split_sentences_from (InSentence e) r) as [|p ps]; [congruence|].
      cbn [cons_to_head flat_map split_whitespace]. cbn [flat_map] in IHs.
      destruct (isWhitespace c).
      - apply agree_after_whitespace, agree_tokens, IHs.
      - rewrite <- cons_to_head_app by apply split_whitespace_nonempty.
        apply agree_cons_to_head, IHs. }
    split.
    + intros e. cbn [split_sentences_from].
      destruct (e && isWhitespace c) eqn:E; [|apply Hcons].
      apply andb_true_iff in E as [_ E].
      cbn [flat_map split_whitespace app]. rewrite E.
      apply agree_after_whitespace, IHp.
    + cbn [split_sentences_from]. destruct (isWhitespace c) eqn:E.
      * rewrite IHp. cbn [split_whitespace]. rewrite E. reflexivity.
      * apply agree_tokens, Hcons.
Qed.

(** Splitting into sentences cuts no token. *)
Lemma tokens_sentences (text : str) :
  flat_map whitespace_free_tokens (split_sentences text)
  = whitespace_free_tokens text.
Proof.
  rewrite flat_map_tokens. unfold split_sentences.
  apply agree_tokens, split_whitespace_sentences.
Qed.

Lemma spaced_snoc (s : str) : spaced (s ++ lit " ").
Proof. right. exists s. reflexivity. Qed.

Lemma tokens_of_push (chunks : list str) (cur : str) :
  tokens_of (chunks ++ [trim cur], []) = tokens_of (chunks, cur).
Proof.
  unfold tokens_of. cbn [fst snd].
  rewrite flat_map_snoc, tokens_trim, app_nil_r. reflexivity.
Qed.

Lemma pack_word_tokens (n : nat) (chunks : list str) (wc word : str) :
  spaced wc ->
  tokens_of (pack_word n (chunks, wc) word)
  = tokens_of (chunks, wc) ++ whitespace_free_tokens word
  /\ spaced (snd (pack_word n (chunks, wc) word)).
Proof.
  intros Hw. unfold pack_word.
  destruct (n <? length wc + length word); cbn [snd].
  - split; [|apply spaced_snoc].
    rewrite <- (tokens_of_push chunks wc). unfold tokens_of. cbn [fst snd app].
    rewrite tokens_space, tokens_nil, app_nil_r. reflexivity.
  - split; [|rewrite app_assoc; apply spaced_snoc].
    unfold tokens_of. cbn [fst snd].
    rewrite (tokens_spaced (word ++ lit " ") Hw), tokens_space, app_assoc.
    reflexivity.
Qed.

Lemma pack_words_tokens (n : nat) (words : list str) : forall chunks wc,
  spaced wc ->
  tokens_of (fold_left (pack_word n) words (chunks, wc))
  = tokens_of (chunks, wc) ++ flat_map whitespace_free_tokens words
  /\ spaced (snd (fold_left (pack_word n) words (chunks, wc))).
Proof.
  induction words as [|w words IH]; intros chunks wc Hw; cbn [fold_left].
  - split; [simpl; rewrite app_nil_r; reflexivity|exact Hw].
  - destruct (@pack_word_tokens n chunks wc w Hw) as [Ht Hs].
    destruct (pack_word n (chunks, wc) w) as [chunks' wc'].
    destruct (IH chunks' wc' Hs) as [Ht' Hs'].
    split; [|exact Hs'].
    rewrite Ht', Ht. cbn [flat_map]. rewrite app_assoc. reflexivity.
Qed.

Lemma pack_sentence_tokens (n : nat) (chunks : list str) (cur sentence : str) :
  spaced cur ->
  tokens_of (pack_sentence n (chunks, cur) sentence)
  = tokens_of (chunks, cur) ++ whitespace_free_tokens sentence
  /\ spaced (snd (pack_sentence n (chunks, cur) sentence)).
Proof.
  intros Hcur. unfold pack_sentence.
  destruct (n <? length cur + length sentence).
  - match goal with
    | |- context [if 0 <? length cur then ?a else ?b] =>
        assert (Hpush : exists chunks1,
                  (if 0 <? length cur then a else b) = (chunks1, [])
                  /\ tokens_of (chunks1, []) = tokens_of (chunks, cur))
    end.
    { destruct cur as [|c cur]; [exists chunks; split; reflexivity|].
      exists (chunks ++ [trim (c :: cur)]). split; [reflexivity|].
      apply tokens_of_push. }
    destruct Hpush as (chunks1 & -> & Ht1).
    destruct (n <? length sentence).
    + assert (H2 := @pack_words_tokens n (split_char " "%char sentence)
                      chunks1 [] (or_introl eq_refl)).
      rewrite tokens_words in H2. rewrite <- Ht1.
      match goal with
      | |- context [fold_left ?f ?l ?a] =>
          change (tokens_of (fold_left f l a)
                  = tokens_of (chunks1, []) ++ whitespace_free_tokens sentence
                  /\ spaced (snd (fold_left f l a))) in H2;
          destruct (fold_left f l a) as [chunks2 wc]
      end.
      destruct H2 as [Ht2 Hs2].
      destruct (nonblank wc) eqn:Eb; [split; assumption|].
      split; [|left; reflexivity].
      rewrite <- Ht2. unfold tokens_of. cbn [fst snd].
      rewrite (tokens_blank _ Eb). reflexivity.
    + split; [|apply spaced_snoc].
      rewrite <- Ht1. unfold tokens_of. cbn [fst snd app].
      rewrite tokens_space, tokens_nil, app_nil_r. reflexivity.
  - split; [|rewrite app_assoc; apply spaced_snoc].
    unfold tokens_of. cbn [fst snd].
    rewrite (tokens_spaced (sentence ++ lit " ") Hcur), tokens_space, app_assoc.
    reflexivity.
Qed.

Lemma pack_sentences_tokens (n : nat) (sentences : list str) : forall chunks cur,
  spaced cur ->
  tokens_of (fold_left (pack_sentence n) sentences (chunks, cur))
  = tokens_of (chunks, cur) ++ flat_map whitespace_free_tokens sentences
  /\ spaced (snd (fold_left (pack_sentence n) sentences (chunks, cur))).
Proof.
  induction sentences as [|x sentences IH]; intros chunks cur Hcur;
    cbn [fold_left].
  - split; [simpl; rewrite app_nil_r; reflexivity|exact Hcur].
  - destruct (@pack_sentence_tokens n chunks cur x Hcur) as [Ht Hs].
    destruct (pack_sentence n (chunks, cur) x) as [chunks' cur'].
    destruct (IH chunks' cur' Hs) as [Ht' Hs'].
    split; [|exact Hs'].
    rewrite Ht', Ht. cbn [flat_map]. rewrite app_assoc. reflexivity.
Qed.

(** The chunks hold the tokens of the text, in order, each token whole and
    within one chunk. *)
Lemma chunks_keep_tokens (text : str) (n : nat) :
  flat_map whitespace_free_tokens (splitIntoChunks text n)
  = whitespace_free_tokens text.
Proof.
  unfold splitIntoChunks.
  destruct (@pack_sentences_tokens n (split_sentences text) [] []
              (or_introl eq_refl)) as [H _].
  rewrite tokens_sentences in H.
  match goal with
  | |- context [fold_left ?f ?l ?a] =>
      change (tokens_of (fold_left f l a)
              = tokens_of ([], []) ++ whitespace_free_tokens text) in H;
      destruct (fold_left f l a) as [chunks cur]
  end.
  unfold tokens_of in H. cbn [fst snd flat_map app] in H.
  change (whitespace_free_tokens []) with (@nil str) in H. cbn [app] in H.
  rewrite <- H.
  destruct (nonblank cur) eqn:Eb.
  - rewrite flat_map_snoc, tokens_trim. reflexivity.
  - rewrite (tokens_blank _ Eb), app_nil_r. reflexivity.
Qed.

(** C2, amended: for every text and threshold, the chunks put together
    with a space at every chunk boundary reproduce the text up to the
    whitespace between its tokens: they hold the whitespace-free tokens of
    the text, all of them, in order, each one whole and inside one chunk, so
    that only whitespace is inserted or removed, and only where the text has
    whitespace; and no chunk is longer than the threshold unless a
    space-delimited word of the text (a run of characters other than the
    space character; it may hold tabs or line breaks) is. *)
Theorem chunks_reconstruct_and_fit (text : str) (maxLength : nat) :
  let chunks := splitIntoChunks text maxLength in
  whitespace_free_tokens (join (lit " ") chunks) = whitespace_free_tokens text
  /\ flat_map whitespace_free_tokens chunks = whitespace_free_tokens text
  /\ (Forall (fun word => length word <= maxLength) (space_delimited_words text) ->
      Forall (fun chunk => length chunk <= maxLength) chunks).
Proof.
  cbv zeta. split; [rewrite tokens_join; apply chunks_keep_tokens|].
  split; [apply chunks_keep_tokens|]. intros H.
  apply chunks_bounded_by_sentence_words, sentence_words_bounded. exact H.
Qed.

(** C2, as stated, fails: the Chunker splits an oversized sentence at space
    characters only, so two short tokens joined by a line break travel as one
    word; here no whitespace-free token exceeds the threshold 5 and a chunk
    of length 7 comes out. *)
Lemma chunk_exceeds_without_long_token :
  Forall (fun token => length token <= 5) (whitespace_free_tokens Stubs.two_lines)
  /\ exists chunk, In chunk (splitIntoChunks Stubs.two_lines 5)
                   /\ 5 < length chunk.
Proof.
  split.
  - vm_compute. repeat constructor.
  - exists (lit "aaa" ++ [GraphService.newline] ++ lit "bbb"). split.
    + vm_compute. right. left. reflexivity.
    + vm_compute. repeat constructor.
Qed.

Lemma chunks_reconstruct_and_fit_witness :
  Forall (fun chunk => length chunk <= 14) (splitIntoChunks Stubs.remarks 14)
  /\ map string_of_list_ascii (splitIntoChunks Stubs.remarks 14)
     = ["Hello world."; "This is a"; "test!"; "Another one?"; "Yes."]%string
  /\ map string_of_list_ascii
       (flat_map whitespace_free_tokens (splitIntoChunks Stubs.remarks 14))
     = ["Hello"; "world."; "This"; "is"; "a"; "test!"; "Another"; "one?";
        "Yes."]%string.
Proof.
  split; [|split; [reflexivity|]].
  - apply (proj2 (proj2 (chunks_reconstruct_and_fit Stubs.remarks 14))).
    vm_compute. repeat constructor.
  - rewrite (proj1 (proj2 (chunks_reconstruct_and_fit Stubs.remarks 14))).
    reflexivity.
Defined.

(** Whitespace after a sentence end is not kept as it is, even inside a
    chunk: a line break between two sentences becomes a space. *)
Example separator_becomes_space :
  splitIntoChunks (lit "Done." ++ [GraphService.newline] ++ lit "Next.") 50
  = [lit "Done. Next."].
Proof. reflexivity. Qed.

End ChunkerFacts.

(** ** Retry and error-handling wrappers, for any operation *)

Module WrapperFacts.
Import JS ErrorHandling ErrorWrapper ErrorSpec Spec Invariants StrFacts.

Section AnyOperation.
Variables (T S : Type).
Variable features : Features.
Variable operation : S -> completion T * S.
Variable random : nat -> Q.

(** The loop invokes the operation at most [remaining] times, at least once
    when it may, and sleeps (drawing one random number each time) exactly
    between invocations. *)
Lemma retry_loop_counts (cfg : RetryConfig) (remaining : nat) :
  forall attempt lastError (w : World S),
  remaining = 0 \/ (Z.of_nat remaining = maxAttempts cfg - attempt + 1)%Z ->
  let '(_, w') := retry_loop operation random cfg remaining attempt lastError w in
  exists k,
    invocations w' = invocations w + k
    /\ k <= remaining
    /\ (0 < remaining -> 0 < k)
    /\ length (slept w') = length (slept w) + (k - 1)
    /\ draws w' = draws w + (k - 1).
Proof.
  induction remaining as [|remaining IH]; intros attempt lastError w Hrem.
  - simpl. exists 0. repeat split; lia.
  - destruct Hrem as [Hrem|Hrem]; [discriminate|].
    cbn [retry_loop]. unfold invoke.
    destruct (operation (backend w)) as [[v|e] s'].
    + exists 1. cbn [invocations slept draws]. repeat split; lia.
    + destruct ((attempt <? maxAttempts cfg)%Z && isRetryableError e) eqn:Eretry.
      * apply andb_true_iff in Eretry as [Hlt _]. apply Z.ltb_lt in Hlt.
        match goal with
        | |- context [retry_loop _ _ _ _ ?a ?l ?w1] =>
            specialize (IH a l w1 ltac:(right; lia));
            destruct (retry_loop operation random cfg remaining a l w1) as [x w']
        end.
        destruct IH as (k & Hi & Hk & Hpos & Hs & Hd).
        unfold backoff in *. cbn [invocations slept draws] in *.
        rewrite length_app in Hs. simpl in Hs.
        specialize (Hpos ltac:(lia)).
        exists (Datatypes.S k). repeat split; lia.
      * exists 1. cbn [invocations slept draws]. repeat split; lia.
Qed.

(** What the wrapper throws, when retries are enabled, is its own terminal
    error. *)
Lemma withRetry_throws_terminal (context : CorrelationContext)
    (retryConfig : PartialRetryConfig) (w : World S) (e : exn) :
  enableRetries features = true ->
  fst (withRetry features operation random context retryConfig w) = Throw e ->
  is_agent_error e = true
  /\ error_correlationId e = Some (correlationId context)
  /\ isRetryableError e = false.
Proof.
  intros Hen. unfold withRetry. rewrite Hen. cbn [negb].
  destruct (retry_loop operation random _ _ 1 None w) as [[v|lastError] w'];
    simpl; intros [= <-]. repeat split.
Qed.

(** X1: with retries enabled, [withRetry] invokes the operation at most
    [maxAttempts] times (and at least once when [maxAttempts >= 1]), sleeps
    and draws a random number exactly once between two invocations, and
    whatever it throws is an [ActionAgentError] of the caller's correlation
    id that is itself not retryable. *)
Theorem withRetry_is_bounded (context : CorrelationContext)
    (retryConfig : PartialRetryConfig) (w : World S) :
  enableRetries features = true ->
  let cfg := merge_config (defaultRetryConfig features) retryConfig in
  let '(outcome, w') := withRetry features operation random context retryConfig w in
  (exists k,
      invocations w' = invocations w + k
      /\ (Z.of_nat k <= Z.max 0 (maxAttempts cfg))%Z
      /\ ((1 <= maxAttempts cfg)%Z -> 1 <= k)
      /\ length (slept w') = length (slept w) + (k - 1)
      /\ draws w' = draws w + (k - 1))
  /\ forall e, outcome = Throw e ->
       is_agent_error e = true
       /\ error_correlationId e = Some (correlationId context)
       /\ isRetryableError e = false.
Proof.
  intros Hen. cbv zeta.
  pose proof (fun e => @withRetry_throws_terminal context retryConfig w e Hen) as Hthrow.
  unfold withRetry in *. rewrite Hen in *. cbn [negb] in *.
  set (cfg := merge_config (defaultRetryConfig features) retryConfig) in *.
  assert (H := @retry_loop_counts cfg (Z.to_nat (maxAttempts cfg)) 1%Z None w).
  assert (Hrem : Z.to_nat (maxAttempts cfg) = 0
                 \/ (Z.of_nat (Z.to_nat (maxAttempts cfg))
                     = maxAttempts cfg - 1 + 1)%Z) by lia.
  specialize (H Hrem). clear Hrem.
  destruct (retry_loop operation random _ _ 1 None w) as [[v|lastError] w'].
  - destruct H as (k & Hi & Hk & Hpos & Hs & Hd). split.
    + exists k. repeat split; try lia.
    + intros e [=].
  - destruct H as (k & Hi & Hk & Hpos & Hs & Hd). split.
    + exists k. repeat split; try lia.
    + intros e He. apply Hthrow. simpl. exact He.
Qed.

(** The wrapper with retries disabled by the feature flag: the operation's
    own outcome. *)
Lemma withRetry_disabled (context : CorrelationContext)
    (retryConfig : PartialRetryConfig) (w : World S) :
  enableRetries features = false ->
  withRetry features operation random context retryConfig w = invoke operation w.
Proof. intros H. unfold withRetry. rewrite H. reflexivity. Qed.

(** X2: whatever [withErrorHandling] throws is an [ActionAgentError].  When it
    retries, the error carries the caller's correlation id and is not
    retryable; when it does not, an [ActionAgentError] of the operation passes
    through unchanged and anything else is wrapped with the caller's context,
    keeping the message. *)
Theorem withErrorHandling_raises_agent_errors (context : CorrelationContext)
    (options : Options) (w : World S) :
  let '(outcome, w') :=
    withErrorHandling features operation random context options w in
  forall e, outcome = Throw e ->
    is_agent_error e = true
    /\ (or_else (enableRetry options) false = true ->
        enableRetries features = true ->
        error_correlationId e = Some (correlationId context)
        /\ isRetryableError e = false)
    /\ (or_else (enableRetry options) false = false ->
        exists a,
          fst (operation (backend w)) = Throw a
          /\ e = if is_agent_error a then a
                 else ActionAgentError (error_message a) context None None
                        (cause_of a)).
Proof.
  unfold withErrorHandling.
  destruct (or_else (enableRetry options) false) eqn:Eretry.
  - destruct (enableRetries features) eqn:Een.
    + pose proof (fun a => @withRetry_throws_terminal context
                    (or_else (retryConfig options) no_overrides) w a Een) as H.
      destruct (withRetry features operation random context _ w) as [[v|a] w'].
      * intros e [=].
      * destruct (H a eq_refl) as (Ha & Hid & Hre).
        destruct a; try discriminate Ha.
        intros e [= <-]. split; [reflexivity|]. split; [auto|discriminate].
    + rewrite withRetry_disabled by assumption. unfold invoke.
      destruct (operation (backend w)) as [[v|a] s']; [intros e [=]|].
      destruct a; intros e [= <-]; (split; [reflexivity|]);
        (split; [discriminate|discriminate]).
  - unfold invoke. destruct (operation (backend w)) as [[v|a] s'];
      [intros e [=]|].
    destruct a; intros e [= <-]; (split; [reflexivity|]);
      (split; [discriminate|]); intros _; eexists; (split; [reflexivity|]);
      reflexivity.
Qed.
End AnyOperation.

(** X3: retrying the retry wrapper: the terminal error of the inner wrapper is
    not retryable, so the outer wrapper runs the inner one once and does not
    sleep. *)
Theorem nested_retry_runs_inner_once (T S : Type) (features : Features)
    (inner : S -> completion T * S) (random random' : nat -> Q)
    (inner_context outer_context : CorrelationContext)
    (inner_config outer_config : PartialRetryConfig) (W : World (World S)) :
  enableRetries features = true ->
  (1 <= maxAttempts (merge_config (defaultRetryConfig features) outer_config))%Z ->
  let wrapped := withRetry features inner random inner_context inner_config in
  forall e, fst (wrapped (backend W)) = Throw e ->
  let '(outcome, W') :=
    withRetry features wrapped random' outer_context outer_config W in
  outcome = Throw (terminal_error outer_context e)
  /\ invocations W' = invocations W + 1
  /\ slept W' = slept W.
Proof.
  intros Hen Hmax wrapped e He.
  assert (Hnot : isRetryableError e = false).
  { apply (@withRetry_throws_terminal T S features inner random inner_context
               inner_config (backend W) e Hen He). }
  assert (H1 : (Z.of_nat 1
                <= maxAttempts (merge_config (defaultRetryConfig features)
                                  outer_config))%Z) by lia.
  rewrite (@RetryFacts.withRetry_gives_up T (World S) features wrapped random'
             outer_context outer_config 1 e W Hen (le_n 1) H1 eq_refl He
             (or_intror Hnot)).
  unfold after_attempts. cbn [invocations slept backoff_delays Nat.sub].
  rewrite app_nil_r. repeat split.
Qed.

Lemma withErrorHandling_raises_agent_errors_witness :
  fst (withErrorHandling Stubs.features ErrorStubs.failing_inner Stubs.no_jitter
         Stubs.context no_options Stubs.idle)
  = Throw ErrorStubs.inner_failure
  /\ thrown (fst (withErrorHandling Stubs.features Stubs.rejecting Stubs.no_jitter
                    Stubs.context no_options Stubs.idle))
     = Some (ActionAgentError (lit "Request failed with status 400")
               Stubs.context None None
               (Some (JsError (lit "Error") (lit "Request failed with status 400")))).
Proof.
  split.
  - pose proof (@withErrorHandling_raises_agent_errors str nat Stubs.features
                  ErrorStubs.failing_inner Stubs.no_jitter Stubs.context
                  no_options Stubs.idle) as H.
    destruct (withErrorHandling Stubs.features ErrorStubs.failing_inner _ _ _ _)
      as [[v|e] w'] eqn:E; [discriminate E|].
    destruct (H e eq_refl) as (_ & _ & Hsame).
    destruct (Hsame eq_refl) as (a & Ha & ->). injection Ha as <-. reflexivity.
  - pose proof (@withErrorHandling_raises_agent_errors str nat Stubs.features
                  Stubs.rejecting Stubs.no_jitter Stubs.context
                  no_options Stubs.idle) as H.
    destruct (withErrorHandling Stubs.features Stubs.rejecting _ _ _ _)
      as [[v|e] w'] eqn:E; [discriminate E|].
    destruct (H e eq_refl) as (_ & _ & Hwrap).
    destruct (Hwrap eq_refl) as (a & Ha & ->). injection Ha as <-. reflexivity.
Defined.

Lemma nested_retry_runs_inner_once_witness :
  let '(outcome, W') :=
    withRetry Stubs.features
      (withRetry Stubs.features Stubs.rejecting Stubs.no_jitter Stubs.context
         no_overrides)
      Stubs.no_jitter Stubs.context no_overrides ErrorStubs.outer_idle in
  invocations W' = 1 /\ slept W' = [] /\ invocations (backend W') = 1.
Proof.
  pose proof (@nested_retry_runs_inner_once str nat Stubs.features Stubs.rejecting
                Stubs.no_jitter Stubs.no_jitter Stubs.context Stubs.context
                no_overrides no_overrides ErrorStubs.outer_idle eq_refl) as H.
  cbv zeta in H.
  specialize (H ltac:(vm_compute; discriminate) _ eq_refl).
  destruct (withRetry Stubs.features _ Stubs.no_jitter Stubs.context no_overrides
              ErrorStubs.outer_idle) as [outcome W'] eqn:E.
  destruct H as (_ & Hinv & Hslept). split; [exact Hinv|]. split; [exact Hslept|].
  vm_compute in E. injection E as _ <-. reflexivity.
Defined.

Lemma withRetry_is_bounded_witness :
  let '(outcome, w') :=
    withRetry Stubs.features (Stubs.flaky 7) Stubs.no_jitter Stubs.context
      no_overrides Stubs.idle in
  invocations w' = 3 /\ length (slept w') = 2 /\ draws w' = 2
  /\ option_map error_correlationId (thrown outcome) = Some (Some (lit "c0ffee")).
Proof.
  pose proof (@withRetry_is_bounded str nat Stubs.features (Stubs.flaky 7)
                Stubs.no_jitter Stubs.context no_overrides Stubs.idle eq_refl) as H.
  cbv zeta in H.
  destruct (withRetry Stubs.features (Stubs.flaky 7) Stubs.no_jitter Stubs.context
              no_overrides Stubs.idle) as [outcome w'] eqn:E.
  destruct H as [_ H]. vm_compute in E. injection E as <- <-.
  destruct (H _ eq_refl) as (_ & Hid & _).
  split; [reflexivity|]. split; [reflexivity|]. split; [reflexivity|].
  exact (f_equal Some Hid).
Defined.
End WrapperFacts.

(** ** Titles and validated responses *)

Module ContractFacts.
Import JS ErrorHandling OpenAIService ResponseContract Spec StrFacts WhitespaceFacts.

Lemma replace_runs_length (class : ascii -> bool) (s : str) : forall b,
  length (replace_runs class b s) <= length s.
Proof.
  induction s as [|c r IH]; intros b; simpl; [lia|].
  destruct (class c).
  - destruct b; simpl; specialize (IH true); lia.
  - simpl. specialize (IH false). lia.
Qed.

Lemma isLineTerminator_isWhitespace (c : ascii) :
  isLineTerminator c = true -> isWhitespace c = true.
Proof.
  unfold isLineTerminator, isWhitespace. intros H.
  apply orb_true_iff in H. destruct H as [H|H]; apply Nat.eqb_eq in H;
    rewrite H; reflexivity.
Qed.

Lemma trim_head (s : str) :
  match trim s with [] => True | c :: _ => isWhitespace c = false end.
Proof. unfold trim. apply trimEnd_head, trimStart_head. Qed.

Lemma sanitizeTitle_tracker_title (title : str) :
  tracker_title (sanitizeTitle title).
Proof.
  unfold tracker_title, sanitizeTitle, collapse_whitespace, substring0. split.
  - etransitivity; [apply replace_runs_length|].
    etransitivity; [apply replace_runs_length|].
    rewrite length_firstn. lia.
  - apply collapse_single_spaced.
Qed.

Lemma sanitizeTitle_starts_with_text (title : str) :
  nonblank title = true -> starts_with_text (sanitizeTitle title).
Proof.
  unfold nonblank, sanitizeTitle, collapse_whitespace, substring0.
  pose proof (trim_head title) as H.
  destruct (trim title) as [|c r]; [discriminate|]. intros _.
  change 255 with (Datatypes.S 254). rewrite firstn_cons.
  assert (Hlt : isLineTerminator c = false).
  { destruct (isLineTerminator c) eqn:E; [|reflexivity].
    apply isLineTerminator_isWhitespace in E. congruence. }
  cbn [replace_runs]. rewrite Hlt. cbn [replace_runs]. rewrite H.
  simpl. exact H.
Qed.

(** X4: whatever the title, the sanitized title has at most 255 characters
    and holds no whitespace other than single spaces; when the title is not
    blank it starts with a character that is not whitespace, so it is not
    empty. *)
Theorem sanitizeTitle_fits_tracker (title : str) :
  tracker_title (sanitizeTitle title)
  /\ (nonblank title = true -> starts_with_text (sanitizeTitle title)).
Proof.
  split; [apply sanitizeTitle_tracker_title|apply sanitizeTitle_starts_with_text].
Qed.

Lemma mapM_Forall (A B : Type) (f : A -> completion B)
    (P : A -> Prop) (Q : B -> Prop) :
  (forall x y, P x -> f x = Return y -> Q y) ->
  forall l ys, Forall P l -> mapM f l = Return ys -> Forall Q ys.
Proof.
  intros Hf. induction l as [|x r IH]; intros ys HP; simpl.
  - intros [= <-]. constructor.
  - inversion HP as [|? ? Hx Hr]; subst.
    destruct (f x) as [y|e] eqn:Ey; cbn [bind]; [|discriminate].
    destruct (mapM f r) as [ys'|e] eqn:Er; cbn [bind]; [|discriminate].
    intros [= <-]. constructor; [eapply Hf; eauto|]. apply IH; auto.
Qed.

Lemma or_default_truthy (a b : value) :
  truthy b = true -> truthy (or_default a b) = true.
Proof. unfold or_default. destruct (truthy a) eqn:E; auto. Qed.

Lemma sanitize_item_valid (item : value) (validated : ParsedItem) :
  has_title item = true -> sanitize_item item = Return validated ->
  valid_item validated.
Proof.
  unfold has_title, sanitize_item. intros Ht.
  apply andb_true_iff in Ht as [_ Ht].
  destruct (get item (lit "title")) as [[| | | |t| |]|e]; try discriminate.
  apply Nat.ltb_lt in Ht. cbn [bind].
  destruct (get item (lit "assignedTo")) as [assignedTo|e]; cbn [bind];
    [|discriminate].
  destruct (get item (lit "type")) as [type|e]; cbn [bind]; [|discriminate].
  destruct (validateWorkItemType type) as [type'|e]; cbn [bind]; [|discriminate].
  destruct (get item (lit "priority")) as [priority|e]; cbn [bind]; [|discriminate].
  destruct (validatePriority priority) as [priority'|e]; cbn [bind]; [|discriminate].
  destruct (get item (lit "description")) as [description|e]; cbn [bind];
    [|discriminate].
  destruct (get item (lit "deadline")) as [deadline|e]; cbn [bind]; [|discriminate].
  intros [= <-]. constructor; cbn.
  - apply sanitizeTitle_tracker_title.
  - apply sanitizeTitle_starts_with_text. unfold nonblank.
    destruct (trim t); [simpl in Ht; lia|reflexivity].
  - apply or_default_truthy. reflexivity.
  - unfold or_default. destruct (truthy description) eqn:E.
    + split; intros ->; discriminate.
    + split; discriminate.
  - unfold or_default. destruct (truthy deadline) eqn:E; auto.
Qed.

Lemma validate_items_valid (items : list value) (summary : value)
    (response : ParsedResponse) :
  validate_items items summary = Return response ->
  Forall valid_item (actionItems response).
Proof.
  unfold validate_items.
  destruct (mapM sanitize_item (filter has_title items)) as [l|e] eqn:E;
    cbn [bind]; [|discriminate].
  intros [= <-]. cbn.
  apply (@mapM_Forall _ _ sanitize_item (fun x => has_title x = true) valid_item
           sanitize_item_valid _ _ ltac:(apply Forall_forall; intros x Hx;
                                         apply filter_In in Hx; exact (proj2 Hx)) E).
Qed.

(** X5: whatever the model answered: every item of a validated response has a
    title of 1 to 255 characters without line breaks or runs of spaces, a
    truthy assignee, a description that is not [undefined] or [null], and a
    deadline that is [undefined] or truthy. *)
Theorem validated_items_are_well_formed
    (JSON_parse : str -> completion value) (content : str)
    (context : CorrelationContext) (response : ParsedResponse) :
  parseAndValidateResponse JSON_parse content context = Return response ->
  Forall valid_item (actionItems response).
Proof.
  unfold parseAndValidateResponse.
  destruct (JSON_parse content) as [parsed|e]; cbn [bind try_catch];
    [|discriminate].
  assert (Hbody : forall items summary,
             try_catch (validate_items items summary)
               (fun error => Throw (ActionAgentError
                  (lit "Failed to parse AI response as JSON") context None None
                  (Some error))) = Return response ->
             Forall valid_item (actionItems response)).
  { intros items summary.
    destruct (validate_items items summary) as [r|e] eqn:E; cbn [try_catch];
      [|discriminate].
    intros [= <-]. eapply validate_items_valid; eauto. }
  destruct (isArray parsed); [apply Hbody|].
  destruct (get parsed (lit "actionItems")) as [items|e]; cbn [bind try_catch];
    [|discriminate].
  destruct (truthy items && isArray items).
  - destruct (get parsed (lit "summary")) as [summary|e]; cbn [bind try_catch];
      [apply Hbody|discriminate].
  - destruct (get parsed (lit "tasks")) as [tasks|e]; cbn [bind try_catch];
      [|discriminate].
    destruct (truthy tasks && isArray tasks).
    + destruct (get parsed (lit "summary")) as [summary|e]; cbn [bind try_catch];
        [apply Hbody|discriminate].
    + cbn. intros [= <-]. constructor.
Qed.

Lemma sanitizeTitle_fits_tracker_witness :
  nonblank ContractStubs.long_title = true
  /\ length (sanitizeTitle ContractStubs.long_title) = 253
  /\ starts_with_text (sanitizeTitle ContractStubs.long_title).
Proof.
  split; [reflexivity|]. split; [reflexivity|].
  apply (proj2 (sanitizeTitle_fits_tracker ContractStubs.long_title)).
  reflexivity.
Defined.

Lemma validated_items_are_well_formed_witness :
  exists item,
    parseAndValidateResponse (Stubs.parse_known ContractStubs.sparse_documents)
      (lit "[sparse]") Stubs.context
    = Return {| actionItems := [item]; summary := VUndefined |}
    /\ valid_item item
    /\ p_assignedTo item = VStr (lit "Unassigned")
    /\ p_description item = VStr []
    /\ p_deadline item = VUndefined.
Proof.
  pose proof (@validated_items_are_well_formed
                (Stubs.parse_known ContractStubs.sparse_documents)
                (lit "[sparse]") Stubs.context) as H.
  destruct (parseAndValidateResponse _ (lit "[sparse]") Stubs.context)
    as [response|e] eqn:E; [|vm_compute in E; discriminate E].
  specialize (H response eq_refl).
  vm_compute in E. injection E as <-.
  eexists. split; [reflexivity|]. split; [|repeat split].
  inversion H; subst. assumption.
Defined.

End ContractFacts.

(** ** Chunker: short texts, chunk boundaries, over-long tokens *)

Module ChunkShapeFacts.
Import JS OpenAIService ChunkSpec Spec Invariants StrFacts WhitespaceFacts ChunkerFacts.

Lemma length_space : length (lit " ") = 1.
Proof. reflexivity. Qed.

Lemma respaced_cons_to_head (c : ascii) (pieces : list str) :
  pieces <> [] ->
  length (respaced (cons_to_head c pieces)) = Datatypes.S (length (respaced pieces)).
Proof. destruct pieces as [|p r]; [congruence|]. reflexivity. Qed.

Lemma split_sentences_respaced_length (s : str) : forall mode,
  length (respaced (split_sentences_from mode s)) <= Datatypes.S (length s).
Proof.
  induction s as [|c r IH]; intros mode; [simpl; lia|].
  cbn [split_sentences_from]. destruct mode as [after_end|].
  - destruct (after_end && isWhitespace c).
    + specialize (IH InSeparator). simpl in *. lia.
    + rewrite respaced_cons_to_head by apply split_sentences_nonempty.
      specialize (IH (InSentence (isSentenceEnd c))). simpl. lia.
  - destruct (isWhitespace c).
    + specialize (IH InSeparator). simpl. lia.
    + rewrite respaced_cons_to_head by apply split_sentences_nonempty.
      specialize (IH (InSentence (isSentenceEnd c))). simpl. lia.
Qed.

Lemma pack_short (n : nat) (sentences : list str) : forall chunks cur,
  length cur + length (respaced sentences) <= Datatypes.S n ->
  fold_left (pack_sentence n) sentences (chunks, cur)
  = (chunks, cur ++ respaced sentences).
Proof.
  induction sentences as [|s rest IH]; intros chunks cur H; simpl.
  - rewrite app_nil_r. reflexivity.
  - change (respaced (s :: rest)) with ((s ++ lit " ") ++ respaced rest) in H.
    rewrite !length_app, length_space in H.
    replace (n <? length cur + length s) with false
      by (symmetry; apply Nat.ltb_ge; lia).
    rewrite IH.
    + rewrite <- !app_assoc. reflexivity.
    + rewrite !length_app, length_space. lia.
Qed.

Lemma respaced_join (sentences : list str) :
  sentences <> [] -> respaced sentences = join (lit " ") sentences ++ lit " ".
Proof.
  induction sentences as [|s rest IH]; [congruence|]. intros _.
  destruct rest as [|s' rest'].
  - simpl. rewrite app_nil_r. reflexivity.
  - change (respaced (s :: s' :: rest'))
      with ((s ++ lit " ") ++ respaced (s' :: rest')).
    rewrite IH by discriminate.
    change (join (lit " ") (s :: s' :: rest'))
      with (s ++ lit " " ++ join (lit " ") (s' :: rest')).
    rewrite <- !app_assoc. reflexivity.
Qed.

Lemma trim_snoc_space (s : str) : trim (s ++ lit " ") = trim s.
Proof.
  unfold trim. induction s as [|c r IH]; [reflexivity|].
  simpl. destruct (isWhitespace c); [exact IH|].
  change (c :: r ++ lit " ") with ((c :: r) ++ lit " ").
  apply trimEnd_snoc_space.
Qed.

(** X6: a text within the threshold is never cut: the Chunker returns it as one
    chunk, its sentences joined by single spaces and trimmed, or no chunk at
    all when it is blank. *)
Theorem short_text_is_one_chunk (text : str) (maxLength : nat) :
  length text <= maxLength ->
  splitIntoChunks text maxLength
  = let whole := trim (join (lit " ") (split_sentences text)) in
    if nonempty whole then [whole] else [].
Proof.
  intros Hlen. unfold splitIntoChunks, split_sentences.
  pose proof (split_sentences_respaced_length text (InSentence false)) as Hsum.
  rewrite pack_short by (simpl; lia). cbn [app].
  rewrite respaced_join by apply split_sentences_nonempty.
  unfold nonblank. rewrite trim_snoc_space. cbv zeta.
  destruct (trim (join (lit " ") (split_sentences_from (InSentence false) text)));
    reflexivity.
Qed.

Lemma pack_word_trimmed (n : nat) (st : list str * str) (word : str) :
  Forall trimmed (fst st) -> Forall trimmed (fst (pack_word n st word)).
Proof.
  destruct st as [chunks wc]. unfold pack_word. cbn [fst].
  destruct (n <? length wc + length word); cbn [fst]; [|auto].
  intros H. apply Forall_app. split; [exact H|].
  constructor; [apply trim_idempotent|constructor].
Qed.

Lemma pack_words_trimmed (n : nat) (words : list str) : forall st,
  Forall trimmed (fst st) ->
  Forall trimmed (fst (fold_left (pack_word n) words st)).
Proof.
  induction words as [|w r IH]; intros st H; simpl; [exact H|].
  apply IH, pack_word_trimmed, H.
Qed.

Lemma pack_sentence_trimmed (n : nat) (st : list str * str) (sentence : str) :
  Forall trimmed (fst st) -> Forall trimmed (fst (pack_sentence n st sentence)).
Proof.
  destruct st as [chunks cur]. unfold pack_sentence. cbn [fst]. intros H.
  destruct (n <? length cur + length sentence); [|exact H].
  assert (H' : Forall trimmed (chunks ++ [trim cur])).
  { apply Forall_app. split; [exact H|].
    constructor; [apply trim_idempotent|constructor]. }
  assert (Hwords : forall chunks', Forall trimmed chunks' ->
            Forall trimmed
              (fst (let '(chunks0, wordChunk) :=
                      fold_left (pack_word n) (split_char " "%char sentence)
                        (chunks', []) in
                    if nonblank wordChunk then (chunks0, wordChunk)
                    else (chunks0, ([] : str))))).
  { intros chunks' Hc.
    pose proof (@pack_words_trimmed n (split_char " "%char sentence)
                  (chunks', []) Hc) as Hw.
    destruct (fold_left (pack_word n) (split_char " "%char sentence) (chunks', []))
      as [chunks'' wc].
    destruct (nonblank wc); exact Hw. }
  destruct (0 <? length cur) eqn:Ecur.
  - destruct (n <? length sentence); [|exact H'].
    apply (Hwords _ H').
  - destruct (n <? length sentence); [|exact H].
    apply Nat.ltb_ge in Ecur. destruct cur; [|simpl in Ecur; lia].
    apply (Hwords _ H).
Qed.

Lemma pack_sentences_trimmed (n : nat) (sentences : list str) : forall st,
  Forall trimmed (fst st) ->
  Forall trimmed (fst (fold_left (pack_sentence n) sentences st)).
Proof.
  induction sentences as [|s r IH]; intros st H; simpl; [exact H|].
  apply IH, pack_sentence_trimmed, H.
Qed.

(** X7: no chunk starts or ends with whitespace, whatever the text and the
    threshold. *)
Theorem chunks_are_trimmed (text : str) (maxLength : nat) :
  Forall trimmed (splitIntoChunks text maxLength).
Proof.
  unfold splitIntoChunks.
  pose proof (@pack_sentences_trimmed maxLength (split_sentences text) ([], [])
                (Forall_nil _)) as H.
  destruct (fold_left (pack_sentence maxLength) (split_sentences text) ([], []))
    as [chunks cur].
  cbn [fst] in H. destruct (nonblank cur); [|exact H].
  apply Forall_app. split; [exact H|].
  constructor; [apply trim_idempotent|constructor].
Qed.

Lemma one_token_sentence (text : str) : forall e,
  one_token text = true ->
  split_sentences_from (InSentence e) text = [text].
Proof.
  induction text as [|c r IH]; intros e H; [reflexivity|].
  simpl in H. apply andb_true_iff in H as [Hc Hr].
  apply negb_true_iff in Hc. cbn [split_sentences_from].
  rewrite Hc, andb_false_r, IH by assumption. reflexivity.
Qed.

Lemma one_token_no_space (text : str) :
  one_token text = true -> ~ In " "%char text.
Proof.
  unfold one_token. rewrite forallb_forall. intros H Hin.
  specialize (H _ Hin). discriminate.
Qed.

Lemma one_token_trimStart (text : str) :
  one_token text = true -> trimStart text = text.
Proof.
  destruct text as [|c r]; [reflexivity|]. simpl. intros H.
  apply andb_true_iff in H as [Hc _]. apply negb_true_iff in Hc.
  rewrite Hc. reflexivity.
Qed.

Lemma one_token_rev (text : str) :
  one_token text = true -> one_token (rev text) = true.
Proof.
  unfold one_token. rewrite !forallb_forall. intros H c Hc.
  apply H, in_rev, Hc.
Qed.

Lemma one_token_trim (text : str) : one_token text = true -> trim text = text.
Proof.
  intros H. unfold trim, trimEnd. rewrite (@one_token_trimStart _ H).
  rewrite (@one_token_trimStart _ (@one_token_rev _ H)). apply rev_involutive.
Qed.

(** X8: a token longer than the threshold is not cut.  A text that is one such
    token comes back as two chunks: an empty one, then the whole token. *)
Theorem overlong_token_gives_empty_chunk (text : str) (maxLength : nat) :
  one_token text = true -> maxLength < length text ->
  splitIntoChunks text maxLength = [[]; text].
Proof.
  intros Htok Hlen. unfold splitIntoChunks, split_sentences.
  rewrite (@one_token_sentence text false Htok).
  cbn [fold_left]. unfold pack_sentence. cbn [length Nat.add].
  replace (maxLength <? length text) with true
    by (symmetry; apply Nat.ltb_lt; exact Hlen).
  cbn [Nat.ltb Nat.leb].
  rewrite split_char_absent by (apply one_token_no_space; exact Htok).
  cbn [fold_left]. unfold pack_word. cbn [length Nat.add].
  replace (maxLength <? length text) with true
    by (symmetry; apply Nat.ltb_lt; exact Hlen).
  cbn [app].
  assert (Hnb : nonblank (text ++ lit " ") = true).
  { unfold nonblank. rewrite trim_snoc_space, (@one_token_trim _ Htok).
    destruct text; [simpl in Hlen; lia|reflexivity]. }
  rewrite Hnb. cbv iota beta. rewrite Hnb.
  rewrite trim_snoc_space, (@one_token_trim _ Htok). reflexivity.
Qed.

Lemma short_text_is_one_chunk_witness :
  map string_of_list_ascii (splitIntoChunks Stubs.remarks 80)
  = ["Hello world. This is a test! Another one? Yes."]%string.
Proof.
  rewrite (@short_text_is_one_chunk Stubs.remarks 80)
    by (vm_compute; lia).
  reflexivity.
Defined.

Lemma overlong_token_gives_empty_chunk_witness :
  splitIntoChunks (lit "https://example.org/a/very/long/path") 10
  = [[]; lit "https://example.org/a/very/long/path"].
Proof.
  apply overlong_token_gives_empty_chunk; [reflexivity|vm_compute; lia].
Defined.

End ChunkShapeFacts.

(** ** Summary consolidation *)

Module ConsolidationFacts.
Import JS Consolidation StrFacts.

Lemma join_nonempty (sep : str) (parts : list str) :
  match parts with first :: _ => first <> [] | [] => False end ->
  join sep parts <> [].
Proof.
  destruct parts as [|x [|y r]]; simpl; [tauto|auto|].
  intros Hx. destruct x; [congruence|discriminate].
Qed.

(** X9: consolidation never fails and never loses the summaries: a single
    summary is returned as it is without calling the service, and when the
    summaries are not empty strings the result (the service's answer, the
    first summary, or all of them joined by spaces when the service fails)
    is a non-empty string. *)
Theorem consolidated_summary_is_present (S : Type)
    (create_completion : str -> S -> completion (option str) * S)
    (summaries : list str) (s : S) :
  summaries <> [] -> Forall (fun summary => summary <> []) summaries ->
  let '(result, s') := generateConsolidatedSummary create_completion summaries s in
  (exists text, result = Some text /\ text <> [])
  /\ (forall only, summaries = [only] -> result = Some only /\ s' = s)
  /\ (forall e, fst (create_completion
                       (join [GraphService.newline; GraphService.newline] summaries) s)
                = Throw e ->
      length summaries <> 1 -> result = Some (join (lit " ") summaries)).
Proof.
  intros Hne Hall. unfold generateConsolidatedSummary.
  destruct summaries as [|first rest]; [congruence|].
  inversion Hall as [|? ? Hfirst Hrest]; subst.
  destruct rest as [|second rest].
  - split; [eauto|]. split.
    + intros only [= <-]. split; reflexivity.
    + intros e _ H. simpl in H. congruence.
  - destruct (create_completion _ s) as [[[[|c content]|]|e] s']; cbn [fst].
    + split; [exists first; auto|]. split; [discriminate|discriminate].
    + split; [exists (c :: content); split; [reflexivity|discriminate]|].
      split; [discriminate|discriminate].
    + split; [exists first; auto|]. split; [discriminate|discriminate].
    + split.
      * eexists. split; [reflexivity|]. apply join_nonempty. exact Hfirst.
      * split; [discriminate|]. reflexivity.
Qed.

Lemma consolidated_summary_is_present_witness :
  generateConsolidatedSummary ContractStubs.unavailable
    [lit "Login fixed."; lit "Release on Friday."] 0
  = (Some (lit "Login fixed. Release on Friday."), 1).
Proof.
  pose proof (@consolidated_summary_is_present nat ContractStubs.unavailable
                [lit "Login fixed."; lit "Release on Friday."] 0
                ltac:(discriminate)
                ltac:(repeat constructor; discriminate)) as H.
  destruct (generateConsolidatedSummary ContractStubs.unavailable _ 0)
    as [result s'] eqn:E.
  destruct H as (_ & _ & H).
  rewrite (H _ eq_refl ltac:(simpl; lia)).
  vm_compute in E. injection E as _ <-. reflexivity.
Defined.

End ConsolidationFacts.

(** ** HTML escaping *)

Module EscapeFacts.
Import JS Model DevOpsService DeliverySpec StrFacts.

Lemma replace_char_app (c : ascii) (rep : string) (a b : str) :
  replace_char c rep (a ++ b) = replace_char c rep a ++ replace_char c rep b.
Proof. unfold replace_char. apply flat_map_app. Qed.

Lemma escapeHtml_app (a b : str) :
  escapeHtml (a ++ b) = escapeHtml a ++ escapeHtml b.
Proof. unfold escapeHtml. rewrite !replace_char_app. reflexivity. Qed.

Lemma escapeHtml_char (c : ascii) : escapeHtml [c] = escape_char c.
Proof. destruct c as [[] [] [] [] [] [] [] []]; reflexivity. Qed.

(** The five replacements in a row amount to one pass that replaces each
    character by its entity: no entity is escaped a second time. *)
Lemma escapeHtml_cons (c : ascii) (r : str) :
  escapeHtml (c :: r) = escape_char c ++ escapeHtml r.
Proof.
  change (c :: r) with ([c] ++ r). rewrite escapeHtml_app, escapeHtml_char.
  reflexivity.
Qed.

Lemma escapeHtml_flat_map (text : str) :
  escapeHtml text = flat_map escape_char text.
Proof.
  induction text as [|c r IH]; [reflexivity|].
  rewrite escapeHtml_cons, IH. reflexivity.
Qed.

Ltac split_char_cases c :=
  unfold escape_char;
  destruct (Ascii.eqb c "&"%char) eqn:?E1;
  [|destruct (Ascii.eqb c "<"%char) eqn:?E2;
    [|destruct (Ascii.eqb c ">"%char) eqn:?E3;
      [|destruct (Ascii.eqb c double_quote) eqn:?E4;
        [|destruct (Ascii.eqb c "'"%char) eqn:?E5]]]].

Lemma escape_char_safe (c : ascii) :
  forallb (fun x => negb (markup x)) (escape_char c) = true.
Proof.
  split_char_cases c; try reflexivity.
  unfold markup. simpl. rewrite E2, E3, E4, E5. reflexivity.
Qed.

Lemma escape_char_prefix (x y : ascii) (a b : str) :
  escape_char x ++ a = escape_char y ++ b -> x = y /\ a = b.
Proof.
  split_char_cases x; split_char_cases y;
    repeat match goal with
           | H : Ascii.eqb _ _ = true |- _ => apply Ascii.eqb_eq in H; subst
           end;
    cbv [lit list_ascii_of_string app double_quote]; intros H;
    try discriminate H;
    try (injection H as -> ->; split; reflexivity);
    try (injection H as ->; split; reflexivity);
    try (injection H as -> _; discriminate);
    try (injection H as <- _;
         match goal with
         | E : Ascii.eqb "&"%char "&"%char = false |- _ => discriminate E
         end).
Qed.

Lemma escape_char_nonempty (c : ascii) (r : str) : escape_char c ++ r <> [].
Proof. split_char_cases c; discriminate. Qed.

(** X10: escaped text holds no character that opens or closes markup or an
    attribute value, and the text can be recovered from it: two texts with
    the same escaped form are the same text. *)
Theorem escapeHtml_is_safe_and_lossless :
  (forall text, forallb (fun c => negb (markup c)) (escapeHtml text) = true)
  /\ (forall a b, escapeHtml a = escapeHtml b -> a = b).
Proof.
  split.
  - intros text. rewrite escapeHtml_flat_map.
    induction text as [|c r IH]; [reflexivity|].
    simpl. rewrite forallb_app, escape_char_safe, IH. reflexivity.
  - induction a as [|x a IH]; intros [|y b]; rewrite ?escapeHtml_cons.
    + reflexivity.
    + intros H. symmetry in H. apply escape_char_nonempty in H. contradiction.
    + intros H. apply escape_char_nonempty in H. contradiction.
    + intros H. apply escape_char_prefix in H as [-> H]. f_equal. apply IH, H.
Qed.

Lemma escapeHtml_is_safe_and_lossless_witness :
  escapeHtml (lit "<b>Tom & Jerry's</b>")
  = lit "&lt;b&gt;Tom &amp; Jerry&#039;s&lt;/b&gt;"
  /\ forall text,
       escapeHtml text = lit "&lt;b&gt;Tom &amp; Jerry&#039;s&lt;/b&gt;" ->
       text = lit "<b>Tom & Jerry's</b>".
Proof.
  split; [reflexivity|]. intros text H.
  apply (proj2 escapeHtml_is_safe_and_lossless). rewrite H. reflexivity.
Defined.

End EscapeFacts.

(** ** Patch documents *)

Module PatchFacts.
Import JS Model DevOpsService DeliverySpec StrFacts.

Lemma distinct_NoDup (l : list str) : distinct l = true -> NoDup l.
Proof.
  induction l as [|x r IH]; simpl; intros H; constructor;
    apply andb_true_iff in H as [Hx Hr]; [|auto].
  intros Hin. apply negb_true_iff in Hx.
  assert (existsb (str_eqb x) r = true); [|congruence].
  apply existsb_exists. exists x. split; [exact Hin|apply str_eqb_refl].
Qed.

(** X11: whatever the item and the configuration: a patch document only adds
    fields, names no field twice, starts with the title, the description,
    the priority as its ordinal (1 for High, 2 for Medium, 3 for Low) and the
    tags, and holds at most four more fields. *)
Theorem patch_document_is_well_formed (config : AzureDevOpsConfig)
    (parseDeadline : str -> option str) (task : ActionItem)
    (assigneeIdentity correlationId : str) :
  let doc :=
    buildPatchDocument config parseDeadline task assigneeIdentity correlationId in
  Forall (fun o => op o = lit "add") doc
  /\ NoDup (map path doc)
  /\ exists rest,
       doc = [add "/fields/System.Title" (PStr (title task));
              add "/fields/System.Description"
                (PStr (formatDescription task correlationId));
              add "/fields/Microsoft.VSTS.Common.Priority"
                (PNum (priority_ordinal (priority task)));
              add "/fields/System.Tags" (PStr (lit "ActionAgent; AI-Generated"))]
             ++ rest
       /\ length rest <= 4.
Proof.
  cbv zeta. unfold buildPatchDocument.
  replace (match priorityMap_at priorityMap (priority_name (priority task)) with
           | Some 0%Z | None => 2%Z
           | Some n => n
           end) with (priority_ordinal (priority task))
    by (destruct (priority task); reflexivity).
  destruct (nonempty assigneeIdentity
            && negb (str_eqb assigneeIdentity (lit "Unassigned")));
    [|destruct (nonempty (triageUser config))];
    destruct (nonempty (defaultAreaPath config));
    destruct (nonempty (defaultIterationPath config));
    (destruct (present (deadline task)) as [d|];
     [destruct (parseDeadline d) as [iso|]|]);
    cbn [app];
    (split; [repeat constructor|]);
    (split; [apply distinct_NoDup; vm_compute; reflexivity|]);
    (eexists; split; [reflexivity|simpl; lia]).
Qed.

End PatchFacts.

(** ** Deadlines *)

Module DeadlineFacts.
Import JS Deadlines DeliverySpec StrFacts.

Lemma local_day_addDays (n : Z) (d : Date) :
  local_day (addDays n d) = (local_day d + n)%Z.
Proof.
  unfold local_day, addDays, MS_PER_DAY. apply Z.div_add. discriminate.
Qed.

Lemma time_of_day_addDays (n : Z) (d : Date) :
  time_of_day (addDays n d) = time_of_day d.
Proof.
  unfold time_of_day, addDays, MS_PER_DAY. apply Z.mod_add. discriminate.
Qed.

(** X12: a relative deadline never lies in the past and never more than seven
    days ahead, and it does not depend on how absolute dates are parsed. *)
Theorem relative_deadline_is_within_a_week
    (Date_parse : str -> option Date) (now : Date) (deadline : str) :
  relative_deadline deadline = true ->
  exists due,
    parseDeadline Date_parse now deadline = Some due
    /\ (now <= due <= now + 7 * MS_PER_DAY)%Z.
Proof.
  unfold relative_deadline, parseDeadline. cbv zeta.
  set (lower := toLowerCase deadline).
  destruct (includes lower (lit "eod") || includes lower (lit "end of day")
            || includes lower (lit "today")) eqn:Etoday.
  - intros _. eexists. split; [reflexivity|].
    unfold setHours, local_day, MS_PER_DAY. Z.div_mod_to_equations. lia.
  - cbn [orb].
    destruct (includes lower (lit "tomorrow")).
    + intros _. eexists. split; [reflexivity|].
      unfold setHours, addDays, local_day, MS_PER_DAY.
      Z.div_mod_to_equations. lia.
    + cbn [orb]. destruct (includes lower (lit "next week")).
      * intros _. eexists. split; [reflexivity|].
        unfold addDays, MS_PER_DAY. lia.
      * cbn [orb]. intros ->. eexists. split; [reflexivity|].
        unfold addDays, getDay, local_day, MS_PER_DAY.
        destruct ((5 - (now / 86400000 + 4) mod 7 + 7) mod 7 =? 0)%Z eqn:E.
        -- lia.
        -- apply Z.eqb_neq in E. Z.div_mod_to_equations. lia.
Qed.

(** X13: "End of sprint" is the coming Friday: the due date falls on a Friday,
    one to seven days after today (a week later when today is a Friday),
    at the time of day the phrase was read. *)
Theorem sprint_deadline_is_the_coming_friday
    (Date_parse : str -> option Date) (now : Date) (deadline : str) :
  sprint_deadline deadline = true ->
  exists due,
    parseDeadline Date_parse now deadline = Some due
    /\ getDay due = 5%Z
    /\ (local_day now < local_day due <= local_day now + 7)%Z
    /\ time_of_day due = time_of_day now.
Proof.
  unfold sprint_deadline, parseDeadline. cbv zeta.
  set (lower := toLowerCase deadline). intros H.
  apply andb_true_iff in H as [Hnear Hsprint]. apply negb_true_iff in Hnear.
  apply orb_false_iff in Hnear as [Hnear E5].
  apply orb_false_iff in Hnear as [Hnear E4].
  rewrite Hnear, E4, E5, Hsprint.
  eexists. split; [reflexivity|].
  rewrite time_of_day_addDays. unfold getDay. rewrite local_day_addDays.
  set (day := local_day now).
  destruct ((5 - (day + 4) mod 7 + 7) mod 7 =? 0)%Z eqn:E.
  - apply Z.eqb_eq in E. repeat split; try lia.
    Z.div_mod_to_equations. lia.
  - apply Z.eqb_neq in E. repeat split; try (Z.div_mod_to_equations; lia).
Qed.

Lemma relative_deadline_is_within_a_week_witness :
  relative_deadline (lit "Tomorrow, EOD at the latest") = true
  /\ exists due,
       parseDeadline DeliveryStubs.no_dates DeliveryStubs.wednesday_morning
         (lit "Tomorrow, EOD at the latest") = Some due
       /\ (DeliveryStubs.wednesday_morning <= due
           <= DeliveryStubs.wednesday_morning + 7 * MS_PER_DAY)%Z.
Proof.
  split; [reflexivity|].
  apply relative_deadline_is_within_a_week. reflexivity.
Defined.

Lemma sprint_deadline_is_the_coming_friday_witness :
  getDay DeliveryStubs.friday_afternoon = 5%Z
  /\ exists due,
       parseDeadline DeliveryStubs.no_dates DeliveryStubs.friday_afternoon
         (lit "by Sprint End") = Some due
       /\ getDay due = 5%Z
       /\ (local_day DeliveryStubs.friday_afternoon < local_day due
           <= local_day DeliveryStubs.friday_afternoon + 7)%Z
       /\ time_of_day due = time_of_day DeliveryStubs.friday_afternoon.
Proof.
  split; [reflexivity|].
  apply sprint_deadline_is_the_coming_friday. reflexivity.
Defined.

End DeadlineFacts.

(** ** Pauses between batches *)

Module PauseFacts.
Import JS Model DevOpsService Spec StrFacts BatchFacts.

Section Batches.
Variable B : Type.
Variable createWorkItem :
  ActionItem -> bool -> B -> completion ExtendedWorkItemResult * B.
Variable resolveIdentities : bool.

#[local] Abbreviation create_loop := (create_loop createWorkItem resolveIdentities).

Lemma create_loop_pauses (n : nat) : forall pending results errors (w : World B),
  length pending <= n ->
  let '(_, _, w') := create_loop pending results errors w in
  pauses w'
  = pauses w ++ repeat DELAY_BETWEEN_BATCHES_MS
                  ((length pending - 1) / MAX_CONCURRENT).
Proof.
  induction n as [|n IH]; intros pending results errors w Hlen.
  - destruct pending; [|simpl in Hlen; lia].
    simp create_loop. simpl. rewrite app_nil_r. reflexivity.
  - destruct pending as [|t rest].
    { simp create_loop. simpl. rewrite app_nil_r. reflexivity. }
    remember (t :: rest) as pending eqn:Ep.
    rewrite create_loop_step by (subst; discriminate).
    rewrite run_batch_outcomes. cbv beta iota zeta.
    pose proof (length_skipn MAX_CONCURRENT pending) as Hskip.
    assert (Hpos : 0 < length pending) by (subst; simpl; lia).
    match goal with
    | |- context [DevOpsService.create_loop _ _ ?p ?r ?e ?w1] =>
        specialize (IH p r e w1 ltac:(unfold MAX_CONCURRENT in *; lia));
        destruct (DevOpsService.create_loop createWorkItem resolveIdentities p r e w1)
          as [[results' errors'] w']
    end.
    unfold MAX_CONCURRENT in *.
    destruct (skipn 5 pending) as [|x later] eqn:Es;
      cbn [nonempty pause pauses length] in IH, Hskip |- *; rewrite IH.
    + replace ((length pending - 1) / 5) with 0
        by (symmetry; apply Nat.div_small; lia).
      reflexivity.
    + rewrite <- app_assoc. f_equal.
      replace (length pending - 1) with (1 * 5 + (length later)) by lia.
      rewrite Nat.div_add_l by discriminate.
      replace (Datatypes.S (length later) - 1) with (length later) by lia.
      reflexivity.
Qed.

(** X14: batches of five with a pause of 500 ms between two batches, none before
    the first or after the last: for [n] items, [(n - 1) / 5] pauses. *)
Theorem createWorkItems_pauses_between_batches (tasks : list ActionItem)
    (w : World B) :
  pauses (snd (createWorkItems createWorkItem tasks resolveIdentities w))
  = pauses w ++ repeat DELAY_BETWEEN_BATCHES_MS
                  ((length tasks - 1) / MAX_CONCURRENT).
Proof.
  unfold createWorkItems.
  pose proof (@create_loop_pauses (length tasks) tasks [] [] w (le_n _)) as H.
  destruct (DevOpsService.create_loop createWorkItem resolveIdentities tasks [] [] w)
    as [[results errors] w'].
  exact H.
Qed.
End Batches.

End PauseFacts.

(** ** Directory search: the cache *)

Module SearchFacts.
Import JS IdentityService UserSearch SearchSpec StrFacts MapFacts.

Lemma map_get_delete (V : Type) (k k' : str) (m : Map V) :
  map_get k (map_delete k' m)
  = if str_eqb k k' then None else map_get k m.
Proof.
  induction m as [|[k0 v] m IH]; simpl.
  - destruct (str_eqb k k'); reflexivity.
  - destruct (str_eqb k0 k') eqn:E0; simpl.
    + apply str_eqb_eq in E0. subst k0.
      destruct (str_eqb k k'); [assumption|]. exact IH.
    + destruct (str_eqb k k0) eqn:E; [|exact IH].
      apply str_eqb_eq in E. subst k0. rewrite E0. reflexivity.
Qed.

Lemma map_delete_incl (V : Type) (k : str) (m : Map V) (e : str * V) :
  In e (map_delete k m) -> In e m.
Proof. unfold map_delete. intros H. apply filter_In in H. tauto. Qed.

Lemma map_delete_NoDup (V : Type) (k : str) (m : Map V) :
  NoDup (map_keys m) -> NoDup (map_keys (map_delete k m)).
Proof.
  induction m as [|[k0 v] m IH]; simpl; intros H; [constructor|].
  inversion H as [|? ? Hnotin Hrest]; subst.
  destruct (negb (str_eqb k0 k)); [|auto].
  simpl. constructor; [|auto].
  intros Hin. apply Hnotin. unfold map_keys in *.
  apply in_map_iff in Hin as ([k1 v1] & Hk & Hin). simpl in Hk. subst k1.
  apply in_map_iff. exists (k0, v1). split; [reflexivity|].
  eapply map_delete_incl; eauto.
Qed.

Lemma map_get_set_same (V : Type) (k : str) (v : V) (m : Map V) :
  map_get k (map_set k v m) = Some v.
Proof.
  induction m as [|[k0 v0] m IH]; simpl.
  - rewrite str_eqb_refl. reflexivity.
  - destruct (str_eqb k k0) eqn:E; simpl; rewrite E; [reflexivity|exact IH].
Qed.

Lemma map_set_keys (V : Type) (k : str) (v : V) (m : Map V) :
  map_keys (map_set k v m)
  = if existsb (str_eqb k) (map_keys m) then map_keys m else map_keys m ++ [k].
Proof.
  induction m as [|[k0 v0] m IH]; simpl; [reflexivity|].
  destruct (str_eqb k k0) eqn:E; simpl; [reflexivity|].
  rewrite IH. destruct (existsb (str_eqb k) (map_keys m)); reflexivity.
Qed.

Lemma map_set_NoDup (V : Type) (k : str) (v : V) (m : Map V) :
  NoDup (map_keys m) -> NoDup (map_keys (map_set k v m)).
Proof.
  intros H. rewrite map_set_keys.
  destruct (existsb (str_eqb k) (map_keys m)) eqn:E; [exact H|].
  apply DedupFacts.NoDup_snoc; [exact H|]. intros Hin.
  assert (existsb (str_eqb k) (map_keys m) = true); [|congruence].
  apply existsb_exists. exists k. split; [exact Hin|apply str_eqb_refl].
Qed.

(** In a map, the value found under a key is the only one filed there. *)
Lemma map_get_only (V : Type) (k : str) (v v' : V) (m : Map V) :
  NoDup (map_keys m) -> map_get k m = Some v -> In (k, v') m -> v' = v.
Proof.
  induction m as [|[k0 v0] m IH]; simpl; intros Hnd Hget Hin; [contradiction|].
  inversion Hnd as [|? ? Hnotin Hrest]; subst.
  destruct (str_eqb k k0) eqn:E.
  - apply str_eqb_eq in E. subst k0. injection Hget as <-.
    destruct Hin as [[= <-]|Hin]; [reflexivity|].
    exfalso. apply Hnotin. eapply in_map_keys; eauto.
  - destruct Hin as [[= <- <-]|Hin]; [rewrite str_eqb_refl in E; discriminate|].
    auto.
Qed.

Lemma stale_key_of_entry (now : Z) (timestamps : Map Z) (k : str) (t : Z) :
  NoDup (map_keys timestamps) -> map_get k timestamps = Some t ->
  stale_key now timestamps k = (CACHE_TTL_MS <? now - t)%Z.
Proof.
  intros Hnd Hget. unfold stale_key.
  destruct (CACHE_TTL_MS <? now - t)%Z eqn:Et.
  - apply existsb_exists. exists (k, t). split.
    + apply map_get_split in Hget as (m1 & m2 & -> & _).
      apply in_or_app. right. left. reflexivity.
    + simpl. rewrite str_eqb_refl, Et. reflexivity.
  - destruct (existsb _ timestamps) eqn:Ex; [|reflexivity].
    apply existsb_exists in Ex as ([k' t'] & Hin & Hst). simpl in Hst.
    apply andb_true_iff in Hst as [Hk Ht']. apply str_eqb_eq in Hk. subst k'.
    rewrite (@map_get_only _ _ _ _ _ Hnd Hget Hin) in Ht'. congruence.
Qed.

Lemma stale_key_absent (now : Z) (timestamps : Map Z) (k : str) :
  map_get k timestamps = None -> stale_key now timestamps k = false.
Proof.
  intros Hget. unfold stale_key.
  destruct (existsb _ timestamps) eqn:Ex; [|reflexivity].
  apply existsb_exists in Ex as ([k' t'] & Hin & Hst). simpl in Hst.
  apply andb_true_iff in Hst as [Hk _]. apply str_eqb_eq in Hk. subst k'.
  apply map_get_None in Hget. exfalso. apply Hget. eapply in_map_keys; eauto.
Qed.

Section Search.
Variable G : Type.
Variable Date_now : G -> Z.
Variables filter_users search_users : str -> G -> completion (list DirectoryUser) * G.

#[local] Abbreviation cleanCache := (cleanCache Date_now).
#[local] Abbreviation searchUsersByName :=
  (searchUsersByName Date_now filter_users search_users).

Lemma expire_all (now : Z) (entries : Map Z) : forall st : State G,
  let st' := fold_left (expire now) entries st in
  graph st' = graph st
  /\ (forall k, map_get k (userCache st')
                = if stale_key now entries k then None
                  else map_get k (userCache st))
  /\ (forall k, map_get k (cacheTimestamps st')
                = if stale_key now entries k then None
                  else map_get k (cacheTimestamps st))
  /\ (NoDup (map_keys (cacheTimestamps st)) ->
      NoDup (map_keys (cacheTimestamps st'))).
Proof.
  induction entries as [|[key t] entries IH]; intros st; cbv zeta.
  - simpl. auto.
  - cbn [fold_left]. specialize (IH (expire now st (key, t))). cbv zeta in IH.
    destruct IH as (Hg & Hu & Ht & Hnd).
    unfold stale_key in *. cbn [existsb fst snd].
    unfold expire in *.
    destruct (CACHE_TTL_MS <? now - t)%Z eqn:Est; cbn [graph userCache cacheTimestamps] in *.
    + split; [exact Hg|]. split; [|split].
      * intros k. rewrite Hu, map_get_delete, (str_eqb_sym key k).
        destruct (str_eqb k key); simpl; [|reflexivity].
        destruct (existsb _ entries); reflexivity.
      * intros k. rewrite Ht, map_get_delete, (str_eqb_sym key k).
        destruct (str_eqb k key); simpl; [|reflexivity].
        destruct (existsb _ entries); reflexivity.
      * intros H. apply Hnd, map_delete_NoDup, H.
    + split; [exact Hg|]. split; [|split].
      * intros k. rewrite Hu, andb_false_r. reflexivity.
      * intros k. rewrite Ht, andb_false_r. reflexivity.
      * exact Hnd.
Qed.

Lemma cleanCache_graph (st : State G) : graph (cleanCache st) = graph st.
Proof. apply (expire_all (Date_now (graph st)) (cacheTimestamps st) st). Qed.

Lemma cleanCache_userCache (st : State G) (k : str) :
  map_get k (userCache (cleanCache st))
  = if stale_key (Date_now (graph st)) (cacheTimestamps st) k then None
    else map_get k (userCache st).
Proof. apply (expire_all (Date_now (graph st)) (cacheTimestamps st) st). Qed.

Lemma cleanCache_timestamps (st : State G) (k : str) :
  map_get k (cacheTimestamps (cleanCache st))
  = if stale_key (Date_now (graph st)) (cacheTimestamps st) k then None
    else map_get k (cacheTimestamps st).
Proof. apply (expire_all (Date_now (graph st)) (cacheTimestamps st) st). Qed.

Lemma cleanCache_NoDup (st : State G) :
  NoDup (map_keys (cacheTimestamps st)) ->
  NoDup (map_keys (cacheTimestamps (cleanCache st))).
Proof. apply (expire_all (Date_now (graph st)) (cacheTimestamps st) st). Qed.

(** Whether an entry survives cleaning, for a key of a well-formed map. *)
Lemma stale_key_cases (st : State G) (k : str) :
  NoDup (map_keys (cacheTimestamps st)) ->
  stale_key (Date_now (graph st)) (cacheTimestamps st) k
  = match map_get k (cacheTimestamps st) with
    | Some t => (CACHE_TTL_MS <? Date_now (graph st) - t)%Z
    | None => false
    end.
Proof.
  intros Hnd. destruct (map_get k (cacheTimestamps st)) as [t|] eqn:E.
  - apply stale_key_of_entry; assumption.
  - apply stale_key_absent; assumption.
Qed.

(** What is left after cleaning is not stale: cleaning again at the same
    time removes nothing under any key. *)
Lemma cleaned_is_fresh (st : State G) (k : str) :
  NoDup (map_keys (cacheTimestamps st)) ->
  stale_key (Date_now (graph st)) (cacheTimestamps (cleanCache st)) k = false.
Proof.
  intros Hnd.
  pose proof (@cleanCache_NoDup st Hnd) as Hnd'.
  pose proof (cleanCache_timestamps st k) as Hk.
  rewrite (@stale_key_cases st k Hnd) in Hk.
  destruct (map_get k (cacheTimestamps (cleanCache st))) as [t|] eqn:E.
  - rewrite (@stale_key_of_entry _ _ _ _ Hnd' E).
    destruct (map_get k (cacheTimestamps st)) as [t0|]; [|discriminate].
    destruct (CACHE_TTL_MS <? Date_now (graph st) - t0)%Z eqn:Et0;
      [discriminate|]. injection Hk as ->. exact Et0.
  - apply stale_key_absent. exact E.
Qed.

(** X15: a cached entry is used exactly while it is not older than five minutes:
    a fresh entry is returned without any directory request, whatever the
    letter case of the name; a stale one is dropped before the lookup. *)
Theorem cache_entry_lives_five_minutes (name : str) (st : State G)
    (users : list ResolvedUser) (cachedAt : Z) :
  NoDup (map_keys (cacheTimestamps st)) ->
  map_get (toLowerCase name) (userCache st) = Some users ->
  map_get (toLowerCase name) (cacheTimestamps st) = Some cachedAt ->
  ((Date_now (graph st) - cachedAt <= CACHE_TTL_MS)%Z ->
   fst (searchUsersByName name st) = users
   /\ graph (snd (searchUsersByName name st)) = graph st)
  /\ ((Date_now (graph st) - cachedAt > CACHE_TTL_MS)%Z ->
      map_get (toLowerCase name) (userCache (cleanCache st)) = None
      /\ map_get (toLowerCase name) (cacheTimestamps (cleanCache st)) = None).
Proof.
  intros Hnd Husers Hat.
  pose proof (cleanCache_userCache st (toLowerCase name)) as Hu.
  pose proof (cleanCache_timestamps st (toLowerCase name)) as Ht.
  rewrite (@stale_key_cases st _ Hnd), Hat in Hu, Ht.
  split; intros Hage.
  - replace (CACHE_TTL_MS <? Date_now (graph st) - cachedAt)%Z with false in Hu
      by (symmetry; apply Z.ltb_ge; lia).
    unfold UserSearch.searchUsersByName. cbv zeta.
    fold (cleanCache st). rewrite Hu, Husers. cbn [fst snd].
    split; [reflexivity|apply cleanCache_graph].
  - replace (CACHE_TTL_MS <? Date_now (graph st) - cachedAt)%Z with true in Hu, Ht
      by (symmetry; apply Z.ltb_lt; lia).
    split; assumption.
Qed.

(** A lookup that misses the cache returns nothing, or caches what it
    returns under the lower-cased name at the time the requests end. *)
Lemma miss_caches (name : str) (st : State G) :
  map_get (toLowerCase name) (userCache (cleanCache st)) = None ->
  let '(users, st1) := searchUsersByName name st in
  users = []
  \/ exists g, st1 = store Date_now (toLowerCase name) users
                       (set_graph g (cleanCache st)).
Proof.
  intros Hmiss. unfold UserSearch.searchUsersByName. cbv zeta.
  fold (cleanCache st). rewrite Hmiss.
  destruct (filter_users _ (graph (cleanCache st))) as [[value|e] g1];
    [|left; reflexivity].
  destruct (nonempty (map (with_confidence high) value)) eqn:Ehigh.
  - rewrite Ehigh. right. exists g1. reflexivity.
  - destruct (filter_users _ g1) as [[value2|e] g2]; cbn [bind];
      [|left; reflexivity].
    destruct (nonempty (map (with_confidence medium) value2)) eqn:Emedium.
    + right. exists g2. reflexivity.
    + destruct (search_users _ g2) as [[value3|e] g3].
      * right. exists g3. reflexivity.
      * right. exists g3. reflexivity.
Qed.

(** X16: users that were found are served from the cache: asking again right
    away, in any letter case, returns the same users and sends no request to
    the directory. *)
Theorem found_users_are_served_from_cache (name name' : str) (st : State G) :
  NoDup (map_keys (cacheTimestamps st)) ->
  toLowerCase name' = toLowerCase name ->
  let '(users, st1) := searchUsersByName name st in
  users <> [] ->
  let '(again, st2) := searchUsersByName name' st1 in
  again = users /\ graph st2 = graph st1.
Proof.
  intros Hnd Hcase.
  destruct (map_get (toLowerCase name) (userCache (cleanCache st)))
    as [cached|] eqn:Ecache.
  - (* served from the cache the first time *)
    unfold UserSearch.searchUsersByName at 1. cbv zeta.
    fold (cleanCache st). rewrite Ecache. intros _.
    unfold UserSearch.searchUsersByName. cbv zeta.
    fold (cleanCache (cleanCache st)).
    rewrite Hcase, cleanCache_userCache, (cleanCache_graph st).
    rewrite (@cleaned_is_fresh st _ Hnd), Ecache.
    split; [reflexivity|]. rewrite !cleanCache_graph. reflexivity.
  - pose proof (miss_caches name st Ecache) as Hmiss.
    destruct (searchUsersByName name st) as [users st1].
    intros Hfound. destruct Hmiss as [->|[g ->]]; [congruence|].
    unfold UserSearch.searchUsersByName. cbv zeta.
    match goal with
    | |- context [UserSearch.cleanCache Date_now ?s] => set (st1 := s)
    end.
    fold (cleanCache st1).
    assert (Hnd1 : NoDup (map_keys (cacheTimestamps st1))).
    { subst st1. cbn. apply map_set_NoDup, cleanCache_NoDup, Hnd. }
    rewrite Hcase, cleanCache_userCache, (@stale_key_cases _ _ Hnd1).
    subst st1. cbn [store set_graph graph userCache cacheTimestamps].
    rewrite !map_get_set_same.
    replace (CACHE_TTL_MS <? Date_now g - Date_now g)%Z with false
      by (symmetry; apply Z.ltb_ge; unfold CACHE_TTL_MS; lia).
    split; [reflexivity|]. rewrite cleanCache_graph. reflexivity.
Qed.
End Search.

Lemma escapeODataValue_cons (c : ascii) (r : str) :
  escapeODataValue (c :: r)
  = (if Ascii.eqb c "'"%char then lit "''" else [c]) ++ escapeODataValue r.
Proof. reflexivity. Qed.

(** X17: in an escaped value every single quote is one of a pair, so the value
    cannot close the string literal of the filter it is put in; and the
    value can be read back from it. *)
Theorem escapeODataValue_keeps_literal_closed (value : str) :
  quotes_paired (escapeODataValue value) = true
  /\ unescapeODataValue (escapeODataValue value) = value.
Proof.
  induction value as [|c r [IH1 IH2]]; [split; reflexivity|].
  rewrite escapeODataValue_cons.
  destruct (Ascii.eqb c "'"%char) eqn:E.
  - apply Ascii.eqb_eq in E. subst c.
    change (lit "''" ++ escapeODataValue r)
      with ("'"%char :: "'"%char :: escapeODataValue r).
    split.
    + simpl. exact IH1.
    + simpl. rewrite IH2. reflexivity.
  - split; simpl; rewrite E; [exact IH1|rewrite IH2; reflexivity].
Qed.

Lemma cache_entry_lives_five_minutes_witness :
  (fst (searchUsersByName SearchStubs.clock SearchStubs.filter_by_prefix
          SearchStubs.search_unavailable (lit "ALICE")
          (SearchStubs.warm_cache 301000))
   = [with_confidence medium SearchStubs.alice]
   /\ graph (snd (searchUsersByName SearchStubs.clock SearchStubs.filter_by_prefix
                    SearchStubs.search_unavailable (lit "ALICE")
                    (SearchStubs.warm_cache 301000)))
      = 301000%Z)
  /\ userCache (cleanCache SearchStubs.clock (SearchStubs.warm_cache 301001)) = [].
Proof.
  split.
  - apply (@cache_entry_lives_five_minutes Z SearchStubs.clock
             SearchStubs.filter_by_prefix SearchStubs.search_unavailable
             (lit "ALICE") (SearchStubs.warm_cache 301000)
             [with_confidence medium SearchStubs.alice] 1000%Z).
    + repeat constructor. simpl. tauto.
    + reflexivity.
    + reflexivity.
    + vm_compute. discriminate.
  - reflexivity.
Defined.

Lemma found_users_are_served_from_cache_witness :
  let '(users, st1) :=
    searchUsersByName SearchStubs.clock SearchStubs.filter_by_prefix
      SearchStubs.search_unavailable (lit "Alice") (SearchStubs.empty_cache 0) in
  let '(again, st2) :=
    searchUsersByName SearchStubs.clock SearchStubs.filter_by_prefix
      SearchStubs.search_unavailable (lit "ALICE") st1 in
  users = [with_confidence medium SearchStubs.alice]
  /\ graph st1 = 80%Z /\ again = users /\ graph st2 = 80%Z.
Proof.
  pose proof (@found_users_are_served_from_cache Z SearchStubs.clock
                SearchStubs.filter_by_prefix SearchStubs.search_unavailable
                (lit "Alice") (lit "ALICE") (SearchStubs.empty_cache 0)
                (NoDup_nil _) eq_refl) as H.
  destruct (searchUsersByName SearchStubs.clock SearchStubs.filter_by_prefix
              SearchStubs.search_unavailable (lit "Alice")
              (SearchStubs.empty_cache 0)) as [users st1] eqn:E.
  vm_compute in E. injection E as <- <-.
  specialize (H ltac:(discriminate)).
  destruct (searchUsersByName SearchStubs.clock SearchStubs.filter_by_prefix
              SearchStubs.search_unavailable (lit "ALICE") _) as [again st2].
  destruct H as [-> ->]. repeat split.
Defined.

End SearchFacts.

(** ** Creation of one work item *)

Module CreationFacts.
Import JS Model IdentityService DevOpsService UserSearch ErrorWrapper ErrorSpec.
Import WorkItemCreation Spec Invariants StrFacts.
Import ErrorHandling.

Section Extensionality.
Variables (T S : Type).
Variable features : Features.
Variables operation operation' : S -> completion T * S.
Variable random : nat -> Q.
Hypothesis same : forall s, operation s = operation' s.

(** The wrappers see the operation only through its outcomes. *)
Lemma retry_loop_ext (cfg : RetryConfig) (remaining : nat) :
  forall attempt lastError (w : World S),
  retry_loop operation random cfg remaining attempt lastError w
  = retry_loop operation' random cfg remaining attempt lastError w.
Proof.
  induction remaining as [|remaining IH]; intros attempt lastError w;
    [reflexivity|].
  cbn [retry_loop]. unfold invoke. rewrite same.
  destruct (operation' (backend w)) as [[v|e] s']; [reflexivity|].
  rewrite IH. reflexivity.
Qed.

Lemma withErrorHandling_ext (context : CorrelationContext) (options : Options)
    (w : World S) :
  withErrorHandling features operation random context options w
  = withErrorHandling features operation' random context options w.
Proof.
  unfold withErrorHandling, withRetry, invoke.
  rewrite same. rewrite retry_loop_ext. reflexivity.
Qed.
End Extensionality.

Section Results.
Variables (T S : Type).
Variable features : Features.
Variable operation : S -> completion T * S.
Variable random : nat -> Q.

(** What the wrappers return is what some invocation of the operation
    returned. *)
Lemma retry_loop_result (cfg : RetryConfig) (remaining : nat) :
  forall attempt lastError (w w' : World S) (v : T),
  retry_loop operation random cfg remaining attempt lastError w = (inl v, w') ->
  exists s, fst (operation s) = Return v.
Proof.
  induction remaining as [|remaining IH]; intros attempt lastError w w' v;
    cbn [retry_loop]; [discriminate|].
  unfold invoke. destruct (operation (backend w)) as [[v0|e] s'] eqn:E.
  - intros [= <- _]. exists (backend w). rewrite E. reflexivity.
  - destruct ((attempt <? maxAttempts cfg)%Z && isRetryableError e);
      [apply IH|discriminate].
Qed.

Lemma withErrorHandling_result (context : CorrelationContext)
    (options : Options) (w w' : World S) (v : T) :
  withErrorHandling features operation random context options w
  = (Return v, w') ->
  exists s, fst (operation s) = Return v.
Proof.
  unfold withErrorHandling, withRetry.
  assert (Hinvoke : forall r w1, invoke operation w = (r, w1) ->
            match r with
            | Return v0 => exists s, fst (operation s) = Return v0
            | Throw _ => True
            end).
  { unfold invoke. intros r w1.
    destruct (operation (backend w)) as [r0 s'] eqn:E. intros [= <- _].
    destruct r0; [|exact I]. exists (backend w). rewrite E. reflexivity. }
  destruct (or_else (enableRetry options) false).
  - destruct (negb (enableRetries features)).
    + destruct (invoke operation w) as [[v0|e] w1] eqn:E.
      * intros [= <- _]. apply (Hinvoke _ _ eq_refl).
      * destruct e; discriminate.
    + destruct (retry_loop operation random _ _ 1 None w) as [[v0|l] w1] eqn:E.
      * intros [= <- _]. eapply retry_loop_result; eauto.
      * discriminate.
  - destruct (invoke operation w) as [[v0|e] w1] eqn:E.
    + intros [= <- _]. apply (Hinvoke _ _ eq_refl).
    + destruct e; discriminate.
Qed.
End Results.

Section Creation.
Variable config : AzureDevOpsConfig.
Variable features : Features.
Variable random : nat -> Q.
Variable parseDeadline : str -> option str.
Variable B : Type.
Variable uuidv4 : B -> str * B.
Variable Date_now : B -> Z.
Variable tracker_createWorkItem :
  list PatchOperation -> str -> str -> B -> completion (option WorkItem) * B.

(** X18: without a name to look up, or with lookups switched off, a creation
    does not touch the directory: its outcome and the state it leaves are
    the same whatever the directory would do. *)
Theorem creation_without_lookup_ignores_directory
    (resolveUser resolveUser' : str -> B -> completion ResolutionResult * B)
    (task : ActionItem) (resolveIdentities : bool) (w : World B) :
  resolveIdentities = false \/ assignedTo task = []
  \/ assignedTo task = lit "Unassigned" ->
  createWorkItem config features random parseDeadline uuidv4 Date_now
    resolveUser tracker_createWorkItem task resolveIdentities w
  = createWorkItem config features random parseDeadline uuidv4 Date_now
      resolveUser' tracker_createWorkItem task resolveIdentities w
  /\ forall record w',
       createWorkItem config features random parseDeadline uuidv4 Date_now
         resolveUser tracker_createWorkItem task resolveIdentities w
       = (Return record, w') ->
       assigneeResolution record = None.
Proof.
  intros Hskip.
  assert (Hcond : resolveIdentities && nonempty (assignedTo task)
                  && negb (str_eqb (assignedTo task) (lit "Unassigned")) = false).
  { destruct Hskip as [->|[->| ->]]; [reflexivity| |].
    - cbn [nonempty]. rewrite andb_false_r. reflexivity.
    - rewrite str_eqb_refl. cbn [negb]. apply andb_false_r. }
  split.
  - unfold createWorkItem.
    destruct (createCorrelationContext uuidv4 Date_now _ (backend w))
      as [context b0].
    apply withErrorHandling_ext. intros s. unfold create_once.
    rewrite Hcond. reflexivity.
  - unfold createWorkItem.
    destruct (createCorrelationContext uuidv4 Date_now _ (backend w))
      as [context b0].
    intros record w' H. apply withErrorHandling_result in H as [s H].
    unfold create_once in H. rewrite Hcond in H.
    destruct (tracker_createWorkItem _ _ _ s) as [[[wi|]|e] b2];
      try discriminate H.
    destruct (wi_id wi) as [n|]; [|discriminate H].
    destruct (n =? 0)%Z; [discriminate H|].
    injection H as <-. reflexivity.
Qed.

Variable resolveUser : str -> B -> completion ResolutionResult * B.

#[local] Abbreviation createWorkItem :=
  (createWorkItem config features random parseDeadline uuidv4 Date_now
     resolveUser tracker_createWorkItem).
#[local] Abbreviation create_once :=
  (create_once config parseDeadline resolveUser tracker_createWorkItem).

(** X19: a tracker that answers without an id is asked once: the missing id is
    reported as an [ActionAgentError] of the creation's correlation id, and
    the creation is not retried, with retries enabled or not. *)
Theorem missing_id_is_not_retried (task : ActionItem) (resolveIdentities : bool)
    (w : World B) :
  (1 <= maxRetries features)%Z ->
  let '(context, b0) :=
    createCorrelationContext uuidv4 Date_now (lit "DevOps.CreateWorkItem")
      (backend w) in
  fst (create_once task resolveIdentities context b0)
  = Throw (no_id_returned context) ->
  let '(outcome, w') := createWorkItem task resolveIdentities w in
  (exists e,
      outcome = Throw e
      /\ error_message e = lit "Failed to create work item - no ID returned"
      /\ error_correlationId e = Some (ErrorHandling.correlationId context)
      /\ isRetryableError e = false)
  /\ invocations w' = invocations w + 1
  /\ slept w' = slept w.
Proof.
  intros Hmax. unfold WorkItemCreation.createWorkItem.
  destruct (createCorrelationContext uuidv4 Date_now _ (backend w))
    as [context b0].
  intros Hfail. unfold withErrorHandling. cbn [enableRetry retryConfig or_else].
  set (w0 := {| backend := b0; invocations := invocations w;
                slept := slept w; draws := draws w |}).
  destruct (enableRetries features) eqn:Een.
  - assert (H1 : (Z.of_nat 1
                  <= maxAttempts (merge_config (defaultRetryConfig features)
                                    no_overrides))%Z).
    { simpl. lia. }
    rewrite (@RetryFacts.withRetry_gives_up _ _ features
               (create_once task resolveIdentities context) random context
               no_overrides 1 (no_id_returned context) w0 Een (le_n 1)
               H1 eq_refl Hfail (or_intror eq_refl)).
    unfold terminal_error, after_attempts.
    cbn [as_Error no_id_returned ActionAgentError terminal_message
         error_message invocations slept backoff_delays Nat.sub w0].
    split; [|split; [reflexivity|apply app_nil_r]].
    eexists. split; [reflexivity|]. repeat split.
  - unfold withRetry. rewrite Een. cbn [negb]. unfold invoke.
    cbn [backend w0].
    destruct (create_once task resolveIdentities context b0) as [r b2].
    simpl in Hfail. subst r. subst w0.
    cbn [no_id_returned ActionAgentError invocations slept].
    split; [|split; [lia|reflexivity]].
    eexists. split; [reflexivity|]. repeat split.
Qed.
End Creation.

Lemma creation_without_lookup_ignores_directory_witness :
  createWorkItem Stubs.devops_config Stubs.features Stubs.no_jitter
    (fun _ => None) CreationStubs.numbered_uuid CreationStubs.midnight
    CreationStubs.directory_down CreationStubs.tracker_without_id
    Stubs.unowned_task true Stubs.idle
  = createWorkItem Stubs.devops_config Stubs.features Stubs.no_jitter
      (fun _ => None) CreationStubs.numbered_uuid CreationStubs.midnight
      CreationStubs.directory_finds_sam CreationStubs.tracker_without_id
      Stubs.unowned_task true Stubs.idle.
Proof.
  apply creation_without_lookup_ignores_directory.
  right. right. reflexivity.
Defined.

Lemma missing_id_is_not_retried_witness :
  let '(outcome, w') :=
    createWorkItem Stubs.devops_config Stubs.features Stubs.no_jitter
      (fun _ => None) CreationStubs.numbered_uuid CreationStubs.midnight
      CreationStubs.directory_finds_sam CreationStubs.tracker_without_id
      Stubs.login_terse true Stubs.idle in
  (exists e,
      outcome = Throw e
      /\ error_message e = lit "Failed to create work item - no ID returned"
      /\ error_correlationId e = Some (lit "c0ffee")
      /\ isRetryableError e = false)
  /\ invocations w' = 1 /\ slept w' = [].
Proof.
  exact (@missing_id_is_not_retried Stubs.devops_config Stubs.features
           Stubs.no_jitter (fun _ => None) nat CreationStubs.numbered_uuid
           CreationStubs.midnight CreationStubs.tracker_without_id
           CreationStubs.directory_finds_sam Stubs.login_terse true Stubs.idle
           ltac:(vm_compute; discriminate) eq_refl).
Defined.

End CreationFacts.

(** ** Caption Normalizer: dropped lines and the shape of the output *)

Module CaptionLineFacts.
Import JS GraphService CaptionSpec Spec StrFacts WhitespaceFacts CaptionFacts.

Lemma split_char_sep (sep : ascii) (x rest : str) :
  ~ In sep x -> split_char sep (x ++ sep :: rest) = x :: split_char sep rest.
Proof.
  induction x as [|c r IH]; intros H; simpl.
  - rewrite (proj2 (Ascii.eqb_eq sep sep) eq_refl). reflexivity.
  - destruct (Ascii.eqb c sep) eqn:E.
    + apply Ascii.eqb_eq in E. subst c. exfalso. apply H. left. reflexivity.
    + rewrite IH by (intros Hin; apply H; right; exact Hin). reflexivity.
Qed.

Lemma split_join (sep : ascii) (lines : list str) :
  lines <> [] -> Forall (fun line => ~ In sep line) lines ->
  split_char sep (join [sep] lines) = lines.
Proof.
  induction lines as [|x rest IH]; [congruence|]. intros _ Hall.
  inversion Hall as [|? ? Hx Hrest]; subst.
  destruct rest as [|y rest'].
  - simpl. apply split_char_absent. exact Hx.
  - change (join [sep] (x :: y :: rest'))
      with (x ++ sep :: join [sep] (y :: rest')).
    rewrite split_char_sep by exact Hx. f_equal. apply IH; [discriminate|exact Hrest].
Qed.

Lemma vtt_line_metadata (st : list str * str) (line : str) :
  metadata_line line = true -> vtt_line st line = st.
Proof.
  unfold metadata_line, vtt_line. cbv zeta. destruct st as [textLines speaker].
  destruct (negb (nonempty (trim line)) || str_eqb (trim line) (lit "WEBVTT")
            || startsWith (trim line) (lit "NOTE")); [reflexivity|].
  cbn [orb]. destruct (includes (trim line) (lit " --> ")); [reflexivity|].
  cbn [orb]. intros ->. reflexivity.
Qed.

(** The text of line-break-free lines is normalized line by line. *)
Lemma parseVttToText_lines (lines : list str) :
  Forall one_line lines ->
  parseVttToText (join [newline] lines)
  = trim (collapse_whitespace
            (join (lit " ") (fst (fold_left vtt_line lines ([], []))))).
Proof.
  intros Hall. unfold parseVttToText.
  destruct (join [newline] lines) as [|c r] eqn:Ej.
  - (* an empty text: no line, or one empty line *)
    destruct lines as [|x [|y rest]]; [reflexivity| |].
    + simpl in Ej. subst x. reflexivity.
    + change (join [newline] (x :: y :: rest))
        with (x ++ newline :: join [newline] (y :: rest)) in Ej.
      destruct x; discriminate Ej.
  - cbn [nonempty negb]. rewrite <- Ej.
    rewrite split_join; [|destruct lines; [discriminate Ej|discriminate]|exact Hall].
    destruct (fold_left vtt_line lines ([], [])) as [textLines speaker].
    reflexivity.
Qed.

(** X20: dropped lines leave no trace: a blank line, the format header, a note,
    a timing line or a cue number can be put into a transcript, or taken out
    of it, anywhere, without changing the normalized text. *)
Theorem metadata_lines_leave_no_trace (before after : list str) (line : str) :
  Forall one_line (before ++ line :: after) ->
  metadata_line line = true ->
  parseVttToText (join [newline] (before ++ line :: after))
  = parseVttToText (join [newline] (before ++ after)).
Proof.
  intros Hall Hmeta.
  assert (Hall' : Forall one_line (before ++ after)).
  { apply Forall_app in Hall as [Hb Ha]. apply Forall_app. split; [exact Hb|].
    inversion Ha; assumption. }
  rewrite !parseVttToText_lines by assumption.
  rewrite !fold_left_app. cbn [fold_left].
  rewrite vtt_line_metadata by exact Hmeta. reflexivity.
Qed.

(** X21: whatever the transcript, the normalized text has no whitespace at its
    start or end, and every whitespace character in it is a single space:
    no line break, no tab, no run of spaces. *)
Theorem normalized_text_is_single_spaced (vttContent : str) :
  let text := parseVttToText vttContent in
  trim text = text
  /\ single_spaced false text = true
  /\ ~ In newline text.
Proof.
  cbv zeta.
  destruct (parseVttToText_normalized vttContent) as (Htrim & Hcollapse & Hnl).
  split; [exact Htrim|]. split; [|exact Hnl].
  rewrite <- Hcollapse. apply collapse_single_spaced.
Qed.

Lemma metadata_lines_leave_no_trace_witness :
  parseVttToText (join [newline] CaptionStubs.cue)
  = lit "Sam: I will fix the login timeout bug."
  /\ parseVttToText (join [newline] CaptionStubs.cue)
     = parseVttToText
         (join [newline]
            [lit "WEBVTT"; []; lit "00:00:01.000 --> 00:00:04.000";
             lit "<v Sam>I will fix the login timeout bug.</v>"]).
Proof.
  split; [reflexivity|].
  apply (@metadata_lines_leave_no_trace [lit "WEBVTT"; []]
           [lit "00:00:01.000 --> 00:00:04.000";
            lit "<v Sam>I will fix the login timeout bug.</v>"]
           (lit "12")).
  - repeat constructor; unfold one_line; vm_compute; intuition discriminate.
  - reflexivity.
Defined.

End CaptionLineFacts.

(** ** Metrics store *)

Module TelemetryFacts.
Import JS Telemetry ObservabilitySpec.

Lemma slice_last_length (A : Type) (n : nat) (l : list A) :
  length (slice_last n l) = Nat.min n (length l).
Proof. unfold slice_last. rewrite length_skipn. lia. Qed.

Lemma slice_last_all (A : Type) (n : nat) (l : list A) :
  length l <= n -> slice_last n l = l.
Proof.
  intros H. unfold slice_last.
  replace (length l - n) with 0 by lia. reflexivity.
Qed.

Lemma slice_last_snoc (A : Type) (n : nat) (l : list A) (x : A) :
  1 <= n -> slice_last n (slice_last n l ++ [x]) = slice_last n (l ++ [x]).
Proof.
  intros Hn. unfold slice_last.
  destruct (Nat.le_gt_cases (length l) n) as [Hle|Hgt].
  - replace (length l - n) with 0 by lia. reflexivity.
  - set (k := length l - n).
    assert (Hk : length (skipn k l) = n) by (rewrite length_skipn; lia).
    rewrite !length_app, Hk. cbn [length].
    replace (n + 1 - n) with 1 by lia.
    replace (length l + 1 - n) with (1 + k) by lia.
    rewrite <- skipn_skipn, (skipn_app k l [x]).
    replace (k - length l) with 0 by lia. reflexivity.
Qed.

Lemma trackMetric_slice (m : Metric) (metrics : list Metric) :
  trackMetric true (m_timestamp m) (m_name m) (m_value m) (m_unit m)
    (m_tags m) metrics
  = slice_last maxMetrics (metrics ++ [m]).
Proof.
  unfold trackMetric. cbn [negb]. destruct m as [n v u t ts].
  cbn [m_name m_value m_unit m_tags m_timestamp]. cbv zeta.
  match goal with
  | |- context [maxMetrics <? ?x] => destruct (maxMetrics <? x) eqn:E
  end; [reflexivity|].
  apply Nat.ltb_ge in E. symmetry. apply slice_last_all. exact E.
Qed.

Lemma track_all_slice (recorded : list Metric) : forall metrics history,
  metrics = slice_last maxMetrics history ->
  track_all true recorded metrics = slice_last maxMetrics (history ++ recorded).
Proof.
  unfold track_all.
  induction recorded as [|m recorded IH]; intros metrics history Hm;
    cbn [fold_left].
  - rewrite app_nil_r. exact Hm.
  - rewrite trackMetric_slice.
    rewrite (IH _ (history ++ [m])).
    + rewrite <- app_assoc. reflexivity.
    + subst metrics. apply slice_last_snoc. unfold maxMetrics. lia.
Qed.

(** X22: the store never outgrows its capacity and always holds the latest
    metrics: after any run of recordings it is the last thousand of
    everything that was in it or was recorded, in order.  With telemetry
    switched off nothing is recorded. *)
Theorem metrics_store_holds_the_latest (enableTelemetry : bool)
    (recorded metrics : list Metric) :
  within_capacity metrics ->
  let store := track_all enableTelemetry recorded metrics in
  within_capacity store
  /\ store = if enableTelemetry
             then slice_last maxMetrics (metrics ++ recorded)
             else metrics.
Proof.
  intros Hcap. cbv zeta. destruct enableTelemetry.
  - rewrite (@track_all_slice recorded metrics metrics)
      by (symmetry; apply slice_last_all; exact Hcap).
    split; [|reflexivity].
    unfold within_capacity. rewrite slice_last_length. lia.
  - assert (H : track_all false recorded metrics = metrics).
    { unfold track_all. induction recorded as [|m r IH]; [reflexivity|].
      cbn [fold_left]. exact IH. }
    rewrite H. split; [exact Hcap|reflexivity].
Qed.

Lemma metrics_store_holds_the_latest_witness :
  map m_timestamp
    (track_all true (map ObservabilityStubs.tick (seq 998 5))
       (map ObservabilityStubs.tick (seq 0 998)))
  = map Z.of_nat (seq 3 1000).
Proof.
  destruct (@metrics_store_holds_the_latest true
              (map ObservabilityStubs.tick (seq 998 5))
              (map ObservabilityStubs.tick (seq 0 998))
              ltac:(unfold within_capacity; vm_compute; lia)) as [_ ->].
  vm_compute. reflexivity.
Defined.

End TelemetryFacts.

(** ** What the user is told about a failure of a service *)

Module ErrorCardFacts.
Import JS ErrorWrapper ErrorSpec ErrorCard.
Import ErrorHandling.

(** X23: every service call of the pipeline runs under [withErrorHandling], so
    what reaches the bot is an [ActionAgentError]: the error card then shows
    the reference id the error carries and no suggestion, whatever the
    text of the underlying failure (access denied, not found, rate limit). *)
Theorem service_failure_shows_only_a_reference (T S : Type)
    (features : Features) (operation : S -> completion T * S)
    (random : nat -> Q) (context : CorrelationContext) (options : Options)
    (w : World S) (e : exn) :
  fst (withErrorHandling features operation random context options w) = Throw e ->
  exists reference,
    error_correlationId e = Some reference
    /\ sendErrorCard e = (lit "Something went wrong. Reference ID: " ++ reference, [])
    /\ getGraphErrorMessage e = lit "Something went wrong. Reference ID: " ++ reference
    /\ (or_else (enableRetry options) false = true ->
        enableRetries features = true ->
        reference = correlationId context).
Proof.
  unfold withErrorHandling.
  destruct (or_else (enableRetry options) false) eqn:Eretry.
  - destruct (enableRetries features) eqn:Een.
    + pose proof (fun a => @WrapperFacts.withRetry_throws_terminal T S features
                    operation random context
                    (or_else (retryConfig options) no_overrides) w a Een) as H.
      destruct (withRetry features operation random context _ w) as [[v|a] w'];
        [discriminate|].
      destruct (H a eq_refl) as (Ha & Hid & _).
      destruct a as [| m cid opn r sc ca |]; try discriminate Ha.
      cbn [fst]. intros [= <-]. exists cid.
      repeat split. intros _ _. cbn in Hid. congruence.
    + rewrite WrapperFacts.withRetry_disabled by assumption. unfold invoke.
      destruct (operation (backend w)) as [[v|a] s']; [discriminate|].
      destruct a as [n m| m cid opn r sc ca |r]; cbn [fst]; intros [= <-];
        eexists; repeat split; discriminate.
  - unfold invoke.
    destruct (operation (backend w)) as [[v|a] s']; [discriminate|].
    destruct a as [n m| m cid opn r sc ca |r]; cbn [fst]; intros [= <-];
      eexists; repeat split; discriminate.
Qed.

Lemma service_failure_shows_only_a_reference_witness :
  exists e,
    fst (withErrorHandling Stubs.features Stubs.rejecting Stubs.no_jitter
           Stubs.context no_options Stubs.idle) = Throw e
    /\ sendErrorCard e = (lit "Something went wrong. Reference ID: c0ffee", [])
    /\ getGraphErrorMessage (JsError (lit "Error") (lit "Request failed with status 403"))
       = lit "Access denied. Please ensure the Application Access Policy is configured for this user.".
Proof.
  destruct (withErrorHandling Stubs.features Stubs.rejecting Stubs.no_jitter
              Stubs.context no_options Stubs.idle) as [outcome w'] eqn:E.
  destruct outcome as [v|e]; [vm_compute in E; discriminate E|].
  exists e. split; [reflexivity|]. split; [|reflexivity].
  pose proof (@service_failure_shows_only_a_reference str nat Stubs.features
                Stubs.rejecting Stubs.no_jitter Stubs.context no_options
                Stubs.idle e) as H.
  rewrite E in H. destruct (H eq_refl) as (reference & Hid & Hcard & _).
  rewrite Hcard. vm_compute in E. injection E as <- _.
  cbn in Hid. injection Hid as <-. reflexivity.
Defined.

End ErrorCardFacts.

(** ** Extraction: malformed and missing answers *)

Module ExtractionFacts.
Import JS Model OpenAIService ErrorWrapper ErrorSpec Extraction Spec Invariants.
Import ErrorHandling.

Section Extraction.
Variable features : Features.
Variable random : nat -> Q.
Variable JSON_parse : str -> completion value.
Variable S : Type.
Variable uuidv4 : S -> str * S.
Variable Date_now : S -> Z.
Variable create_completion : str -> S -> completion (option str) * S.
Variable processLargeTranscript :
  str -> CorrelationContext -> S -> completion ParsedResponse * S.

#[local] Abbreviation callOpenAI := (callOpenAI create_completion).
#[local] Abbreviation extract_once :=
  (extract_once JSON_parse create_completion processLargeTranscript).
#[local] Abbreviation extractActionItems :=
  (extractActionItems features random JSON_parse uuidv4 Date_now
     create_completion processLargeTranscript).

(** X24: an answer that is not JSON is not asked for again: for a transcript
    within the chunk length, the model is called once, nothing is slept, and
    the failure is reported as an [ActionAgentError] of the extraction's
    correlation id. *)
Theorem malformed_answer_is_not_retried (transcriptText content : str)
    (cause : exn) (w : World S) :
  (1 <= maxRetries features)%Z ->
  (Z.of_nat (length transcriptText) <= MAX_CHUNK_LENGTH)%Z ->
  let '(context, s0) :=
    WorkItemCreation.createCorrelationContext uuidv4 Date_now
      (lit "AI.ExtractActionItems") (backend w) in
  fst (callOpenAI transcriptText s0) = Return content ->
  JSON_parse content = Throw cause ->
  let '(outcome, w') := extractActionItems transcriptText w in
  (exists e,
      outcome = Throw e
      /\ error_message e = lit "Failed to parse AI response as JSON"
      /\ error_correlationId e = Some (correlationId context)
      /\ isRetryableError e = false)
  /\ invocations w' = invocations w + 1
  /\ slept w' = slept w.
Proof.
  intros Hmax Hshort. unfold Extraction.extractActionItems.
  destruct (WorkItemCreation.createCorrelationContext uuidv4 Date_now _
              (backend w)) as [context s0].
  intros Hcall Hparse.
  assert (Hfail : fst (extract_once transcriptText context s0)
                  = Throw (parse_failure context cause)).
  { unfold Extraction.extract_once.
    replace (MAX_CHUNK_LENGTH <? Z.of_nat (length transcriptText))%Z with false
      by (symmetry; apply Z.ltb_ge; exact Hshort).
    destruct (callOpenAI transcriptText s0) as [r s']. simpl in Hcall. subst r.
    cbn [fst bind]. unfold parseAndValidateResponse. rewrite Hparse.
    reflexivity. }
  unfold withErrorHandling. cbn [enableRetry retryConfig or_else].
  set (w0 := {| backend := s0; invocations := invocations w;
                slept := slept w; draws := draws w |}).
  destruct (enableRetries features) eqn:Een.
  - assert (H1 : (Z.of_nat 1
                  <= maxAttempts (merge_config (defaultRetryConfig features)
                                    no_overrides))%Z).
    { simpl. lia. }
    rewrite (@RetryFacts.withRetry_gives_up _ _ features
               (extract_once transcriptText context) random context
               no_overrides 1 (parse_failure context cause) w0 Een (le_n 1)
               H1 eq_refl Hfail (or_intror eq_refl)).
    unfold terminal_error, after_attempts.
    cbn [as_Error parse_failure ActionAgentError terminal_message
         error_message invocations slept backoff_delays Nat.sub w0].
    split; [|split; [reflexivity|apply app_nil_r]].
    eexists. split; [reflexivity|]. repeat split.
  - unfold withRetry. rewrite Een. cbn [negb]. unfold invoke.
    cbn [backend w0].
    destruct (extract_once transcriptText context s0) as [r s2].
    simpl in Hfail. subst r. subst w0.
    cbn [parse_failure ActionAgentError invocations slept].
    split; [|split; [lia|reflexivity]].
    eexists. split; [reflexivity|]. repeat split.
Qed.

(** X25: an answer without content is read as an empty object: for a transcript
    within the chunk length the extraction then returns no item and no
    summary, after a single call, instead of failing. *)
Theorem missing_answer_gives_no_items (transcriptText : str) (w : World S) :
  JSON_parse (lit "{}") = Return (VObj []) ->
  (Z.of_nat (length transcriptText) <= MAX_CHUNK_LENGTH)%Z ->
  (1 <= maxRetries features)%Z ->
  let '(context, s0) :=
    WorkItemCreation.createCorrelationContext uuidv4 Date_now
      (lit "AI.ExtractActionItems") (backend w) in
  (exists s1 content,
      create_completion
        (lit "Please analyze the following meeting transcript and extract all technical action items:"
         ++ [GraphService.newline; GraphService.newline] ++ transcriptText) s0
      = (Return content, s1)
      /\ (content = None \/ content = Some [])) ->
  let '(outcome, w') := extractActionItems transcriptText w in
  outcome = Return {| actionItems := []; summary := VUndefined |}
  /\ invocations w' = invocations w + 1.
Proof.
  intros Hparse Hshort Hmax. unfold Extraction.extractActionItems.
  destruct (WorkItemCreation.createCorrelationContext uuidv4 Date_now _
              (backend w)) as [context s0].
  intros (s1 & content & Hcall & Hcontent).
  assert (Hok : fst (extract_once transcriptText context s0)
                = Return {| actionItems := []; summary := VUndefined |}).
  { unfold Extraction.extract_once, Extraction.callOpenAI.
    replace (MAX_CHUNK_LENGTH <? Z.of_nat (length transcriptText))%Z with false
      by (symmetry; apply Z.ltb_ge; exact Hshort).
    rewrite Hcall.
    destruct Hcontent as [-> | ->]; cbn [fst bind];
      unfold parseAndValidateResponse; rewrite Hparse; reflexivity. }
  unfold withErrorHandling. cbn [enableRetry retryConfig or_else].
  set (w0 := {| backend := s0; invocations := invocations w;
                slept := slept w; draws := draws w |}).
  destruct (enableRetries features) eqn:Een.
  - assert (H1 : (Z.of_nat 1
                  <= maxAttempts (merge_config (defaultRetryConfig features)
                                    no_overrides))%Z).
    { simpl. lia. }
    rewrite (@RetryFacts.withRetry_succeeds _ _ features
               (extract_once transcriptText context) random context
               no_overrides 1 _ w0 Een (le_n 1) H1 eq_refl Hok).
    unfold after_attempts. cbn [invocations w0]. split; reflexivity.
  - unfold withRetry. rewrite Een. cbn [negb]. unfold invoke.
    cbn [backend w0].
    destruct (extract_once transcriptText context s0) as [r s2].
    simpl in Hok. subst r. subst w0. cbn [invocations].
    split; [reflexivity|lia].
Qed.
End Extraction.

Lemma malformed_answer_is_not_retried_witness :
  let '(outcome, w') :=
    extractActionItems Stubs.features Stubs.no_jitter
      (Stubs.parse_known Stubs.documents) CreationStubs.numbered_uuid
      CreationStubs.midnight
      (ObservabilityStubs.answering (Some (lit "Sure, here are the items")))
      ObservabilityStubs.no_large_path (lit "Sam: I will fix it.") Stubs.idle in
  (exists e,
      outcome = Throw e
      /\ error_message e = lit "Failed to parse AI response as JSON"
      /\ error_correlationId e = Some (lit "c0ffee")
      /\ isRetryableError e = false)
  /\ invocations w' = 1 /\ slept w' = [].
Proof.
  exact (@malformed_answer_is_not_retried Stubs.features Stubs.no_jitter
           (Stubs.parse_known Stubs.documents) nat CreationStubs.numbered_uuid
           CreationStubs.midnight
           (ObservabilityStubs.answering (Some (lit "Sure, here are the items")))
           ObservabilityStubs.no_large_path (lit "Sam: I will fix it.")
           (lit "Sure, here are the items")
           (JsError (lit "SyntaxError") (lit "Unexpected token")) Stubs.idle
           ltac:(vm_compute; discriminate) ltac:(vm_compute; discriminate)
           eq_refl eq_refl).
Defined.

Lemma missing_answer_gives_no_items_witness :
  let '(outcome, w') :=
    extractActionItems Stubs.features Stubs.no_jitter
      (Stubs.parse_known ObservabilityStubs.empty_object)
      CreationStubs.numbered_uuid CreationStubs.midnight
      (ObservabilityStubs.answering None)
      ObservabilityStubs.no_large_path (lit "Sam: I will fix it.") Stubs.idle in
  outcome = Return {| actionItems := []; summary := VUndefined |}
  /\ invocations w' = 1.
Proof.
  apply (@missing_answer_gives_no_items Stubs.features Stubs.no_jitter
           (Stubs.parse_known ObservabilityStubs.empty_object) nat
           CreationStubs.numbered_uuid CreationStubs.midnight
           (ObservabilityStubs.answering None)
           ObservabilityStubs.no_large_path (lit "Sam: I will fix it.")
           Stubs.idle eq_refl
           ltac:(vm_compute; discriminate) ltac:(vm_compute; discriminate)).
  eexists. exists None. split; [reflexivity|left; reflexivity].
Defined.

End ExtractionFacts.

(** ** Resolution against the directory *)

Module ResolutionFacts.
Import JS IdentityService UserSearch DirectoryResolution ResolutionSpec StrFacts.

Section Resolution.
Variable G : Type.
Variable Date_now : G -> Z.
Variables filter_users search_users :
  str -> G -> completion (list DirectoryUser) * G.

#[local] Abbreviation resolveUser :=
  (resolveUser Date_now filter_users search_users).
#[local] Abbreviation searchUsersByName :=
  (searchUsersByName Date_now filter_users search_users).

(** A failed exact-match request ends the search with nobody found. *)
Lemma failed_request_finds_nobody (name : str) (st : State G) (e : exn) :
  map_get (toLowerCase name) (userCache (cleanCache Date_now st)) = None ->
  fst (filter_users (exact_match name) (graph (cleanCache Date_now st)))
  = Throw e ->
  fst (searchUsersByName name st) = [].
Proof.
  intros Hmiss Hfail. unfold UserSearch.searchUsersByName. cbv zeta.
  rewrite Hmiss. unfold exact_match in Hfail.
  destruct (filter_users _ (graph (cleanCache Date_now st))) as [r g1].
  cbn [fst] in Hfail. subst r. reflexivity.
Qed.

(** X26: the resolution of a name follows the directory search and nothing
    else.  A name that names nobody (empty, or [unassigned] in any letter
    case) is left unresolved without a search.  For any other name the
    resolution is resolved exactly when the search found somebody; it then
    names the first user found, whose principal name is the identity used
    for the tracker, and lists the others as alternatives; when the search
    found nobody the name is kept as it was given and the error is "No
    matching users found".  A failure of the directory is never reported as
    such: when the exact-match request fails on a cache miss, the
    resolution says "No matching users found". *)
Theorem resolution_never_reports_directory_errors (name : str) (st : State G) :
  let found := fst (searchUsersByName name st) in
  let resolution := fst (resolveUser name st) in
  originalName resolution = name
  /\ (names_someone name = false ->
      resolved resolution = false /\ user resolution = None
      /\ alternatives resolution = None /\ error resolution = None
      /\ getDevOpsIdentity resolution = name
      /\ snd (resolveUser name st) = st)
  /\ (names_someone name = true ->
      snd (resolveUser name st) = snd (searchUsersByName name st)
      /\ resolved resolution = nonempty found
      /\ user resolution = hd_error found
      /\ alternatives resolution
         = match tl found with [] => None | others => Some others end
      /\ error resolution
         = (if nonempty found then None
            else Some (lit "No matching users found"))
      /\ getDevOpsIdentity resolution
         = match found with u :: _ => userPrincipalName u | [] => name end)
  /\ (names_someone name = true ->
      map_get (toLowerCase name) (userCache (cleanCache Date_now st)) = None ->
      (exists e,
          fst (filter_users (exact_match name) (graph (cleanCache Date_now st)))
          = Throw e) ->
      resolved resolution = false
      /\ error resolution = Some (lit "No matching users found")
      /\ getDevOpsIdentity resolution = name).
Proof.
  cbv zeta.
  assert (Hfollows : names_someone name = true ->
            fst (resolveUser name st)
            = match fst (searchUsersByName name st) with
              | [] => {| originalName := name; resolved := false; user := None;
                         alternatives := None;
                         error := Some (lit "No matching users found") |}
              | u :: others =>
                  {| originalName := name; resolved := true; user := Some u;
                     alternatives := match others with
                                     | [] => None
                                     | _ => Some others
                                     end;
                     error := None |}
              end
            /\ snd (resolveUser name st) = snd (searchUsersByName name st)).
  { unfold names_someone. intros Hn.
    unfold DirectoryResolution.resolveUser, IdentityService.resolveUser.
    apply andb_true_iff in Hn as [Hne Hun]. rewrite Hne.
    apply negb_true_iff in Hun. rewrite Hun. cbn [negb orb].
    unfold search_promise.
    destruct (UserSearch.searchUsersByName Date_now filter_users search_users
                name st) as [[|u [|u' others]] st']; split; reflexivity. }
  split.
  { unfold DirectoryResolution.resolveUser, IdentityService.resolveUser.
    destruct (negb (nonempty name) || str_eqb (toLowerCase name) (lit "unassigned"));
      [reflexivity|].
    unfold search_promise.
    destruct (UserSearch.searchUsersByName Date_now filter_users search_users
                name st) as [[|u [|u' others]] st']; reflexivity. }
  split.
  { unfold names_someone. intros Hn.
    unfold DirectoryResolution.resolveUser, IdentityService.resolveUser.
    assert (Hskip : negb (nonempty name)
                    || str_eqb (toLowerCase name) (lit "unassigned") = true).
    { destruct (nonempty name); [|reflexivity].
      cbn [andb] in Hn. apply negb_false_iff in Hn. rewrite Hn. reflexivity. }
    rewrite Hskip. repeat split; reflexivity. }
  split.
  { intros Hn. destruct (Hfollows Hn) as [Hres Hst]. rewrite Hres.
    split; [exact Hst|].
    destruct (fst (searchUsersByName name st)) as [|u [|u' others]];
      repeat split; reflexivity. }
  intros Hn Hmiss [e Hfail]. destruct (Hfollows Hn) as [Hres _]. rewrite Hres.
  rewrite (failed_request_finds_nobody name st Hmiss Hfail).
  repeat split; reflexivity.
Qed.
End Resolution.

Lemma resolution_never_reports_directory_errors_witness :
  let down :=
    fst (DirectoryResolution.resolveUser SearchStubs.clock
           SearchStubs.search_unavailable SearchStubs.search_unavailable
           (lit "Alice") (SearchStubs.empty_cache 0)) in
  let up :=
    fst (DirectoryResolution.resolveUser SearchStubs.clock
           DirectoryStubs.filter_two SearchStubs.search_unavailable
           (lit "Alice") (SearchStubs.empty_cache 0)) in
  (resolved down = false
   /\ error down = Some (lit "No matching users found")
   /\ getDevOpsIdentity down = lit "Alice")
  /\ resolved up = true
  /\ user up = Some (with_confidence medium SearchStubs.alice)
  /\ alternatives up = Some [with_confidence medium DirectoryStubs.alice_cooper]
  /\ getDevOpsIdentity up = lit "alice@contoso.com".
Proof.
  cbv zeta. split.
  - apply (proj2 (proj2 (proj2
             (resolution_never_reports_directory_errors SearchStubs.clock
                SearchStubs.search_unavailable SearchStubs.search_unavailable
                (lit "Alice") (SearchStubs.empty_cache 0))))).
    + reflexivity.
    + reflexivity.
    + eexists. reflexivity.
  - destruct (proj1 (proj2 (proj2
               (resolution_never_reports_directory_errors SearchStubs.clock
                  DirectoryStubs.filter_two SearchStubs.search_unavailable
                  (lit "Alice") (SearchStubs.empty_cache 0)))) eq_refl)
      as (_ & Hresolved & Huser & Halt & _ & Hid).
    repeat split; assumption.
Defined.

End ResolutionFacts.

(** ** Work-item descriptions *)

Module DescriptionFacts.
Import JS Model DevOpsService DeliverySpec DescriptionSpec StrFacts EscapeFacts.

Lemma markup_of_app (a b : str) : markup_of (a ++ b) = markup_of a ++ markup_of b.
Proof. apply filter_app. Qed.

Lemma markup_of_escapeHtml (text : str) : markup_of (escapeHtml text) = [].
Proof.
  rewrite escapeHtml_flat_map. unfold markup_of.
  induction text as [|c r IH]; [reflexivity|].
  cbn [flat_map]. rewrite filter_app, IH, app_nil_r.
  pose proof (escape_char_safe c) as H.
  induction (escape_char c) as [|x l IHl]; [reflexivity|].
  simpl in H. apply andb_true_iff in H as [Hx Hl].
  apply negb_true_iff in Hx. simpl. rewrite Hx. apply IHl, Hl.
Qed.

(** X27: the text of an item cannot add markup to the description of its work
    item: two items with the same priority and the same fields filled in
    give descriptions with the same markup characters, whatever their
    assignee, description and deadline say. *)
Theorem item_text_adds_no_markup (task task' : ActionItem) (correlationId : str) :
  same_fields task task' ->
  markup_of (formatDescription task correlationId)
  = markup_of (formatDescription task' correlationId).
Proof.
  intros (Hp & Hd & Hdl). unfold formatDescription.
  rewrite Hp.
  destruct (present (description task)) as [d|] eqn:Ed;
    destruct (present (description task')) as [d'|] eqn:Ed';
    try (exfalso; destruct Hd as [H1 H2];
         first [specialize (H1 eq_refl) | specialize (H2 eq_refl)];
         discriminate);
    destruct (present (deadline task)) as [dl|] eqn:Edl;
    destruct (present (deadline task')) as [dl'|] eqn:Edl';
    try (exfalso; destruct Hdl as [H1 H2];
         first [specialize (H1 eq_refl) | specialize (H2 eq_refl)];
         discriminate);
    repeat rewrite markup_of_app; rewrite ?markup_of_escapeHtml; reflexivity.
Qed.

Lemma item_text_adds_no_markup_witness :
  markup_of (formatDescription ResolutionStubs.injected (lit "c0ffee"))
  = markup_of (formatDescription ResolutionStubs.harmless (lit "c0ffee")).
Proof.
  apply item_text_adds_no_markup.
  split; [reflexivity|]. split; split; discriminate.
Defined.

End DescriptionFacts.

(** ** Batched creation with retries: how often the tracker is asked *)

Module BatchRetryFacts.
Import JS Model IdentityService DevOpsService ErrorWrapper WorkItemCreation Spec.
Import StrFacts BatchFacts.
Import ErrorHandling.

Section Counting.
Variable config : AzureDevOpsConfig.
Variable features : Features.
Variable random : nat -> Q.
Variable parseDeadline : str -> option str.
Variable B : Type.
Variable uuidv4 : B -> str * B.
Variable Date_now : B -> Z.
Variable resolveUser : str -> B -> completion ResolutionResult * B.
Variable tracker_createWorkItem :
  list PatchOperation -> str -> str -> B -> completion (option WorkItem) * B.

#[local] Abbreviation createWorkItem :=
  (createWorkItem config features random parseDeadline uuidv4 Date_now
     resolveUser tracker_createWorkItem).

(** The most attempts one creation can take. *)
#[local] Abbreviation most := (Nat.max 1 (Z.to_nat (maxRetries features))).

Lemma createWorkItem_attempts (task : ActionItem) (resolveIdentities : bool)
    (w : ErrorHandling.World B) :
  let w' := snd (createWorkItem task resolveIdentities w) in
  invocations w <= invocations w' <= invocations w + most
  /\ ((1 <= maxRetries features)%Z -> invocations w + 1 <= invocations w').
Proof.
  cbv zeta. unfold WorkItemCreation.createWorkItem.
  destruct (createCorrelationContext uuidv4 Date_now _ (ErrorHandling.backend w))
    as [context b0].
  unfold withErrorHandling. cbn [enableRetry retryConfig or_else].
  set (w0 := {| ErrorHandling.backend := b0; invocations := invocations w;
                slept := slept w; draws := draws w |}).
  set (operation := create_once config parseDeadline resolveUser
                      tracker_createWorkItem task resolveIdentities context).
  assert (Hcount : invocations w0 = invocations w) by reflexivity.
  assert (H : let w1 := snd (withRetry features operation random context
                               no_overrides w0) in
              invocations w0 <= invocations w1 <= invocations w0 + most
              /\ ((1 <= maxRetries features)%Z ->
                  invocations w0 + 1 <= invocations w1)).
  { cbv zeta. unfold withRetry.
    destruct (enableRetries features); cbn [negb].
    - set (cfg := merge_config (defaultRetryConfig features) no_overrides).
      assert (Hcfg : maxAttempts cfg = maxRetries features) by reflexivity.
      pose proof (@WrapperFacts.retry_loop_counts _ _ operation random cfg
                    (Z.to_nat (maxAttempts cfg)) 1%Z None w0) as Hloop.
      assert (Hrem : Z.to_nat (maxAttempts cfg) = 0
                     \/ (Z.of_nat (Z.to_nat (maxAttempts cfg))
                         = maxAttempts cfg - 1 + 1)%Z) by lia.
      specialize (Hloop Hrem).
      destruct (retry_loop operation random cfg _ 1 None w0) as [[v|l] w1];
        destruct Hloop as (k & Hi & Hk & Hpos & _); cbn [snd];
        rewrite Hcfg in *; (split; [lia|]); intros Hmax;
        specialize (Hpos ltac:(lia)); lia.
    - unfold invoke. destruct (operation (ErrorHandling.backend w0)) as [r s'].
      cbn [snd invocations]. split; lia. }
  cbv zeta in H. rewrite Hcount in H.
  destruct (withRetry features operation random context no_overrides w0)
    as [[v|e] w1]; cbn [snd] in *; [exact H|].
  destruct e; exact H.
Qed.

Lemma creations_attempts (resolveIdentities : bool) (tasks : list ActionItem) :
  forall w : ErrorHandling.World B,
  let w' := snd (creations createWorkItem resolveIdentities tasks w) in
  invocations w <= invocations w' <= invocations w + length tasks * most
  /\ ((1 <= maxRetries features)%Z ->
      invocations w + length tasks <= invocations w').
Proof.
  induction tasks as [|task rest IH]; intros w; cbv zeta.
  - simpl. split; lia.
  - cbn [creations].
    pose proof (createWorkItem_attempts task resolveIdentities w) as H1.
    cbv zeta in H1.
    destruct (createWorkItem task resolveIdentities w) as [r w1].
    cbn [snd] in H1. specialize (IH w1). cbv zeta in IH.
    destruct (creations createWorkItem resolveIdentities rest w1) as [rs w2].
    cbn [snd length] in *. split; [nia|]. intros Hmax.
    destruct H1 as [_ H1]. destruct IH as [_ IH].
    specialize (H1 Hmax). specialize (IH Hmax). lia.
Qed.

(** X28: a batch asks the tracker a bounded number of times: for [n] items, at
    most [n] times the number of attempts the retry configuration allows
    (once each when that number is below one), and at least once for every
    item when at least one attempt is allowed. *)
Theorem batch_attempts_are_bounded (tasks : list ActionItem)
    (resolveIdentities : bool) (w : DevOpsService.World (ErrorHandling.World B)) :
  let w' := snd (createWorkItems createWorkItem tasks resolveIdentities w) in
  let asked := invocations (DevOpsService.backend w')
               - invocations (DevOpsService.backend w) in
  invocations (DevOpsService.backend w) <= invocations (DevOpsService.backend w')
  /\ asked <= length tasks * Nat.max 1 (Z.to_nat (maxRetries features))
  /\ ((1 <= maxRetries features)%Z -> length tasks <= asked).
Proof.
  cbv zeta. unfold createWorkItems.
  pose proof (@create_loop_outcomes _ createWorkItem resolveIdentities
                (length tasks) tasks [] [] w (le_n _)) as H.
  cbv zeta in H.
  destruct (create_loop createWorkItem resolveIdentities tasks [] [] w)
    as [[results errors] w'].
  destruct H as (_ & _ & Hback & _). cbn [snd]. rewrite Hback.
  pose proof (creations_attempts resolveIdentities tasks (DevOpsService.backend w))
    as Hc.
  cbv zeta in Hc. destruct Hc as [[Hmono Hmost] Hleast].
  split; [exact Hmono|]. split; [lia|]. intros Hmax.
  specialize (Hleast Hmax). lia.
Qed.
End Counting.

Lemma batch_attempts_are_bounded_witness :
  let tasks := map DeliveryStubs.task_number (seq 0 7) in
  let w' :=
    snd (createWorkItems
           (createWorkItem Stubs.devops_config Stubs.features Stubs.no_jitter
              (fun _ => None) CreationStubs.numbered_uuid CreationStubs.midnight
              CreationStubs.directory_finds_sam
              ResolutionStubs.throttling_tracker)
           tasks false ResolutionStubs.quiet_world) in
  let asked := invocations (DevOpsService.backend w') - 0 in
  asked <= 7 * 3 /\ 7 <= asked.
Proof.
  cbv zeta.
  destruct (@batch_attempts_are_bounded Stubs.devops_config Stubs.features
              Stubs.no_jitter (fun _ => None) nat CreationStubs.numbered_uuid
              CreationStubs.midnight CreationStubs.directory_finds_sam
              ResolutionStubs.throttling_tracker
              (map DeliveryStubs.task_number (seq 0 7)) false
              ResolutionStubs.quiet_world) as (_ & Hmost & Hleast).
  split; [exact Hmost|]. apply Hleast. vm_compute. discriminate.
Defined.

End BatchRetryFacts.

(** ** Large transcripts, part by part *)

Module TranscriptFacts.
Import JS Model OpenAIService Extraction LargeTranscripts TranscriptSpec.
Import Spec Invariants StrFacts ChunkerFacts.
Import ErrorHandling.

Section Parts.
Variable JSON_parse : str -> completion value.
Variable S : Type.
Variable create_completion : str -> S -> completion (option str) * S.
Variable context : CorrelationContext.

#[local] Abbreviation process_chunks :=
  (process_chunks JSON_parse (recording create_completion) context).

Lemma process_chunks_requests (total : nat) (pending : list str) :
  forall i allItems summaries (s : S) (log : list str),
  let '(outcome, (s', log')) :=
    process_chunks total i pending allItems summaries (s, log) in
  match outcome with
  | Return _ =>
      log' = log ++ map extraction_request (part_prompts total i pending)
  | Throw _ =>
      exists k, k < length pending
                /\ log' = log ++ firstn (Datatypes.S k)
                                   (map extraction_request
                                      (part_prompts total i pending))
  end.
Proof.
  induction pending as [|chunk rest IH]; intros i allItems summaries s log.
  - cbn. rewrite app_nil_r. reflexivity.
  - cbn [LargeTranscripts.process_chunks part_prompts map].
    unfold callOpenAI, recording at 1. cbn [fst snd].
    fold (extraction_request (chunkPrompt total i chunk)).
    destruct (create_completion (extraction_request (chunkPrompt total i chunk)) s)
      as [[content|e] s1].
    + set (text := match content with
                   | Some (c :: r) => c :: r
                   | _ => lit "{}"
                   end).
      assert (Hcall : (match content with
                       | Some (c :: content0) =>
                           (Return (c :: content0),
                            (s1, log ++ [extraction_request (chunkPrompt total i chunk)]))
                       | _ => (Return (lit "{}"),
                               (s1, log ++ [extraction_request (chunkPrompt total i chunk)]))
                       end)
                      = (Return text,
                         (s1, log ++ [extraction_request
                                        (chunkPrompt total i chunk)]))).
      { destruct content as [[|c r]|]; reflexivity. }
      rewrite Hcall. cbn [bind].
      destruct (parseAndValidateResponse JSON_parse text context) as [parsed|e].
      * match goal with
        | |- context [LargeTranscripts.process_chunks _ _ _ _ ?j _ ?a ?b ?st] =>
            specialize (IH j a b s1
                          (log ++ [extraction_request (chunkPrompt total i chunk)]));
            destruct (process_chunks total j rest a b
                        (s1, log ++ [extraction_request
                                       (chunkPrompt total i chunk)]))
              as [outcome [s' log']]
        end.
        destruct outcome as [v|e].
        -- rewrite IH, <- app_assoc. reflexivity.
        -- destruct IH as (k & Hk & ->). exists (Datatypes.S k).
           split; [simpl; lia|]. rewrite <- app_assoc. reflexivity.
      * exists 0. split; [simpl; lia|]. reflexivity.
    + exists 0. split; [simpl; lia|]. reflexivity.
Qed.

(** X29: a large transcript is sent to the model part by part, whole and in
    order: the parts hold the text of the transcript, whitespace apart; each
    part is requested once, under its number; and the first part that fails
    (the request, or an answer that does not validate) ends the extraction,
    so that no later part is requested. *)
Theorem large_transcript_is_sent_part_by_part (transcriptText : str) (s : S)
    (log : list str) :
  let chunks := splitIntoChunks transcriptText (Z.to_nat MAX_CHUNK_LENGTH) in
  let requests :=
    map extraction_request (part_prompts (length chunks) 0 chunks) in
  let '(outcome, (s', log')) :=
    collect_parts JSON_parse (recording create_completion) context
      transcriptText (s, log) in
  strip_whitespace (concat chunks) = strip_whitespace transcriptText
  /\ match outcome with
     | Return _ => log' = log ++ requests
     | Throw _ =>
         exists k, k < length chunks
                   /\ log' = log ++ firstn (Datatypes.S k) requests
     end.
Proof.
  cbv zeta. unfold collect_parts.
  pose proof (process_chunks_requests
                (length (splitIntoChunks transcriptText (Z.to_nat MAX_CHUNK_LENGTH)))
                (splitIntoChunks transcriptText (Z.to_nat MAX_CHUNK_LENGTH))
                0 [] [] s log) as H.
  destruct (process_chunks _ 0 _ [] [] (s, log)) as [outcome [s' log']].
  split; [apply chunks_reconstruct|exact H].
Qed.
End Parts.

End TranscriptFacts.

(** ** Titles without letters or digits *)

Module TitleKeyFacts.
Import JS Model OpenAIService DedupSpec Spec StrFacts DedupFacts.

Lemma symbols_only_key (item : ActionItem) :
  symbols_only item = true -> dedup_key item = [].
Proof.
  unfold symbols_only, dedup_key.
  induction (title item) as [|c r IH]; [reflexivity|].
  cbn [forallb toLowerCase map filter]. intros H.
  apply andb_true_iff in H as [Hc Hr].
  unfold ascii_symbol in Hc. apply andb_true_iff in Hc as [_ Hc].
  apply negb_true_iff in Hc. unfold alphanumeric in Hc.
  apply orb_false_iff in Hc as [Hc Hdigit].
  apply orb_false_iff in Hc as [Hlower Hupper].
  unfold toLowerChar. rewrite Hupper, Hlower, Hdigit. cbn [orb].
  apply IH, Hr.
Qed.

Lemma first_seen_one_key (k : str) (keys : list str) :
  keys <> [] -> Forall (fun k' => k' = k) keys -> first_seen keys = [k].
Proof.
  induction keys as [|k0 rest IH]; [congruence|]. intros _ Hall.
  inversion Hall as [|? ? Hk Hrest]; subst.
  cbn [first_seen]. destruct rest as [|k1 rest'].
  - reflexivity.
  - rewrite IH by (discriminate || assumption).
    cbn [filter]. rewrite str_eqb_refl. reflexivity.
Qed.

(** X30: titles are told apart by their letters and digits only.  Items
    whose titles consist of ASCII punctuation, spaces or control characters
    alone, without a letter or a digit, all count as duplicates of each
    other: whatever their other fields, a single one of them survives
    deduplication. *)
Theorem titles_without_letters_collapse (items : list ActionItem) :
  items <> [] ->
  Forall (fun item => symbols_only item = true) items ->
  exists survivor,
    deduplicateItems items = [survivor] /\ In survivor items.
Proof.
  intros Hne Hall.
  assert (Hkeys : Forall (fun k => k = []) (map dedup_key items)).
  { apply Forall_map. eapply Forall_impl; [|exact Hall].
    intros item. apply symbols_only_key. }
  pose proof (dedup_first_seen_order items) as Horder.
  assert (Hsome : map dedup_key items <> [])
    by (destruct items; [congruence|discriminate]).
  rewrite (@first_seen_one_key [] (map dedup_key items) Hsome Hkeys) in Horder.
  destruct (deduplicateItems items) as [|survivor [|other rest]] eqn:E;
    try discriminate Horder.
  exists survivor. split; [reflexivity|].
  apply (@dedup_survivor_longest items survivor).
  rewrite E. left. reflexivity.
Qed.

Lemma titles_without_letters_collapse_witness :
  (exists survivor,
      deduplicateItems DedupStubs.placeholders = [survivor]
      /\ In survivor DedupStubs.placeholders)
  /\ deduplicateItems DedupStubs.placeholders
     = [DedupStubs.untitled "- - -" (Some (lit "Ship it"))].
Proof.
  split; [|reflexivity].
  apply (@titles_without_letters_collapse DedupStubs.placeholders).
  - discriminate.
  - repeat constructor.
Defined.

End TitleKeyFacts.
